(** * QuizWind: the quiz engine and the progress tracker

    A shallow embedding of [src/core/quiz-engine.ts] and
    [src/core/progress-tracker.ts] (with the records of [src/types/index.ts]),
    followed by the properties the specification states about them, and by
    further properties of these two modules and of the shell around them:
    the timer, the stored grade levels and the application state of
    [src/shell/main.ts].

    Part I holds the model, Part II the lemmas and theorems of the
    specification, Part III the further properties. *)

From Stdlib Require Import ZArith QArith Qround Qpower Qabs Qminmax Lia Lra Lqa.
From Stdlib Require Import SpecFloat Sorted.
From Stdlib Require OrderedTypeEx.
From stdpp Require Import base option list strings gmap.

Local Open Scope Z_scope.
Local Open Scope Q_scope.

(* ===================================================================== *)
(** * Part I: the model *)
(* ===================================================================== *)

(** ** JavaScript numbers

    A JavaScript [number] is an IEEE-754 binary64 value.  The finite ones are
    rationals, so a number is a [Q] here, and every arithmetic operation is the
    exact operation on [Q] followed by [fl], the rounding to the nearest
    binary64 value (ties to even; 53 bits of precision; gradual underflow down
    to 2^-1074).  Overflow to Infinity and NaN are outside the model: no
    operation below divides by zero when its documented precondition holds,
    and no quantity of the program comes near 2^1024.

    Counters (attempts, indices, lengths) are integers far below 2^53, where
    binary64 addition is exact; they are kept in [Z]. *)

Definition pow2 (k : Z) : Q := 2 ^ k.

(** [mag x] is the binary exponent of [x]: 2^(mag x) <= |x| < 2^(mag x + 1). *)
Definition mag (x : Q) : Z :=
  let n := Z.abs (Qnum x) in
  let k := (Z.log2 n - Z.log2 (Z.pos (Qden x)))%Z in
  if Qle_bool (pow2 k) (Qabs x) then k else (k - 1)%Z.

(** Rounding to the nearest integer, ties to the even one. *)
Definition rne (x : Q) : Z :=
  let f := Qfloor x in
  match Qcompare (x - inject_Z f) (1 # 2) with
  | Lt => f
  | Gt => (f + 1)%Z
  | Eq => if Z.even f then f else (f + 1)%Z
  end.

Definition emin : Z := (-1074)%Z.

(** The exponent of the last place of [x]: 53 significant bits, never below
    the subnormal exponent. *)
Definition fexp (x : Q) : Z := Z.max (mag x - 52) emin.

Definition fl_abs (x : Q) : Q :=
  inject_Z (rne (x / pow2 (fexp x))) * pow2 (fexp x).

Definition fl (x : Q) : Q :=
  match Qcompare x 0 with
  | Eq => 0
  | Gt => fl_abs x
  | Lt => - fl_abs (- x)
  end.

Definition jadd (a b : Q) : Q := fl (a + b).
Definition jsub (a b : Q) : Q := fl (a - b).
Definition jmul (a b : Q) : Q := fl (a * b).
Definition jdiv (a b : Q) : Q := fl (a / b).

(** The number a decimal literal of the source denotes. *)
Definition literal (x : Q) : Q := fl x.

(** Every binary64 value is a multiple of 2^-1074. *)
Definition on_grid (x : Q) : Prop := exists k : Z, x == inject_Z k * pow2 emin.

(** [Math.max], [Math.floor] and [Math.round] are exact on finite numbers;
    [Math.round] rounds a midpoint towards +Infinity. *)
Definition Math_max (a b : Q) : Q := if Qle_bool a b then b else a.
Definition Math_floor (x : Q) : Z := Qfloor x.
Definition Math_round (x : Q) : Z := Qfloor (x + (1 # 2)).

(** The value of a finite [spec_float] of the Standard Library's IEEE-754
    specification, used to compare [fl] with it on concrete inputs. *)
Definition SF2Q (f : spec_float) : Q :=
  match f with
  | S754_finite s m e =>
      (if s then - inject_Z (Z.pos m) else inject_Z (Z.pos m)) * pow2 e
  | _ => 0
  end.

Definition b64_of_Z (z : Z) : spec_float :=
  match z with
  | Z0 => S754_zero false
  | Z.pos p => S754_finite false p 0
  | Z.neg p => S754_finite true p 0
  end.

Definition b64_div : spec_float -> spec_float -> spec_float := SFdiv 53 1024.
Definition b64_mul : spec_float -> spec_float -> spec_float := SFmul 53 1024.
Definition b64_add : spec_float -> spec_float -> spec_float := SFadd 53 1024.
Definition b64_sub : spec_float -> spec_float -> spec_float := SFsub 53 1024.

(** The pairs [(c, t)] with [0 <= c <= t] and [1 <= t <= n]. *)
Definition count_pairs (n : nat) : list (Z * Z) :=
  flat_map (fun t => map (fun c => (Z.of_nat c, Z.of_nat (S t))) (seq 0 (S (S t))))
    (seq 0 n).

(** The four operations of [calculateScore] on the quotient [c / t], computed
    by [fl] and by the IEEE-754 specification of the Standard Library. *)
Definition ieee_agrees (ct : Z * Z) : bool :=
  let c := inject_Z ct.1 in
  let t := inject_Z ct.2 in
  let q := b64_div (b64_of_Z ct.1) (b64_of_Z ct.2) in
  let p := b64_mul q (b64_of_Z 100) in
  let b := b64_sub (b64_of_Z 20) q in
  Qeq_bool (SF2Q q) (jdiv c t)
  && Qeq_bool (SF2Q p) (jmul (jdiv c t) 100)
  && Qeq_bool (SF2Q b) (jsub 20 (jdiv c t))
  && Qeq_bool (SF2Q (b64_add p b)) (jadd (jmul (jdiv c t) 100) (jsub 20 (jdiv c t))).

(** ** Arrays

    [Array.prototype.slice(0, end)] for an integer [end]: a negative [end]
    counts from the end of the array. *)
Definition slice0 {A} (l : list A) (stop : Z) : list A :=
  let len := Z.of_nat (length l) in
  let k := if (stop <? 0)%Z then Z.max (len + stop) 0 else Z.min stop len in
  take (Z.to_nat k) l.

(** [a[i]]: [None] stands for [undefined], which is what an index outside
    the array (negative ones included) reads. *)
Definition array_get {A} (l : list A) (i : Z) : option A :=
  if (i <? 0)%Z then None else l !! Z.to_nat i.

(** [[a[i], a[j]] = [a[j], a[i]]] for two indices inside the array (the only
    case the shuffle produces, see [random_index_in_range]). *)
Definition swap {A} (i j : nat) (l : list A) : list A :=
  match l !! i, l !! j with
  | Some x, Some y => <[j := x]> (<[i := y]> l)
  | _, _ => l
  end.

(** [Array.prototype.sort(cmp)]: the sort is stable, and an element moves
    behind another one only when the comparator's result is positive. *)
Fixpoint sort_insert {A} (cmp : A -> A -> Q) (x : A) (l : list A) : list A :=
  match l with
  | [] => [x]
  | y :: l' => if Qlt_le_dec 0 (cmp x y) then y :: sort_insert cmp x l'
               else x :: y :: l'
  end.

Fixpoint array_sort {A} (cmp : A -> A -> Q) (l : list A) : list A :=
  match l with
  | [] => []
  | x :: l' => sort_insert cmp x (array_sort cmp l')
  end.

(** ** Maps

    A JavaScript [Map] keeps its keys in insertion order; [set] on a present
    key replaces the value in place. *)
Section JsMap.
Context {K V : Type} `{EqDecision K}.

Definition JsMap : Type := list (K * V).

Fixpoint map_get (m : JsMap) (k : K) : option V :=
  match m with
  | [] => None
  | (k', v) :: m' => if decide (k = k') then Some v else map_get m' k
  end.

Fixpoint map_set (m : JsMap) (k : K) (v : V) : JsMap :=
  match m with
  | [] => [(k, v)]
  | (k', v') :: m' =>
      if decide (k = k') then (k, v) :: m' else (k', v') :: map_set m' k v
  end.

(** [new Map(entries)] *)
Definition map_of_entries (entries : list (K * V)) : JsMap :=
  foldl (fun m kv => map_set m kv.1 kv.2) [] entries.

(** [Array.from(m.entries())] *)
Definition map_entries (m : JsMap) : list (K * V) := m.

End JsMap.
Arguments JsMap : clear implicits.

(** ** types/index.ts *)

Inductive GradeLevel := Grade4_5 | Grade6_8.
Inductive AnswerOption := OptionA | OptionB | OptionC | OptionD.
Inductive MasteryLevel := New | Learning | Mastered.
Inductive QuizMode := Quiz | Flashcard | Timed.

#[export] Instance GradeLevel_eq_dec : EqDecision GradeLevel.
Proof. solve_decision. Defined.
#[export] Instance AnswerOption_eq_dec : EqDecision AnswerOption.
Proof. solve_decision. Defined.
#[export] Instance MasteryLevel_eq_dec : EqDecision MasteryLevel.
Proof. solve_decision. Defined.
#[export] Instance QuizMode_eq_dec : EqDecision QuizMode.
Proof. solve_decision. Defined.

Record Options := {
  option_a : string;
  option_b : string;
  option_c : string;
  option_d : string;
}.

(** [explanation] and [topic] are optional: [None] is an absent field.
    The field [id] of the source is [qid] here ([id] is the identity
    function), and the four options are [option_a] to [option_d]. *)
Record Question := {
  qid : string;
  gradeLevel : GradeLevel;
  question : string;
  options : Options;
  correctAnswer : AnswerOption;
  explanation : option string;
  topic : option string;
}.

(** A [Date] is represented by its time value: the core never calls a
    setter of a [Date]. *)
Definition Date : Type := Z.
Bind Scope Z_scope with Date.

Record UserProgress := {
  questionId : string;
  attempts : Z;
  correctCount : Z;
  incorrectCount : Z;
  lastAttempted : Date;
  mastery : MasteryLevel;
}.

Record QuizSession := {
  mode : QuizMode;
  questionsAnswered : Z;
  correctAnswers : Z;
  timeElapsed : Q;
  score : Z;
  startTime : Date;
}.

Record TopicStat := {
  correct : Z;
  total : Z;
}.

Record ProgressStats := {
  totalQuestions : Z;
  newQuestions : Z;
  learningQuestions : Z;
  masteredQuestions : Z;
  overallAccuracy : Q;
  topicBreakdown : JsMap string TopicStat;
}.

(** ** core/quiz-engine.ts *)

(** The grade levels a configuration may name ([QuizConfig.gradeLevel]).
    The fields of [QuizConfig] carry the prefix [cfg_], since [mode] and
    [topic] are fields of other records too. *)
Inductive GradeFilter := Only4_5 | Only6_8 | Only9_12 | AllGrades.

Record QuizConfig := {
  cfg_mode : QuizMode;
  cfg_gradeLevel : option GradeFilter;
  cfg_topic : option string;
  cfg_questionCount : option Z;
}.

(** [q.gradeLevel === config.gradeLevel], a comparison of the two strings. *)
Definition gradeLevel_eqb (g : GradeLevel) (f : GradeFilter) : bool :=
  match g, f with
  | Grade4_5, Only4_5 | Grade6_8, Only6_8 => true
  | _, _ => false
  end.

(** Truthiness of an optional string and of an optional number: an absent
    value, the empty string and 0 are falsy. *)
Definition truthy_string (s : option string) : bool :=
  match s with
  | Some s => negb (String.eqb s "")
  | None => false
  end.

Definition truthy_number (n : option Z) : bool :=
  match n with
  | Some n => negb (n =? 0)%Z
  | None => false
  end.

(** The source of [Math.random()]: [rand k] is what the [k]-th call returns,
    a binary64 value in [0, 1). *)
Definition RandomSource : Type := nat -> Q.

(** The largest binary64 value below 1. *)
Definition below_one : Q := 1 - pow2 (-53).

Definition unit_interval (rand : RandomSource) : Prop :=
  forall k, 0 <= rand k /\ rand k <= below_one.

(** The loop of [shuffleArray], entered with [i]; [call] counts the calls of
    [Math.random()] made so far. *)
Fixpoint shuffle_loop {T} (rand : RandomSource) (call : nat) (i : nat)
    (shuffled : list T) : list T :=
  match i with
  | O => shuffled
  | S i' =>
      let j := Math_floor (jmul (rand call) (inject_Z (Z.of_nat i + 1))) in
      shuffle_loop rand (S call) i' (swap i (Z.to_nat j) shuffled)
  end.

Definition shuffleArray {T} (rand : RandomSource) (array : list T) : list T :=
  shuffle_loop rand 0 (length array - 1) array.

Definition grade_filtered (allQuestions : list Question) (config : QuizConfig)
    : list Question :=
  match cfg_gradeLevel config with
  | Some AllGrades | None => allQuestions
  | Some g => filter (fun q => gradeLevel_eqb (gradeLevel q) g = true) allQuestions
  end.

Definition topic_filtered (questions : list Question) (config : QuizConfig)
    : list Question :=
  if truthy_string (cfg_topic config)
  then filter (fun q => topic q = cfg_topic config) questions
  else questions.

Definition selectQuestions (rand : RandomSource) (allQuestions : list Question)
    (config : QuizConfig) : list Question :=
  let filtered := topic_filtered (grade_filtered allQuestions config) config in
  let shuffled := shuffleArray rand filtered in
  let count :=
    if truthy_number (cfg_questionCount config)
    then default 0%Z (cfg_questionCount config)
    else Z.of_nat (length shuffled) in
  slice0 shuffled count.

Definition checkAnswer (q : Question) (answer : AnswerOption) : bool :=
  bool_decide (correctAnswer q = answer).

(** Precondition (as in the specification): [totalQuestions] is not 0. *)
Definition calculateScore (correctAnswers totalQuestions : Z) (timeElapsed : Q)
    (mode : QuizMode) : Z :=
  let baseScore :=
    jmul (jdiv (inject_Z correctAnswers) (inject_Z totalQuestions)) 100 in
  match mode with
  | Timed =>
      let avgTimePerQuestion := jdiv timeElapsed (inject_Z totalQuestions) in
      let timeBonus := Math_max 0 (jsub 20 avgTimePerQuestion) in
      Math_round (jadd baseScore timeBonus)
  | _ => Math_round baseScore
  end.

Definition createSession (mode : QuizMode) (now : Date) : QuizSession :=
  {| mode := mode;
     questionsAnswered := 0;
     correctAnswers := 0;
     timeElapsed := 0;
     score := 0;
     startTime := now |}.

Definition set_score (s : QuizSession) (v : Z) : QuizSession :=
  {| mode := mode s;
     questionsAnswered := questionsAnswered s;
     correctAnswers := correctAnswers s;
     timeElapsed := timeElapsed s;
     score := v;
     startTime := startTime s |}.

(** The object literal of [updateSession]: the fields of [session], three of
    them replaced. *)
Definition answered (s : QuizSession) (isCorrect : bool) (timeTaken : Q)
    : QuizSession :=
  {| mode := mode s;
     questionsAnswered := questionsAnswered s + 1;
     correctAnswers := correctAnswers s + (if isCorrect then 1 else 0);
     timeElapsed := jadd (timeElapsed s) timeTaken;
     score := score s;
     startTime := startTime s |}.

Definition updateSession (session : QuizSession) (isCorrect : bool)
    (timeTaken : Q) : QuizSession :=
  let newSession := answered session isCorrect timeTaken in
  set_score newSession
    (calculateScore (correctAnswers newSession) (questionsAnswered newSession)
       (timeElapsed newSession) (mode newSession)).

(** The result of [getNextQuestion]: a question, [null], or the [undefined]
    an array read outside its bounds yields. *)
Inductive Nullable (A : Type) :=
| Value (a : A)
| Null
| Undefined.
Arguments Value {A} a.
Arguments Null {A}.
Arguments Undefined {A}.

Definition getNextQuestion (questions : list Question) (currentIndex : Z)
    : Nullable Question :=
  if (currentIndex >=? Z.of_nat (length questions))%Z then Null
  else match array_get questions currentIndex with
       | Some q => Value q
       | None => Undefined
       end.

Definition isQuizComplete (currentIndex totalQuestions : Z) : bool :=
  (currentIndex >=? totalQuestions)%Z.

(** ** core/progress-tracker.ts *)

Definition createProgress (questionId : string) (now : Date) : UserProgress :=
  {| questionId := questionId;
     attempts := 0;
     correctCount := 0;
     incorrectCount := 0;
     lastAttempted := now;
     mastery := New |}.

Definition calculateMastery (progress : UserProgress) : MasteryLevel :=
  if (attempts progress <? 3)%Z then New
  else
    let accuracy :=
      jdiv (inject_Z (correctCount progress)) (inject_Z (attempts progress)) in
    if (attempts progress >=? 5)%Z && Qle_bool (literal (8 # 10)) accuracy
    then Mastered
    else Learning.

Definition set_mastery (p : UserProgress) (m : MasteryLevel) : UserProgress :=
  {| questionId := questionId p;
     attempts := attempts p;
     correctCount := correctCount p;
     incorrectCount := incorrectCount p;
     lastAttempted := lastAttempted p;
     mastery := m |}.

(** The object literal of [updateProgress]. *)
Definition attempted (p : UserProgress) (isCorrect : bool) (now : Date)
    : UserProgress :=
  {| questionId := questionId p;
     attempts := attempts p + 1;
     correctCount := correctCount p + (if isCorrect then 1 else 0);
     incorrectCount := incorrectCount p + (if isCorrect then 0 else 1);
     lastAttempted := now;
     mastery := mastery p |}.

Definition updateProgress (progress : UserProgress) (isCorrect : bool)
    (now : Date) : UserProgress :=
  let newProgress := attempted progress isCorrect now in
  set_mastery newProgress (calculateMastery newProgress).

(** The accumulators of [calculateStats]. *)
Record StatsAcc := {
  newCount : Z;
  learningCount : Z;
  masteredCount : Z;
  totalCorrect : Z;
  totalAttempts : Z;
  breakdown : JsMap string TopicStat;
}.

Definition stats_init : StatsAcc :=
  {| newCount := 0; learningCount := 0; masteredCount := 0;
     totalCorrect := 0; totalAttempts := 0; breakdown := [] |}.

(** One iteration of the [forEach] of [calculateStats]. *)
Definition stats_step (progressMap : JsMap string UserProgress)
    (acc : StatsAcc) (question : Question) : StatsAcc :=
  match map_get progressMap (qid question) with
  | None =>
      {| newCount := newCount acc + 1;
         learningCount := learningCount acc;
         masteredCount := masteredCount acc;
         totalCorrect := totalCorrect acc;
         totalAttempts := totalAttempts acc;
         breakdown := breakdown acc |}
  | Some progress =>
      {| newCount :=
           newCount acc
           + match mastery progress with New => 1 | _ => 0 end;
         learningCount :=
           learningCount acc
           + match mastery progress with Learning => 1 | _ => 0 end;
         masteredCount :=
           masteredCount acc
           + match mastery progress with Mastered => 1 | _ => 0 end;
         totalCorrect := totalCorrect acc + correctCount progress;
         totalAttempts := totalAttempts acc + attempts progress;
         breakdown :=
           if truthy_string (topic question)
           then
             let t := default ""%string (topic question) in
             let current :=
               default {| correct := 0; total := 0 |}
                 (map_get (breakdown acc) t) in
             map_set (breakdown acc) t
               {| correct := correct current + correctCount progress;
                  total := total current + attempts progress |}
           else breakdown acc |}
  end.

Definition calculateStats (progressList : list UserProgress)
    (allQuestions : list Question) : ProgressStats :=
  let progressMap :=
    map_of_entries (map (fun p => (questionId p, p)) progressList) in
  let acc := foldl (stats_step progressMap) stats_init allQuestions in
  let overallAccuracy :=
    if (totalAttempts acc >? 0)%Z
    then jdiv (inject_Z (totalCorrect acc)) (inject_Z (totalAttempts acc))
    else 0 in
  {| totalQuestions := Z.of_nat (length allQuestions);
     newQuestions := newCount acc;
     learningQuestions := learningCount acc;
     masteredQuestions := masteredCount acc;
     overallAccuracy := overallAccuracy;
     topicBreakdown := breakdown acc |}.

(** The elements [getWeakestTopics] sorts. *)
Record TopicAccuracy := {
  ta_topic : string;
  ta_accuracy : Q;
  ta_total : Z;
}.

Definition topic_accuracy (entry : string * TopicStat) : TopicAccuracy :=
  {| ta_topic := entry.1;
     ta_accuracy :=
       if (total entry.2 >? 0)%Z
       then jdiv (inject_Z (correct entry.2)) (inject_Z (total entry.2))
       else 0;
     ta_total := total entry.2 |}.

Definition by_accuracy (a b : TopicAccuracy) : Q :=
  jsub (ta_accuracy a) (ta_accuracy b).

(** The topics of [getWeakestTopics], before [slice]. *)
Definition ranked_topics (stats : ProgressStats) : list TopicAccuracy :=
  array_sort by_accuracy
    (filter (fun t => (0 < ta_total t)%Z)
       (map topic_accuracy (map_entries (topicBreakdown stats)))).

(** [limit] is optional and defaults to 3. *)
Definition getWeakestTopics (stats : ProgressStats) (limit : option Z)
    : list string :=
  map ta_topic (slice0 (ranked_topics stats) (default 3%Z limit)).

Definition resetProgress (progress : UserProgress) (now : Date) : UserProgress :=
  createProgress (questionId progress) now.

(** ** The two update operations on objects

    In the source a session and a progress record are mutable objects, and
    [updateSession] and [updateProgress] receive a reference.  Here the
    objects live in a heap; [{ ...o, f: v }] allocates a new object and
    [o.f = v] writes a field of the object [o] refers to.  [new Date()]
    reads the clock of the world. *)
Module Imp.

Definition loc : Type := positive.

Inductive obj :=
| ObjSession (s : QuizSession)
| ObjProgress (p : UserProgress).

Record world := {
  heap : gmap loc obj;
  clock : Date;
}.

Definition M (A : Type) : Type := world -> option (A * world).

#[export] Instance M_ret : MRet M := fun A a w => Some (a, w).
#[export] Instance M_bind : MBind M := fun A B f m w =>
  match m w with
  | Some (a, w') => f a w'
  | None => None
  end.

Definition alloc (o : obj) : M loc := fun w =>
  let l := fresh (dom (heap w)) in
  Some (l, {| heap := <[l := o]> (heap w); clock := clock w |}).

Definition new_Date : M Date := fun w => Some (clock w, w).

Definition read_session (l : loc) : M QuizSession := fun w =>
  match heap w !! l with
  | Some (ObjSession s) => Some (s, w)
  | _ => None
  end.

Definition read_progress (l : loc) : M UserProgress := fun w =>
  match heap w !! l with
  | Some (ObjProgress p) => Some (p, w)
  | _ => None
  end.

(** [l.score = v] *)
Definition assign_score (l : loc) (v : Z) : M unit := fun w =>
  match heap w !! l with
  | Some (ObjSession s) =>
      Some (tt, {| heap := <[l := ObjSession (set_score s v)]> (heap w);
                   clock := clock w |})
  | _ => None
  end.

(** [l.mastery = m] *)
Definition assign_mastery (l : loc) (m : MasteryLevel) : M unit := fun w =>
  match heap w !! l with
  | Some (ObjProgress p) =>
      Some (tt, {| heap := <[l := ObjProgress (set_mastery p m)]> (heap w);
                   clock := clock w |})
  | _ => None
  end.

Definition updateSession (session : loc) (isCorrect : bool) (timeTaken : Q)
    : M loc :=
  s ← read_session session;
  newSession ← alloc (ObjSession (answered s isCorrect timeTaken));
  ns ← read_session newSession;
  _ ← assign_score newSession
        (calculateScore (correctAnswers ns) (questionsAnswered ns)
           (timeElapsed ns) (mode ns));
  mret newSession.

Definition updateProgress (progress : loc) (isCorrect : bool) : M loc :=
  p ← read_progress progress;
  now ← new_Date;
  newProgress ← alloc (ObjProgress (attempted p isCorrect now));
  np ← read_progress newProgress;
  _ ← assign_mastery newProgress (calculateMastery np);
  mret newProgress.

End Imp.

(** ** The rules as the specification words them

    Exact rational arithmetic, for comparison with the functions above. *)

(** Rounding to the nearest integer, a midpoint going up. *)
Definition round_half_up (x : Q) : Z := Qfloor (x + (1 # 2)).

(** [round(100 * c / t)], and for the timed mode
    [round(100 * c / t + max(0, 20 - e / t))]. *)
Definition score_rule (c t : Z) (e : Q) (mode : QuizMode) : Z :=
  let base := 100 * inject_Z c / inject_Z t in
  match mode with
  | Timed => round_half_up (base + Qmax 0 (20 - e / inject_Z t))
  | _ => round_half_up base
  end.

(** The base score of the rule in the order it is written,
    [round(100 * c / t)], evaluated in binary64 arithmetic. *)
Definition base_score_as_written (c t : Z) : Z :=
  Math_round (jdiv (jmul 100 (inject_Z c)) (inject_Z t)).

(** The mastery classification rule. *)
Definition mastery_rule (attempts correctCount : Z) : MasteryLevel :=
  let accuracy := inject_Z correctCount / inject_Z attempts in
  if (attempts <? 3)%Z then New
  else if (attempts <? 5)%Z || negb (Qle_bool (8 # 10) accuracy) then Learning
  else Mastered.

(** ** The progress records the tracker produces

    A record comes from [createProgress] or [resetProgress], or from
    [updateProgress] applied to a record the tracker produced. *)
Inductive produced : UserProgress -> Prop :=
| produced_create questionId now :
    produced (createProgress questionId now)
| produced_update p isCorrect now :
    produced p -> produced (updateProgress p isCorrect now)
| produced_reset p now :
    produced (resetProgress p now).

(** ** The filters as the specification words them

    The grade-level filter: absent or [all] means no filtering.  The topic
    filter: an exact match; an absent topic (or the empty string, which the
    code reads as absent) means no filtering. *)
Definition grade_matches (config : QuizConfig) (q : Question) : bool :=
  match cfg_gradeLevel config with
  | None | Some AllGrades => true
  | Some Only4_5 => bool_decide (gradeLevel q = Grade4_5)
  | Some Only6_8 => bool_decide (gradeLevel q = Grade6_8)
  | Some Only9_12 => false
  end.

Definition topic_matches (config : QuizConfig) (q : Question) : bool :=
  match cfg_topic config with
  | None | Some EmptyString => true
  | Some t => bool_decide (topic q = Some t)
  end.

Definition spec_filtered (catalog : list Question) (config : QuizConfig)
    : list Question :=
  filter (fun q => grade_matches config q && topic_matches config q = true)
    catalog.

(** ** The statistics as the specification words them *)

(** The record of a question: the one the progress list holds for its id
    (the last one, should several records share the id). *)
Definition record_of (progressList : list UserProgress) (q : Question)
    : option UserProgress :=
  last (filter (fun p => questionId p = qid q) progressList).

(** The catalog questions that have a record, each with its record, and the
    number of those that have none. *)
Definition recorded (progressList : list UserProgress)
    (catalog : list Question) : list (Question * UserProgress) :=
  omap (fun q => match record_of progressList q with
                 | Some p => Some (q, p)
                 | None => None
                 end) catalog.

Definition unrecorded (progressList : list UserProgress)
    (catalog : list Question) : Z :=
  Z.of_nat (length (filter (fun q => record_of progressList q = None) catalog)).

Definition with_mastery (m : MasteryLevel)
    (rs : list (Question * UserProgress)) : Z :=
  Z.of_nat (length (filter (fun r => mastery r.2 = m) rs)).

Definition sum_correct (rs : list (Question * UserProgress)) : Z :=
  foldr (fun r n => (correctCount r.2 + n)%Z) 0%Z rs.

Definition sum_attempts (rs : list (Question * UserProgress)) : Z :=
  foldr (fun r n => (attempts r.2 + n)%Z) 0%Z rs.

(** The totals of a topic: none when no recorded question carries it. *)
Definition topic_totals (t : string) (rs : list (Question * UserProgress))
    : option TopicStat :=
  match filter (fun r => topic r.1 = Some t) rs with
  | [] => None
  | rs' => Some {| correct := sum_correct rs'; total := sum_attempts rs' |}
  end.

(** What the accumulators of [calculateStats] hold after the questions of
    [catalog] have been visited. *)
Definition stats_agree (progressList : list UserProgress)
    (catalog : list Question) (acc : StatsAcc) : Prop :=
  let rs := recorded progressList catalog in
  newCount acc = (unrecorded progressList catalog + with_mastery New rs)%Z
  /\ learningCount acc = with_mastery Learning rs
  /\ masteredCount acc = with_mastery Mastered rs
  /\ totalCorrect acc = sum_correct rs
  /\ totalAttempts acc = sum_attempts rs
  /\ (forall t, t <> ""%string -> map_get (breakdown acc) t = topic_totals t rs)
  /\ map_get (breakdown acc) ""%string = None.

#[export] Instance Qeq_decision : RelDecision Qeq := Qeq_dec.

(** ** The accuracy of a topic as the specification words it *)

Definition exact_accuracy (st : TopicStat) : Q :=
  inject_Z (correct st) / inject_Z (total st).

(** An entry of the breakdown with well-formed counts below 2^26. *)
Definition countable (e : string * TopicStat) : Prop :=
  (0 <= correct e.2 <= total e.2)%Z /\ (total e.2 < 2 ^ 26)%Z.

(** ** Runs

    A session as the shell drives it: [updateSession] once per answer, each
    answer with the seconds it took; and a progress record updated once per
    outcome, each outcome with the time of the update. *)
Definition play (session : QuizSession) (answers : list (bool * Q))
    : QuizSession :=
  foldl (fun s a => updateSession s a.1 a.2) session answers.

Definition replay (progress : UserProgress) (outcomes : list (bool * Date))
    : UserProgress :=
  foldl (fun p o => updateProgress p o.1 o.2) progress outcomes.

Definition count_correct {T} (answers : list (bool * T)) : Z :=
  Z.of_nat (length (filter (fun a => a.1 = true) answers)).

Definition count_wrong {T} (answers : list (bool * T)) : Z :=
  Z.of_nat (length (filter (fun a => a.1 = false) answers)).

Definition Zsum (l : list Z) : Z := foldr Z.add 0%Z l.

(** ** core/progress-tracker.ts, the remaining operations *)

(** [!progress || progress.mastery !== 'mastered'] *)
Definition needs_review (progressMap : JsMap string UserProgress)
    (q : Question) : bool :=
  match map_get progressMap (qid q) with
  | None => true
  | Some progress => negb (bool_decide (mastery progress = Mastered))
  end.

Definition getQuestionsNeedingReview (allQuestions : list Question)
    (progressList : list UserProgress) : list Question :=
  let progressMap :=
    map_of_entries (map (fun p => (questionId p, p)) progressList) in
  filter (fun q => needs_review progressMap q = true) allQuestions.

(** [now k] is the time the [k]-th call of [createProgress] reads. *)
Definition resetAllProgress (progressList : list UserProgress)
    (now : nat -> Date) : list UserProgress :=
  imap (fun k p => createProgress (questionId p) (now k)) progressList.

(** A record in its zero state. *)
Definition zeroed (p : UserProgress) : Prop :=
  attempts p = 0%Z /\ correctCount p = 0%Z /\ incorrectCount p = 0%Z
  /\ mastery p = New.

(** [map.keys()] and [map.values()] *)
Definition map_keys {K V} (m : JsMap K V) : list K := map fst m.
Definition map_values {K V} (m : JsMap K V) : list V := map snd m.


(** ** core/quiz-engine.ts, the remaining operations *)

(** [priority[m]] in [sortByMasteryPriority] *)
Definition priority (m : MasteryLevel) : Q :=
  match m with New => 0 | Learning => 1 | Mastered => 2 end.

(** [progressMap.get(q.id) || 'new']: the three tags are non-empty strings,
    so only a missing entry takes the default. *)
Definition mastery_or_new (progressMap : JsMap string MasteryLevel) (q : Question)
    : MasteryLevel :=
  default New (map_get progressMap (qid q)).

Definition by_priority (progressMap : JsMap string MasteryLevel) (a b : Question) : Q :=
  jsub (priority (mastery_or_new progressMap a))
       (priority (mastery_or_new progressMap b)).

Definition sortByMasteryPriority (questions : list Question)
    (progressMap : JsMap string MasteryLevel) : list Question :=
  array_sort (by_priority progressMap) questions.

(** A JavaScript [Set] keeps its values in insertion order; [add] of a
    present value changes nothing. *)
Definition JsSet (K : Type) : Type := list K.

Definition set_add {K} `{EqDecision K} (s : JsSet K) (k : K) : JsSet K :=
  if decide (k ∈ s) then s else s ++ [k].

(** [Array.prototype.sort()] without a comparator orders strings by their
    code units; a string of the model is the sequence of its units, and
    [String.compare] compares two of them unit by unit. *)
Definition default_compare (a b : string) : Q :=
  match String.compare a b with
  | Lt => -1
  | Eq => 0
  | Gt => 1
  end.

Definition getTopics (questions : list Question) : list string :=
  let topics :=
    foldl (fun (topics : JsSet string) q =>
             if truthy_string (topic q)
             then set_add topics (default ""%string (topic q))
             else topics)
      [] questions in
  array_sort default_compare topics.

(** The pairs of indices the loop of [shuffleArray] swaps, entered with [i]
    after [call] calls of [Math.random()]. *)
Fixpoint shuffle_swaps (rand : RandomSource) (call : nat) (i : nat) : list (nat * Z) :=
  match i with
  | O => []
  | S i' =>
      (i, Math_floor (jmul (rand call) (inject_Z (Z.of_nat i + 1))))
      :: shuffle_swaps rand (S call) i'
  end.

(** ** shell/timer.ts

    [createTimer] closes over [remaining] and [intervalId]; the state of a
    timer is the pair of them, [running] standing for [intervalId !== null].
    The duration is a whole number of seconds.  The callbacks [onTick] and
    [onComplete] of the configuration are recorded in the order of their
    calls.  [setInterval(tick, 1000)] is the environment: while the interval
    is set it calls [tick] once a second ([Interval]); a cleared interval
    calls nothing. *)
Module Timer.

Record State := { remaining : Z; running : bool }.

Inductive Callback := onTick (remaining : Z) | onComplete.

Inductive Call := Start | Stop | Reset | Interval.

Definition createTimer (duration : Z) : State :=
  {| remaining := duration; running := false |}.

Definition stop (s : State) : State :=
  if running s then {| remaining := remaining s; running := false |} else s.

Definition tick (s : State) : State * list Callback :=
  let s := {| remaining := remaining s - 1; running := running s |} in
  if (remaining s <=? 0)%Z
  then (stop s, [onTick (remaining s); onComplete])
  else (s, [onTick (remaining s)]).

Definition start (s : State) : State :=
  if running s then s else {| remaining := remaining s; running := true |}.

Definition reset (duration : Z) (s : State) : State * list Callback :=
  let s := stop s in
  ({| remaining := duration; running := running s |}, [onTick duration]).

Definition call (duration : Z) (s : State) (c : Call) : State * list Callback :=
  match c with
  | Start => (start s, [])
  | Stop => (stop s, [])
  | Reset => reset duration s
  | Interval => if running s then tick s else (s, [])
  end.

(** A sequence of calls, with the callbacks it makes. *)
Fixpoint run (duration : Z) (s : State) (calls : list Call)
    : State * list Callback :=
  match calls with
  | [] => (s, [])
  | c :: calls =>
      let r := call duration s c in
      let r' := run duration r.1 calls in
      (r'.1, r.2 ++ r'.2)
  end.

(** The calls of [onTick] of a countdown from [r] that lasts [m] seconds. *)
Definition ticks (r : Z) (m : nat) : list Callback :=
  map (fun k => onTick (r - Z.of_nat k)) (seq 1 m).

End Timer.

(** ** shell/storage.ts

    What [JSON.parse] returns. *)
#[local] Unset Elimination Schemes.
Inductive Json :=
| JNull
| JBool (b : bool)
| JNumber (x : Q)
| JString (s : string)
| JArray (items : list Json)
| JObject (members : list (string * Json)).
#[local] Set Elimination Schemes.

Record StorageResult (T : Type) := {
  success : bool;
  data : option T;
  error : option string;
}.
Arguments success {T} _.
Arguments data {T} _.
Arguments error {T} _.

Definition GRADE_LEVELS_KEY : string := "quizwind_grade_levels".
Definition ALL_GRADE_LEVELS : list string := ["4-5"; "6-8"; "9-12"]%string.

(** [v === '4-5' || v === '6-8' || v === '9-12'], with the string it holds
    for. *)
Definition as_grade_level (v : Json) : option string :=
  match v with
  | JString s =>
      if String.eqb s "4-5" || String.eqb s "6-8" || String.eqb s "9-12"
      then Some s else None
  | _ => None
  end.

Section Storage.

(** The environment: [localStorage.getItem] returns a string or [null]
    ([Some None]), or throws; [JSON.parse] returns a value or throws.  [None]
    stands for the exception. *)
Variable getItem : string -> option (option string).
Variable JSON_parse : string -> option Json.

Definition loadGradeLevels : StorageResult (list string) :=
  let all := {| success := true; data := Some ALL_GRADE_LEVELS; error := None |} in
  match getItem GRADE_LEVELS_KEY with
  | None => all
  | Some serialized =>
      if negb (truthy_string serialized) then all
      else
        match JSON_parse (default ""%string serialized) with
        | None => all
        | Some (JArray parsed) =>
            let valid := omap as_grade_level parsed in
            {| success := true;
               data := Some (if (Z.of_nat (length valid) >? 0)%Z then valid
                             else ALL_GRADE_LEVELS);
               error := None |}
        | Some _ => all
        end
  end.

End Storage.

(** ** shell/main.ts

    The application state and the handlers of the three modes.  The views
    are outside the model: rendering reads the state and does not change it,
    and the result of saving to the storage is ignored by the handlers.  A
    handler returns [None] where the code raises a [TypeError] by reading a
    property of [undefined].  [created] and [now] are the times the two
    [new Date()] of a recorded answer read, [clock] is what [Date.now()]
    returns.

    [timedTimer] holds the state of the timer object the variable refers to.
    The code stops a timer before it drops or replaces it, so a timer that
    is no longer referred to never ticks again and needs no place in the
    state. *)
Record AppState := {
  currentQuestions : list Question;
  currentQuestionIndex : Z;
  currentSession : option QuizSession;
  userProgress : JsMap string UserProgress;
  isAnswered : bool;
  flashcardIndex : Z;
  timedTimer : option Timer.State;
  timedQuestionStartTime : Z;
}.

(** [result.data.forEach((progress) => userProgress.set(progress.questionId, progress))],
    when the result is a success that carries data. *)
Definition loadUserProgress (result : StorageResult (list UserProgress))
    (userProgress : JsMap string UserProgress) : JsMap string UserProgress :=
  match data result with
  | Some data =>
      if success result
      then foldl (fun m progress => map_set m (questionId progress) progress)
             userProgress data
      else userProgress
  | None => userProgress
  end.

(** [Array.from(userProgress.values())] *)
Definition progress_values (userProgress : JsMap string UserProgress)
    : list UserProgress :=
  map_values userProgress.

(** The three statements every answer handler runs:
    [userProgress.get(question.id) || createProgress(question.id)],
    [updateProgress], [userProgress.set]. *)
Definition record_answer (userProgress : JsMap string UserProgress)
    (question : Question) (isCorrect : bool) (created now : Date)
    : JsMap string UserProgress :=
  let progress :=
    default (createProgress (qid question) created)
      (map_get userProgress (qid question)) in
  let updatedProgress := updateProgress progress isCorrect now in
  map_set userProgress (qid question) updatedProgress.

Definition renderCurrentQuestion (s : AppState) : AppState :=
  match array_get (currentQuestions s) (currentQuestionIndex s) with
  | None => s
  | Some _ =>
      {| currentQuestions := currentQuestions s;
         currentQuestionIndex := currentQuestionIndex s;
         currentSession := currentSession s;
         userProgress := userProgress s;
         isAnswered := false;
         flashcardIndex := flashcardIndex s;
         timedTimer := timedTimer s;
         timedQuestionStartTime := timedQuestionStartTime s |}
  end.

Definition startQuizMode (rand : RandomSource) (questionsData : list Question)
    (now : Date) (s : AppState) : AppState :=
  renderCurrentQuestion
    {| currentQuestions :=
         selectQuestions rand questionsData
           {| cfg_mode := Quiz; cfg_gradeLevel := Some Only6_8;
              cfg_topic := None; cfg_questionCount := Some 10%Z |};
       currentQuestionIndex := 0;
       currentSession := Some (createSession Quiz now);
       userProgress := userProgress s;
       isAnswered := false;
       flashcardIndex := flashcardIndex s;
       timedTimer := timedTimer s;
       timedQuestionStartTime := timedQuestionStartTime s |}.

Definition handleAnswerSelected (s : AppState) (answer : AnswerOption)
    (created now : Date) : option AppState :=
  if isAnswered s then Some s
  else
    match array_get (currentQuestions s) (currentQuestionIndex s) with
    | None => None
    | Some question =>
        let isCorrect := checkAnswer question answer in
        Some {| currentQuestions := currentQuestions s;
                currentQuestionIndex := currentQuestionIndex s;
                currentSession :=
                  match currentSession s with
                  | Some session => Some (updateSession session isCorrect 0)
                  | None => None
                  end;
                userProgress :=
                  record_answer (userProgress s) question isCorrect created now;
                isAnswered := true;
                flashcardIndex := flashcardIndex s;
                timedTimer := timedTimer s;
                timedQuestionStartTime := timedQuestionStartTime s |}
    end.

Definition handleNextQuestion (s : AppState) : AppState :=
  if negb (isAnswered s) then s
  else
    renderCurrentQuestion
      {| currentQuestions := currentQuestions s;
         currentQuestionIndex := currentQuestionIndex s + 1;
         currentSession := currentSession s;
         userProgress := userProgress s;
         isAnswered := isAnswered s;
         flashcardIndex := flashcardIndex s;
         timedTimer := timedTimer s;
         timedQuestionStartTime := timedQuestionStartTime s |}.

Definition startFlashcardMode (rand : RandomSource)
    (questionsData : list Question) (s : AppState) : AppState :=
  {| currentQuestions :=
       selectQuestions rand questionsData
         {| cfg_mode := Flashcard; cfg_gradeLevel := Some Only6_8;
            cfg_topic := None; cfg_questionCount := None |};
     currentQuestionIndex := currentQuestionIndex s;
     currentSession := currentSession s;
     userProgress := userProgress s;
     isAnswered := isAnswered s;
     flashcardIndex := 0;
     timedTimer := timedTimer s;
     timedQuestionStartTime := timedQuestionStartTime s |}.

(** [if (flashcardIndex < currentQuestions.length - 1) flashcardIndex++] *)
Definition handleFlashcardNext (s : AppState) : AppState :=
  if (flashcardIndex s <? Z.of_nat (length (currentQuestions s)) - 1)%Z
  then {| currentQuestions := currentQuestions s;
          currentQuestionIndex := currentQuestionIndex s;
          currentSession := currentSession s;
          userProgress := userProgress s;
          isAnswered := isAnswered s;
          flashcardIndex := flashcardIndex s + 1;
          timedTimer := timedTimer s;
          timedQuestionStartTime := timedQuestionStartTime s |}
  else s.

Definition handleFlashcardPrevious (s : AppState) : AppState :=
  if (flashcardIndex s >? 0)%Z
  then {| currentQuestions := currentQuestions s;
          currentQuestionIndex := currentQuestionIndex s;
          currentSession := currentSession s;
          userProgress := userProgress s;
          isAnswered := isAnswered s;
          flashcardIndex := flashcardIndex s - 1;
          timedTimer := timedTimer s;
          timedQuestionStartTime := timedQuestionStartTime s |}
  else s.

(** [handleFlashcardKnowIt] ([isCorrect] true) and
    [handleFlashcardNeedReview] ([isCorrect] false), which differ in that
    argument of [updateProgress] only. *)
Definition handleFlashcardAnswer (isCorrect : bool) (s : AppState)
    (created now : Date) : option AppState :=
  match array_get (currentQuestions s) (flashcardIndex s) with
  | None => None
  | Some question =>
      Some (handleFlashcardNext
              {| currentQuestions := currentQuestions s;
                 currentQuestionIndex := currentQuestionIndex s;
                 currentSession := currentSession s;
                 userProgress :=
                   record_answer (userProgress s) question isCorrect created now;
                 isAnswered := isAnswered s;
                 flashcardIndex := flashcardIndex s;
                 timedTimer := timedTimer s;
                 timedQuestionStartTime := timedQuestionStartTime s |})
  end.

Definition handleFlashcardKnowIt := handleFlashcardAnswer true.
Definition handleFlashcardNeedReview := handleFlashcardAnswer false.

(** What the user does in the flashcard mode. *)
Inductive FlashcardEvent :=
| KnowIt (created now : Date)
| NeedReview (created now : Date)
| Next
| Previous.

Definition flashcard_event (s : AppState) (e : FlashcardEvent) : option AppState :=
  match e with
  | KnowIt created now => handleFlashcardKnowIt s created now
  | NeedReview created now => handleFlashcardNeedReview s created now
  | Next => Some (handleFlashcardNext s)
  | Previous => Some (handleFlashcardPrevious s)
  end.

(** A sequence of events; an exception ends it. *)
Definition events {E} (handle : AppState -> E -> option AppState)
    (s : AppState) (es : list E) : option AppState :=
  foldl (fun o e => match o with Some s => handle s e | None => None end)
    (Some s) es.

(** The answers the handlers record, one after the other. *)
Definition record_answers (userProgress : JsMap string UserProgress)
    (answers : list (Question * bool * (Date * Date)))
    : JsMap string UserProgress :=
  foldl (fun m a => record_answer m a.1.1 a.1.2 a.2.1 a.2.2) userProgress answers.

(** The attempts and the correct answers the store holds for a question id:
    none without a record. *)
Definition attempts_of (userProgress : JsMap string UserProgress) (id : string) : Z :=
  match map_get userProgress id with
  | Some progress => attempts progress
  | None => 0
  end.

Definition correct_of (userProgress : JsMap string UserProgress) (id : string) : Z :=
  match map_get userProgress id with
  | Some progress => correctCount progress
  | None => 0
  end.

(** Every record of the store sits under its own question id, and no id
    occurs twice. *)
Definition stored_by_id (userProgress : JsMap string UserProgress) : Prop :=
  NoDup (map_keys userProgress)
  /\ Forall (fun e => questionId e.2 = e.1) userProgress.


(** *** The quiz mode and its next button

    A click on the next button runs the listeners of the button in the order
    of their registration.  [setupQuizView] adds one at every start of a
    quiz, which calls [handleNextQuestion]; [showQuizComplete] assigns the
    [onclick] handler, which starts a new quiz, and nothing removes it.  A
    listener that is registered during a click does not run on that click.
    The [disabled] flag of the button is outside the model: a click is taken
    as possible at any time.  A click on an option reaches
    [handleAnswerSelected] once for every listener [setupQuizView] has added;
    the first call sets [isAnswered], so the others return at once, and the
    click is one call. *)
Inductive NextHandler := OnNextQuestion | OnclickRestart.

#[export] Instance NextHandler_eq_dec : EqDecision NextHandler.
Proof. solve_decision. Defined.

(** The application state with the listeners of the next button. *)
Record QuizView := {
  shown : AppState;
  nextButton : list NextHandler;
}.


(** [nextButton.onclick = ...]: the handler takes its place among the
    listeners when it is first assigned. *)
Definition assign_onclick (button : list NextHandler) : list NextHandler :=
  if decide (OnclickRestart ∈ button) then button
  else button ++ [OnclickRestart].

Definition showQuizComplete (v : QuizView) : QuizView :=
  match currentSession (shown v) with
  | None => v
  | Some _ =>
      {| shown := shown v; nextButton := assign_onclick (nextButton v) |}
  end.

(** What [renderCurrentQuestion] does beyond the application state: without
    a current question it calls [showQuizComplete]. *)
Definition rendered (v : QuizView) : QuizView :=
  match array_get (currentQuestions (shown v)) (currentQuestionIndex (shown v)) with
  | None => showQuizComplete v
  | Some _ => v
  end.

(** [startQuizMode] with [setupQuizView], which registers a listener before
    the first question is rendered. *)
Definition startQuizMode_view (rand : RandomSource) (questionsData : list Question)
    (now : Date) (v : QuizView) : QuizView :=
  rendered {| shown := startQuizMode rand questionsData now (shown v);
              nextButton := nextButton v ++ [OnNextQuestion] |}.

Definition handleNextQuestion_view (v : QuizView) : QuizView :=
  if negb (isAnswered (shown v)) then v
  else rendered {| shown := handleNextQuestion (shown v);
                   nextButton := nextButton v |}.

(** What the user does in the quiz mode: a click on an option, and a click
    on the next button, with the random numbers and the time a new quiz
    takes should the click start one. *)
Inductive QuizEvent :=
| AnswerSelected (answer : AnswerOption) (created now : Date)
| NextClicked (rand : RandomSource) (now : Date).

Definition next_handler (questionsData : list Question) (rand : RandomSource)
    (now : Date) (v : QuizView) (h : NextHandler) : QuizView :=
  match h with
  | OnNextQuestion => handleNextQuestion_view v
  | OnclickRestart => startQuizMode_view rand questionsData now v
  end.

Definition quiz_event (questionsData : list Question) (v : QuizView)
    (e : QuizEvent) : option QuizView :=
  match e with
  | AnswerSelected answer created now =>
      match handleAnswerSelected (shown v) answer created now with
      | Some s => Some {| shown := s; nextButton := nextButton v |}
      | None => None
      end
  | NextClicked rand now =>
      Some (foldl (next_handler questionsData rand now) v (nextButton v))
  end.

Definition quiz_events (questionsData : list Question) (v : QuizView)
    (es : list QuizEvent) : option QuizView :=
  foldl (fun o e => match o with
                    | Some v => quiz_event questionsData v e
                    | None => None
                    end)
    (Some v) es.


(** *** The timed mode *)

Definition TIMED_QUESTION_COUNT : Z := 10.
Definition TIMED_SECONDS_PER_QUESTION : Z := 15.

(** The application with its environment: [scheduled] counts the callbacks
    [setTimeout] holds for the end of a feedback pause. *)
Record World := {
  application : AppState;
  scheduled : nat;
}.

Definition showTimedQuizComplete (s : AppState) : AppState :=
  match currentSession s with
  | None => s
  | Some _ =>
      {| currentQuestions := currentQuestions s;
         currentQuestionIndex := currentQuestionIndex s;
         currentSession := currentSession s;
         userProgress := userProgress s;
         isAnswered := isAnswered s;
         flashcardIndex := flashcardIndex s;
         timedTimer := None;
         timedQuestionStartTime := timedQuestionStartTime s |}
  end.

(** The new timer is created and started; the one [timedTimer] referred to
    has been stopped. *)
Definition renderTimedCurrentQuestion (clock : Z) (s : AppState) : AppState :=
  match array_get (currentQuestions s) (currentQuestionIndex s) with
  | None => showTimedQuizComplete s
  | Some _ =>
      {| currentQuestions := currentQuestions s;
         currentQuestionIndex := currentQuestionIndex s;
         currentSession := currentSession s;
         userProgress := userProgress s;
         isAnswered := false;
         flashcardIndex := flashcardIndex s;
         timedTimer :=
           Some (Timer.start (Timer.createTimer TIMED_SECONDS_PER_QUESTION));
         timedQuestionStartTime := clock |}
  end.

Definition handleTimedStart (rand : RandomSource) (questionsData : list Question)
    (now : Date) (clock : Z) (s : AppState) : AppState :=
  renderTimedCurrentQuestion clock
    {| currentQuestions :=
         selectQuestions rand questionsData
           {| cfg_mode := Timed; cfg_gradeLevel := Some Only6_8;
              cfg_topic := None;
              cfg_questionCount := Some TIMED_QUESTION_COUNT |};
       currentQuestionIndex := 0;
       currentSession := Some (createSession Timed now);
       userProgress := userProgress s;
       isAnswered := false;
       flashcardIndex := flashcardIndex s;
       timedTimer := timedTimer s;
       timedQuestionStartTime := timedQuestionStartTime s |}.

(** [Math.round((Date.now() - timedQuestionStartTime) / 1000)] *)
Definition timeTaken (clock start : Z) : Z :=
  Math_round (jdiv (jsub (inject_Z clock) (inject_Z start)) 1000).

(** The two handlers that end a question return the state and whether they
    have scheduled the end of the feedback pause. *)
Definition handleTimedAnswerSelected (s : AppState) (answer : AnswerOption)
    (clock : Z) (created now : Date) : option (AppState * bool) :=
  if isAnswered s then Some (s, false)
  else
    let timer :=
      match timedTimer s with
      | Some t => Some (Timer.stop t)
      | None => None
      end in
    let timeTaken := timeTaken clock (timedQuestionStartTime s) in
    match array_get (currentQuestions s) (currentQuestionIndex s) with
    | None => None
    | Some question =>
        let isCorrect := checkAnswer question answer in
        Some ({| currentQuestions := currentQuestions s;
                 currentQuestionIndex := currentQuestionIndex s;
                 currentSession :=
                   match currentSession s with
                   | Some session =>
                       Some (updateSession session isCorrect (inject_Z timeTaken))
                   | None => None
                   end;
                 userProgress :=
                   record_answer (userProgress s) question isCorrect created now;
                 isAnswered := true;
                 flashcardIndex := flashcardIndex s;
                 timedTimer := timer;
                 timedQuestionStartTime := timedQuestionStartTime s |},
              true)
    end.

Definition handleTimedTimeout (s : AppState) (created now : Date)
    : option (AppState * bool) :=
  if isAnswered s then Some (s, false)
  else
    match array_get (currentQuestions s) (currentQuestionIndex s) with
    | None => None
    | Some question =>
        Some ({| currentQuestions := currentQuestions s;
                 currentQuestionIndex := currentQuestionIndex s;
                 currentSession :=
                   match currentSession s with
                   | Some session =>
                       Some (updateSession session false
                               (inject_Z TIMED_SECONDS_PER_QUESTION))
                   | None => None
                   end;
                 userProgress :=
                   record_answer (userProgress s) question false created now;
                 isAnswered := true;
                 flashcardIndex := flashcardIndex s;
                 timedTimer := timedTimer s;
                 timedQuestionStartTime := timedQuestionStartTime s |},
              true)
    end.

(** The callback of the feedback pause:
    [currentQuestionIndex++; renderTimedCurrentQuestion()]. *)
Definition feedback_over (clock : Z) (s : AppState) : AppState :=
  renderTimedCurrentQuestion clock
    {| currentQuestions := currentQuestions s;
       currentQuestionIndex := currentQuestionIndex s + 1;
       currentSession := currentSession s;
       userProgress := userProgress s;
       isAnswered := isAnswered s;
       flashcardIndex := flashcardIndex s;
       timedTimer := timedTimer s;
       timedQuestionStartTime := timedQuestionStartTime s |}.

(** A callback of the timer: [onTick] is [updateTimerDisplay], which touches
    the view only; [onComplete] is [handleTimedTimeout]. *)
Definition timer_callback (created now : Date) (r : option (AppState * bool))
    (callback : Timer.Callback) : option (AppState * bool) :=
  match r with
  | None => None
  | Some (s, pause) =>
      match callback with
      | Timer.onTick _ => Some (s, pause)
      | Timer.onComplete =>
          match handleTimedTimeout s created now with
          | Some (s', pause') => Some (s', pause || pause')
          | None => None
          end
      end
  end.

(** The interval of the timer fires: [tick] runs on the timer, and the
    callbacks it makes run on the application. *)
Definition interval_fires (s : AppState) (created now : Date)
    : option (AppState * bool) :=
  match timedTimer s with
  | Some t =>
      if Timer.running t
      then
        let r := Timer.tick t in
        foldl (timer_callback created now)
          (Some ({| currentQuestions := currentQuestions s;
                    currentQuestionIndex := currentQuestionIndex s;
                    currentSession := currentSession s;
                    userProgress := userProgress s;
                    isAnswered := isAnswered s;
                    flashcardIndex := flashcardIndex s;
                    timedTimer := Some r.1;
                    timedQuestionStartTime := timedQuestionStartTime s |},
                 false))
          r.2
      else Some (s, false)
  | None => Some (s, false)
  end.

(** What happens during a timed run: a click on an option, the interval of
    the timer, the end of a feedback pause. *)
Inductive TimedEvent :=
| TimedAnswerSelected (answer : AnswerOption) (clock : Z) (created now : Date)
| IntervalFires (created now : Date)
| FeedbackOver (clock : Z).

Definition schedule (w : World) (r : option (AppState * bool)) : option World :=
  match r with
  | Some (s, true) => Some {| application := s; scheduled := S (scheduled w) |}
  | Some (s, false) => Some {| application := s; scheduled := scheduled w |}
  | None => None
  end.

Definition timed_event (w : World) (e : TimedEvent) : option World :=
  match e with
  | TimedAnswerSelected answer clock created now =>
      schedule w (handleTimedAnswerSelected (application w) answer clock created now)
  | IntervalFires created now =>
      schedule w (interval_fires (application w) created now)
  | FeedbackOver clock =>
      match scheduled w with
      | O => Some w
      | S n => Some {| application := feedback_over clock (application w); scheduled := n |}
      end
  end.

Definition timed_events (w : World) (es : list TimedEvent) : option World :=
  foldl (fun o e => match o with Some w => timed_event w e | None => None end)
    (Some w) es.

(** The three phases of a timed run over [n] questions: a question is open
    and its timer runs; a question has its outcome and the feedback pause
    lasts; the run is over. *)
Inductive TimedPhase (n : Z) (w : World) (outcomes : nat) : Prop :=
| QuestionOpen (r : Z) :
    isAnswered (application w) = false ->
    (currentQuestionIndex (application w) < n)%Z ->
    scheduled w = O ->
    timedTimer (application w) = Some {| Timer.remaining := r; Timer.running := true |} ->
    (1 <= r <= TIMED_SECONDS_PER_QUESTION)%Z ->
    Z.of_nat outcomes = currentQuestionIndex (application w) ->
    TimedPhase n w outcomes
| FeedbackPause (t : Timer.State) :
    isAnswered (application w) = true ->
    (currentQuestionIndex (application w) < n)%Z ->
    scheduled w = 1%nat ->
    timedTimer (application w) = Some t ->
    Timer.running t = false ->
    Z.of_nat outcomes = (currentQuestionIndex (application w) + 1)%Z ->
    TimedPhase n w outcomes
| RunOver :
    isAnswered (application w) = true ->
    currentQuestionIndex (application w) = n ->
    scheduled w = O ->
    timedTimer (application w) = None ->
    Z.of_nat outcomes = n ->
    TimedPhase n w outcomes.

(** The state of a timed run over [questions] that was started at [now]
    with the store [store] and has recorded [recorded] since, with the
    seconds [seconds] passed to [updateSession]. *)
Definition timed_invariant (questions : list Question) (now : Date)
    (store : JsMap string UserProgress) (w : World)
    (recorded : list (Question * bool * (Date * Date))) (seconds : list Q)
    : Prop :=
  currentQuestions (application w) = questions
  /\ length seconds = length recorded
  /\ currentSession (application w)
     = Some (play (createSession Timed now)
               (zip (map (fun r => r.1.2) recorded) seconds))
  /\ userProgress (application w) = record_answers store recorded
  /\ map (fun r => r.1.1) recorded = take (length recorded) questions
  /\ (0 <= currentQuestionIndex (application w))%Z
  /\ TimedPhase (Z.of_nat (length questions)) w (length recorded).

(** The state the module starts with. *)
Definition initial_state : AppState :=
  {| currentQuestions := [];
     currentQuestionIndex := 0;
     currentSession := None;
     userProgress := [];
     isAnswered := false;
     flashcardIndex := 0;
     timedTimer := None;
     timedQuestionStartTime := 0 |}.

(** ** Sample data

    The values the examples, witnesses and counterexamples below use; the
    catalog and the records of [wind_catalog] and [wind_progress] are those
    of the repository's test of the topic breakdown. *)

Definition sample_question (id : string) (t : option string) : Question :=
  {| qid := id; gradeLevel := Grade6_8; question := "Q";
     options := {| option_a := "A"; option_b := "B";
                   option_c := "C"; option_d := "D" |};
     correctAnswer := OptionA; explanation := None; topic := t |}.

Definition unfiltered (count : option Z) : QuizConfig :=
  {| cfg_mode := Quiz; cfg_gradeLevel := None; cfg_topic := None;
     cfg_questionCount := count |}.

(** A timed run of [n] correct answers, 5 seconds each. *)
Fixpoint timed_run (n : nat) : QuizSession :=
  match n with
  | O => createSession Timed 0
  | S n' => updateSession (timed_run n') true 5
  end.

Definition five_correct : UserProgress :=
  updateProgress (updateProgress (updateProgress (updateProgress
    (updateProgress (createProgress "q1" 0%Z) true 1%Z) true 2%Z) true 3%Z)
    false 4%Z) true 5%Z.

Definition one_session : Imp.world :=
  {| Imp.heap := {[ 1%positive := Imp.ObjSession (createSession Quiz 0%Z) ]};
     Imp.clock := 0%Z |}.

Definition wind_catalog : list Question :=
  [sample_question "q1" (Some "wind"); sample_question "q2" (Some "solar");
   sample_question "q3" (Some "wind")].

Definition wind_progress : list UserProgress :=
  [ {| questionId := "q1"; attempts := 5; correctCount := 4;
       incorrectCount := 1; lastAttempted := 0; mastery := Mastered |};
    {| questionId := "q3"; attempts := 5; correctCount := 3;
       incorrectCount := 2; lastAttempted := 0; mastery := Learning |} ].

Definition two_topics : ProgressStats :=
  {| totalQuestions := 10; newQuestions := 2; learningQuestions := 3;
     masteredQuestions := 5; overallAccuracy := 3 # 4;
     topicBreakdown :=
       [("wind"%string, {| correct := 8; total := 10 |});
        ("solar"%string, {| correct := 3; total := 10 |})] |}.

(** Two topics with 2^27 attempts and more: the accuracy of [A],
    (2^27 - 1) / 2^27, is below that of [B], 2^27 / (2^27 + 1), by less than
    2^-54. *)
Definition close_topics : ProgressStats :=
  {| totalQuestions := 2; newQuestions := 0; learningQuestions := 0;
     masteredQuestions := 2; overallAccuracy := 1;
     topicBreakdown :=
       [("B"%string, {| correct := 134217728; total := 134217729 |});
        ("A"%string, {| correct := 134217727; total := 134217728 |})] |}.

(* ===================================================================== *)
(** * Part II: lemmas and theorems *)
(* ===================================================================== *)

(** ** Binary64 rounding *)

Lemma pow2_pos k : 0 < pow2 k.
Proof. apply Qpower_0_lt. reflexivity. Qed.

Lemma pow2_add a b : pow2 (a + b) == pow2 a * pow2 b.
Proof. apply Qpower_plus. discriminate. Qed.

Lemma pow2_le a b : (a <= b)%Z -> pow2 a <= pow2 b.
Proof. intros H. apply Qpower_le_compat_l; [exact H | discriminate]. Qed.

Lemma pow2_lt a b : (a < b)%Z -> pow2 a < pow2 b.
Proof. intros H. apply Qpower_lt_compat_l; [exact H | reflexivity]. Qed.

Lemma pow2_lt_inv a b : pow2 a < pow2 b -> (a < b)%Z.
Proof.
  intros H. destruct (Z_lt_le_dec a b) as [|Hle]; [assumption|].
  apply pow2_le in Hle. lra.
Qed.

Lemma pow2_inject k : (0 <= k)%Z -> pow2 k == inject_Z (2 ^ k).
Proof. intros H. unfold pow2. rewrite Zpower_Qpower by exact H. reflexivity. Qed.

Lemma pow2_sub a b : pow2 (a - b) == pow2 a / pow2 b.
Proof.
  unfold pow2. rewrite Qpower_minus by discriminate. reflexivity.
Qed.

Lemma pow2_succ a : pow2 (a + 1) == 2 * pow2 a.
Proof. rewrite pow2_add. change (pow2 1) with 2. ring. Qed.

Lemma Qabs_num_den x : Qabs x == inject_Z (Z.abs (Qnum x)) / inject_Z (Z.pos (Qden x)).
Proof. destruct x as [n d]. simpl. rewrite <- Qmake_Qdiv. reflexivity. Qed.

Lemma Qnum_nonzero x : ~ x == 0 -> (0 < Z.abs (Qnum x))%Z.
Proof.
  intros H. destruct x as [n d]. simpl.
  assert (n <> 0%Z). { intros ->. apply H. reflexivity. }
  lia.
Qed.

Lemma mag_spec x : ~ x == 0 -> pow2 (mag x) <= Qabs x /\ Qabs x < pow2 (mag x + 1).
Proof.
  intros Hx. unfold mag.
  set (n := Z.abs (Qnum x)). set (d := Z.pos (Qden x)).
  set (k := (Z.log2 n - Z.log2 d)%Z).
  assert (Hn : (0 < n)%Z) by (apply Qnum_nonzero; exact Hx).
  assert (Hd : (0 < d)%Z) by (unfold d; lia).
  destruct (Z.log2_spec n Hn) as [Hn1 Hn2].
  destruct (Z.log2_spec d Hd) as [Hd1 Hd2].
  pose proof (Z.log2_nonneg n) as Ha. pose proof (Z.log2_nonneg d) as Hb.
  assert (Habs : Qabs x == inject_Z n / inject_Z d) by apply Qabs_num_den.
  assert (HnQ1 : pow2 (Z.log2 n) <= inject_Z n).
  { rewrite pow2_inject by lia. rewrite <- Zle_Qle. exact Hn1. }
  assert (HnQ2 : inject_Z n < pow2 (Z.log2 n + 1)).
  { rewrite pow2_inject by lia. rewrite <- Zlt_Qlt. rewrite <- Z.add_1_r in Hn2. exact Hn2. }
  assert (HdQ1 : pow2 (Z.log2 d) <= inject_Z d).
  { rewrite pow2_inject by lia. rewrite <- Zle_Qle. exact Hd1. }
  assert (HdQ2 : inject_Z d < pow2 (Z.log2 d + 1)).
  { rewrite pow2_inject by lia. rewrite <- Zlt_Qlt. rewrite <- Z.add_1_r in Hd2. exact Hd2. }
  assert (HdQ : 0 < inject_Z d) by (change 0 with (inject_Z 0); rewrite <- Zlt_Qlt; lia).
  pose proof (pow2_pos (Z.log2 n)) as Hpa. pose proof (pow2_pos (Z.log2 d)) as Hpb.
  assert (Hup : Qabs x < pow2 (k + 1)).
  { rewrite Habs. unfold k.
    replace (Z.log2 n - Z.log2 d + 1)%Z with ((Z.log2 n + 1) - Z.log2 d)%Z by lia.
    rewrite pow2_sub. apply Qlt_shift_div_r; [exact HdQ|].
    assert (E : pow2 (Z.log2 n + 1) / pow2 (Z.log2 d) * inject_Z d
                == pow2 (Z.log2 n + 1) * (inject_Z d / pow2 (Z.log2 d))) by (field; lra).
    rewrite E.
    assert (1 <= inject_Z d / pow2 (Z.log2 d)) by (apply Qle_shift_div_l; lra).
    pose proof (pow2_pos (Z.log2 n + 1)). nra. }
  assert (Hlo : pow2 (k - 1) <= Qabs x).
  { rewrite Habs. unfold k.
    replace (Z.log2 n - Z.log2 d - 1)%Z with (Z.log2 n - (Z.log2 d + 1))%Z by lia.
    rewrite pow2_sub. apply Qle_shift_div_l; [exact HdQ|].
    pose proof (pow2_pos (Z.log2 d + 1)) as Hpb1.
    assert (E : pow2 (Z.log2 n) / pow2 (Z.log2 d + 1) * inject_Z d
                == pow2 (Z.log2 n) * (inject_Z d / pow2 (Z.log2 d + 1))) by (field; lra).
    rewrite E.
    assert (inject_Z d / pow2 (Z.log2 d + 1) <= 1) by (apply Qle_shift_div_r; lra).
    nra. }
  destruct (Qle_bool (pow2 k) (Qabs x)) eqn:Hc.
  - apply Qle_bool_iff in Hc. split; assumption.
  - assert (~ pow2 k <= Qabs x) by (rewrite <- Qle_bool_iff; congruence).
    replace (k - 1 + 1)%Z with k by lia. split; [exact Hlo | lra].
Qed.

Lemma mag_unique x k : pow2 k <= Qabs x -> Qabs x < pow2 (k + 1) -> mag x = k.
Proof.
  intros H1 H2.
  assert (Hx : ~ x == 0).
  { intros E. rewrite E in H1. pose proof (pow2_pos k). change (Qabs 0) with 0 in H1. lra. }
  destruct (mag_spec x Hx) as [M1 M2].
  assert (pow2 k < pow2 (mag x + 1)) by lra.
  assert (pow2 (mag x) < pow2 (k + 1)) by lra.
  apply pow2_lt_inv in H. apply pow2_lt_inv in H0. lia.
Qed.

Lemma mag_mono x y : 0 < x -> x <= y -> (mag x <= mag y)%Z.
Proof.
  intros Hx Hxy.
  destruct (mag_spec x) as [X1 X2]; [lra|].
  destruct (mag_spec y) as [Y1 Y2]; [lra|].
  rewrite Qabs_pos in X1, X2 by lra. rewrite Qabs_pos in Y1, Y2 by lra.
  assert (pow2 (mag x) < pow2 (mag y + 1)) by lra.
  apply pow2_lt_inv in H. lia.
Qed.

Ltac qcmp :=
  repeat match goal with
  | H : Qcompare _ _ = Eq |- _ => apply Qeq_alt in H
  | H : Qcompare _ _ = Lt |- _ => apply Qlt_alt in H
  | H : Qcompare _ _ = Gt |- _ => apply Qgt_alt in H
  end.

Lemma rne_floor x : (Qfloor x <= rne x <= Qfloor x + 1)%Z.
Proof.
  unfold rne. destruct (Qcompare _ _); [destruct (Z.even _)| |]; lia.
Qed.

Lemma rne_near x : x - (1 # 2) <= inject_Z (rne x) /\ inject_Z (rne x) <= x + (1 # 2).
Proof.
  pose proof (Qfloor_le x) as H1. pose proof (Qlt_floor x) as H2.
  rewrite inject_Z_plus in H2. change (inject_Z 1) with 1 in H2.
  unfold rne. destruct (Qcompare (x - inject_Z (Qfloor x)) (1 # 2)) eqn:E.
  - qcmp. destruct (Z.even _);
      [|rewrite inject_Z_plus; change (inject_Z 1) with 1]; lra.
  - qcmp. lra.
  - qcmp. rewrite inject_Z_plus; change (inject_Z 1) with 1. lra.
Qed.

Lemma rne_Z z : rne (inject_Z z) = z.
Proof.
  destruct (rne_near (inject_Z z)) as [H1 H2].
  assert (A : inject_Z (z + -1) < inject_Z (rne (inject_Z z))).
  { rewrite inject_Z_plus. change (inject_Z (-1)) with (-1). lra. }
  assert (B : inject_Z (rne (inject_Z z)) < inject_Z (z + 1)).
  { rewrite inject_Z_plus. change (inject_Z 1) with 1. lra. }
  rewrite <- Zlt_Qlt in A, B. lia.
Qed.

Lemma rne_mono x y : x <= y -> (rne x <= rne y)%Z.
Proof.
  intros Hxy. pose proof (Qfloor_resp_le x y Hxy) as Hf.
  destruct (Z.eq_dec (Qfloor x) (Qfloor y)) as [Ef|Nf].
  - unfold rne. rewrite Ef.
    destruct (Qcompare (x - inject_Z (Qfloor y)) (1 # 2)) eqn:Ex;
    destruct (Qcompare (y - inject_Z (Qfloor y)) (1 # 2)) eqn:Ey;
    try (destruct (Z.even (Qfloor y))); try lia; qcmp; exfalso; lra.
  - pose proof (rne_floor x). pose proof (rne_floor y). lia.
Qed.

Lemma rne_le_half x n : x < inject_Z n + (1 # 2) -> (rne x <= n)%Z.
Proof.
  intros H. destruct (rne_near x) as [_ H2].
  assert (A : inject_Z (rne x) < inject_Z (n + 1)).
  { rewrite inject_Z_plus. change (inject_Z 1) with 1. lra. }
  rewrite <- Zlt_Qlt in A. lia.
Qed.

Lemma rne_nonneg x : 0 <= x -> (0 <= rne x)%Z.
Proof. intros H. change 0%Z with (rne (inject_Z 0)). apply rne_mono. exact H. Qed.

Lemma fexp_ge_emin x : (emin <= fexp x)%Z.
Proof. unfold fexp. lia. Qed.

Lemma fexp_mono x y : 0 < x -> x <= y -> (fexp x <= fexp y)%Z.
Proof. intros Hx Hxy. pose proof (mag_mono x y Hx Hxy). unfold fexp. lia. Qed.

Lemma pos_mag_bounds x : 0 < x -> pow2 (mag x) <= x /\ x < pow2 (mag x + 1).
Proof.
  intros Hx. destruct (mag_spec x) as [H1 H2]; [lra|].
  rewrite Qabs_pos in H1, H2 by lra. split; assumption.
Qed.

Lemma scaled_lt x e k : x < pow2 (e + k) -> x / pow2 e < pow2 k.
Proof.
  intros H. apply Qlt_shift_div_r; [apply pow2_pos|].
  rewrite <- pow2_add. replace (k + e)%Z with (e + k)%Z by lia. exact H.
Qed.

Lemma scaled_le x e k : pow2 (e + k) <= x -> pow2 k <= x / pow2 e.
Proof.
  intros H. apply Qle_shift_div_l; [apply pow2_pos|].
  rewrite <- pow2_add. replace (k + e)%Z with (e + k)%Z by lia. exact H.
Qed.

Lemma fl_abs_upper x : 0 < x -> fl_abs x <= pow2 (fexp x + 53).
Proof.
  intros Hx. unfold fl_abs. set (e := fexp x).
  destruct (pos_mag_bounds x Hx) as [_ Hup].
  assert (Hx53 : x < pow2 (e + 53)).
  { eapply Qlt_le_trans; [exact Hup|]. apply pow2_le. unfold e, fexp. lia. }
  apply scaled_lt in Hx53.
  assert (Hr : (rne (x / pow2 e) <= 2 ^ 53)%Z).
  { rewrite <- (rne_Z (2 ^ 53)). apply rne_mono.
    rewrite <- pow2_inject by lia. lra. }
  rewrite Zle_Qle in Hr. rewrite <- pow2_inject in Hr by lia.
  rewrite (pow2_add e 53). pose proof (pow2_pos e). nra.
Qed.

Lemma fl_abs_lower x : 0 < x -> (emin <= mag x - 52)%Z -> pow2 (mag x) <= fl_abs x.
Proof.
  intros Hx Hn. unfold fl_abs.
  assert (He : fexp x = (mag x - 52)%Z) by (unfold fexp; lia).
  rewrite He. set (e := (mag x - 52)%Z).
  destruct (pos_mag_bounds x Hx) as [Hlo _].
  replace (mag x) with (e + 52)%Z in Hlo by (unfold e; lia).
  apply scaled_le in Hlo.
  assert (Hr : (2 ^ 52 <= rne (x / pow2 e))%Z).
  { rewrite <- (rne_Z (2 ^ 52)) at 1. apply rne_mono.
    rewrite <- pow2_inject by lia. exact Hlo. }
  rewrite Zle_Qle in Hr. rewrite <- pow2_inject in Hr by lia.
  replace (mag x) with (e + 52)%Z by (unfold e; lia).
  rewrite (pow2_add e 52). pose proof (pow2_pos e). nra.
Qed.

Lemma fl_abs_nonneg x : 0 < x -> 0 <= fl_abs x.
Proof.
  intros Hx. unfold fl_abs.
  assert (0 <= x / pow2 (fexp x)).
  { apply Qle_shift_div_l; [apply pow2_pos|]. lra. }
  apply rne_nonneg in H. rewrite Zle_Qle in H.
  pose proof (pow2_pos (fexp x)). change (inject_Z 0) with 0 in H. nra.
Qed.

Lemma fl_abs_mono x y : 0 < x -> x <= y -> fl_abs x <= fl_abs y.
Proof.
  intros Hx Hxy. pose proof (fexp_mono x y Hx Hxy) as He.
  destruct (Z.eq_dec (fexp x) (fexp y)) as [Ee|Ne].
  - unfold fl_abs. rewrite Ee. pose proof (pow2_pos (fexp y)) as Hp.
    assert (x / pow2 (fexp y) <= y / pow2 (fexp y)).
    { apply Qle_shift_div_l; [exact Hp|].
      assert (E : x / pow2 (fexp y) * pow2 (fexp y) == x) by (field; lra).
      rewrite E. exact Hxy. }
    apply rne_mono in H. rewrite Zle_Qle in H. nra.
  - assert (Hy : (emin <= mag y - 52)%Z).
    { pose proof (fexp_ge_emin x). unfold fexp in *. lia. }
    eapply Qle_trans; [apply fl_abs_upper; exact Hx|].
    eapply Qle_trans; [|apply fl_abs_lower; [lra | exact Hy]].
    apply pow2_le. unfold fexp in *. lia.
Qed.

Lemma fl_0 : fl 0 = 0.
Proof. reflexivity. Qed.

Lemma fl_pos x : 0 < x -> fl x = fl_abs x.
Proof.
  intros H. assert (E : Qcompare x 0 = Gt) by (apply Qgt_alt; exact H).
  unfold fl. rewrite E. reflexivity.
Qed.

Lemma fl_neg x : x < 0 -> fl x = - fl_abs (- x).
Proof.
  intros H. assert (E : Qcompare x 0 = Lt) by (apply Qlt_alt; exact H).
  unfold fl. rewrite E. reflexivity.
Qed.

Lemma fl_zero x : x == 0 -> fl x = 0.
Proof.
  intros H. assert (E : Qcompare x 0 = Eq) by (apply Qeq_alt; exact H).
  unfold fl. rewrite E. reflexivity.
Qed.

Lemma fl_mono x y : x <= y -> fl x <= fl y.
Proof.
  intros Hxy.
  destruct (Qcompare x 0) eqn:Ex; destruct (Qcompare y 0) eqn:Ey; qcmp;
    try (exfalso; lra).
  - rewrite (fl_zero x), (fl_zero y) by assumption. lra.
  - rewrite (fl_zero x), (fl_pos y) by assumption. apply fl_abs_nonneg. exact Ey.
  - rewrite (fl_neg x), (fl_zero y) by assumption.
    assert (0 <= fl_abs (- x)) by (apply fl_abs_nonneg; lra). lra.
  - rewrite (fl_neg x), (fl_neg y) by assumption.
    assert (fl_abs (- y) <= fl_abs (- x)) by (apply fl_abs_mono; lra). lra.
  - rewrite (fl_neg x), (fl_pos y) by assumption.
    assert (0 <= fl_abs (- x)) by (apply fl_abs_nonneg; lra).
    assert (0 <= fl_abs y) by (apply fl_abs_nonneg; lra). lra.
  - rewrite (fl_pos x), (fl_pos y) by assumption. apply fl_abs_mono; assumption.
Qed.

#[export] Instance fl_proper : Proper (Qeq ==> Qeq) fl.
Proof.
  intros x y E. apply Qle_antisym; apply fl_mono; rewrite E; apply Qle_refl.
Qed.

#[export] Instance rne_proper : Proper (Qeq ==> eq) rne.
Proof.
  intros x y E.
  assert (rne x <= rne y)%Z by (apply rne_mono; rewrite E; apply Qle_refl).
  assert (rne y <= rne x)%Z by (apply rne_mono; rewrite E; apply Qle_refl).
  lia.
Qed.

Lemma pow2_rescale m e f :
  (f <= e)%Z -> inject_Z m * pow2 e == inject_Z (m * 2 ^ (e - f)) * pow2 f.
Proof.
  intros H. rewrite inject_Z_mult, <- pow2_inject by lia.
  rewrite <- Qmult_assoc, <- pow2_add.
  replace (e - f + f)%Z with e by lia. reflexivity.
Qed.

Lemma inject_Z_pos z : (0 < z)%Z -> 0 < inject_Z z.
Proof. intros H. change 0 with (inject_Z 0). rewrite <- Zlt_Qlt. exact H. Qed.

(** A number with at most 53 significant bits is a binary64 value. *)
Lemma fl_abs_fix m e :
  (0 < m < 2 ^ 53)%Z -> (emin <= e)%Z ->
  fl_abs (inject_Z m * pow2 e) == inject_Z m * pow2 e.
Proof.
  intros Hm He. set (x := inject_Z m * pow2 e).
  pose proof (pow2_pos e) as Hp. pose proof (inject_Z_pos m (proj1 Hm)) as Hmq.
  assert (Hx : 0 < x) by (unfold x; nra).
  assert (Hup : x < pow2 (e + 53)).
  { unfold x. rewrite pow2_add, (pow2_inject 53) by lia.
    assert (inject_Z m < inject_Z (2 ^ 53)) by (rewrite <- Zlt_Qlt; lia). nra. }
  destruct (pos_mag_bounds x Hx) as [Hlo _].
  assert (Hmag : (mag x < e + 53)%Z) by (apply pow2_lt_inv; lra).
  assert (Hf : (fexp x <= e)%Z) by (unfold fexp; lia).
  unfold fl_abs.
  pose proof (pow2_rescale m e (fexp x) Hf) as R. fold x in R.
  set (f := fexp x) in *. pose proof (pow2_pos f) as Hpf.
  assert (E : x / pow2 f == inject_Z (m * 2 ^ (e - f))).
  { rewrite R. field. lra. }
  rewrite E, rne_Z. symmetry. exact R.
Qed.

Lemma fl_fix m e :
  (0 < m < 2 ^ 53)%Z -> (emin <= e)%Z ->
  fl (inject_Z m * pow2 e) == inject_Z m * pow2 e.
Proof.
  intros Hm He. rewrite fl_pos; [apply fl_abs_fix; assumption|].
  pose proof (pow2_pos e). pose proof (inject_Z_pos m (proj1 Hm)). nra.
Qed.

Lemma fl_opp x : fl (- x) == - fl x.
Proof.
  destruct (Qcompare x 0) eqn:E; qcmp.
  - rewrite (fl_zero x), (fl_zero (- x)) by lra. reflexivity.
  - rewrite (fl_neg x), (fl_pos (- x)) by lra. ring.
  - rewrite (fl_pos x), (fl_neg (- x)) by lra.
    rewrite <- !fl_pos by lra.
    assert (Ex : - - x == x) by ring. rewrite Ex. reflexivity.
Qed.

(** The result of a rounding is at most half a unit in the last place away
    from its argument. *)
Lemma fl_abs_error x :
  0 < x -> Qabs (fl_abs x - x) <= (1 # 2) * pow2 (fexp x).
Proof.
  intros Hx. unfold fl_abs. set (e := fexp x).
  pose proof (pow2_pos e) as Hp.
  destruct (rne_near (x / pow2 e)) as [H1 H2].
  assert (E : x == x / pow2 e * pow2 e) by (field; lra).
  apply Qabs_Qle_condition. split.
  - rewrite E at 2. nra.
  - rewrite E at 2. nra.
Qed.

Lemma fl_error x : Qabs (fl x - x) <= (1 # 2) * pow2 (fexp (Qabs x)).
Proof.
  destruct (Qcompare x 0) eqn:E; qcmp.
  - rewrite (fl_zero x) by exact E.
    assert (Ez : 0 - x == 0) by lra. rewrite Ez.
    pose proof (pow2_pos (fexp (Qabs x))). change (Qabs 0) with 0. lra.
  - rewrite (fl_neg x) by exact E.
    assert (Ea : Qabs x == - x) by (apply Qabs_neg; lra).
    assert (Ef : fexp (Qabs x) = fexp (- x)).
    { unfold fexp. f_equal. f_equal.
      destruct (pos_mag_bounds (- x)) as [M1 M2]; [lra|].
      apply mag_unique; rewrite (Qabs_pos (Qabs x)), Ea
        by apply Qabs_nonneg; assumption. }
    rewrite Ef.
    assert (Ed : - fl_abs (- x) - x == - (fl_abs (- x) - - x)) by ring.
    rewrite Ed, Qabs_opp. apply fl_abs_error. lra.
  - rewrite (fl_pos x) by exact E.
    assert (Ea : Qabs x == x) by (apply Qabs_pos; lra).
    assert (Ef : fexp (Qabs x) = fexp x).
    { unfold fexp. f_equal. f_equal.
      destruct (pos_mag_bounds x) as [M1 M2]; [lra|].
      apply mag_unique; rewrite (Qabs_pos (Qabs x)), Ea
        by apply Qabs_nonneg; assumption. }
    rewrite Ef. apply fl_abs_error. exact E.
Qed.

Lemma fl_abs_mantissa x :
  0 < x ->
  exists m, (0 <= m <= 2 ^ 53)%Z /\ fl_abs x == inject_Z m * pow2 (fexp x).
Proof.
  intros Hx. exists (rne (x / pow2 (fexp x))). split; [|reflexivity].
  set (e := fexp x). pose proof (pow2_pos e) as Hp. split.
  - apply rne_nonneg. apply Qle_shift_div_l; [exact Hp | lra].
  - destruct (pos_mag_bounds x Hx) as [_ Hup].
    assert (Hx53 : x < pow2 (e + 53)).
    { eapply Qlt_le_trans; [exact Hup|]. apply pow2_le. unfold e, fexp. lia. }
    apply scaled_lt in Hx53.
    rewrite <- (rne_Z (2 ^ 53)). apply rne_mono.
    rewrite <- pow2_inject by lia. lra.
Qed.

(** The result of a rounding is a binary64 value: rounding it again changes
    nothing. *)
Lemma fl_idempotent x : fl (fl x) == fl x.
Proof.
  assert (Hpos : forall y, 0 < y -> fl (fl_abs y) == fl_abs y).
  { intros y Hy. destruct (fl_abs_mantissa y Hy) as (m & [Hm0 Hm1] & Em).
    pose proof (fexp_ge_emin y) as He. rewrite Em.
    destruct (Z.eq_dec m 0%Z) as [->|Hne0].
    { assert (Ez : inject_Z 0 * pow2 (fexp y) == 0) by ring.
      rewrite Ez. reflexivity. }
    destruct (Z.eq_dec m (2 ^ 53)%Z) as [->|Hne1].
    - assert (Ez : inject_Z (2 ^ 53) * pow2 (fexp y)
                   == inject_Z (2 ^ 52) * pow2 (fexp y + 1)).
      { rewrite pow2_succ. change (inject_Z (2 ^ 53)) with 9007199254740992.
        change (inject_Z (2 ^ 52)) with 4503599627370496. ring. }
      rewrite Ez. apply fl_fix; lia.
    - apply fl_fix; lia. }
  destruct (Qcompare x 0) eqn:E; qcmp.
  - rewrite (fl_zero x) by exact E. reflexivity.
  - rewrite (fl_neg x) by exact E. rewrite fl_opp, Hpos by lra. reflexivity.
  - rewrite (fl_pos x) by exact E. apply Hpos. exact E.
Qed.

(** Rounding is to the nearest value: below the midpoint of [m * 2^e] and
    its successor, the result is at most [m * 2^e]. *)
Lemma fl_le_mid x m e :
  (2 ^ 52 <= m < 2 ^ 53)%Z -> (emin <= e)%Z ->
  x < (inject_Z m + (1 # 2)) * pow2 e ->
  fl x <= inject_Z m * pow2 e.
Proof.
  intros Hm He Hx. pose proof (pow2_pos e) as Hp.
  assert (Hm1 : inject_Z (2 ^ 52) <= inject_Z m) by (rewrite <- Zle_Qle; lia).
  assert (Hm2 : inject_Z m + 1 <= inject_Z (2 ^ 53)).
  { change 1 with (inject_Z 1). rewrite <- inject_Z_plus, <- Zle_Qle. lia. }
  rewrite <- pow2_inject in Hm1, Hm2 by lia.
  destruct (Qlt_le_dec (inject_Z m * pow2 e) x) as [Hgt|Hle].
  - assert (Hlo : pow2 (e + 52) <= x) by (rewrite pow2_add; nra).
    assert (Hup : x < pow2 (e + 53)) by (rewrite pow2_add; nra).
    pose proof (pow2_pos (e + 52)) as Hp52.
    assert (Hx0 : 0 < x) by lra.
    assert (Hmag : mag x = (e + 52)%Z).
    { apply mag_unique; rewrite Qabs_pos by lra.
      - exact Hlo.
      - replace (e + 52 + 1)%Z with (e + 53)%Z by lia. exact Hup. }
    assert (Hf : fexp x = e) by (unfold fexp; lia).
    rewrite fl_pos by exact Hx0. unfold fl_abs. rewrite Hf.
    assert (Hs : x / pow2 e < inject_Z m + (1 # 2)).
    { apply Qlt_shift_div_r; assumption. }
    apply rne_le_half in Hs. rewrite Zle_Qle in Hs. nra.
  - eapply Qle_trans; [apply fl_mono; exact Hle|].
    rewrite fl_fix by lia. apply Qle_refl.
Qed.

Lemma fl_abs_on_grid x : exists k : Z, fl_abs x == inject_Z k * pow2 emin.
Proof.
  unfold fl_abs. eexists. apply pow2_rescale. apply fexp_ge_emin.
Qed.

Lemma fl_on_grid x : on_grid (fl x).
Proof.
  unfold fl, on_grid. destruct (Qcompare x 0).
  - exists 0%Z. ring.
  - destruct (fl_abs_on_grid (- x)) as [k Hk]. exists (- k)%Z.
    rewrite Hk, inject_Z_opp. ring.
  - apply fl_abs_on_grid.
Qed.

Lemma on_grid_0 : on_grid 0.
Proof. exists 0%Z. ring. Qed.

Lemma on_grid_sub x y : on_grid x -> on_grid y -> on_grid (x - y).
Proof.
  intros [k Hk] [j Hj]. exists (k - j)%Z.
  rewrite Hk, Hj. unfold Z.sub. rewrite inject_Z_plus, inject_Z_opp. ring.
Qed.

Lemma fl_pos_on_grid x : on_grid x -> 0 < x -> 0 < fl x.
Proof.
  intros [k Hk] Hx. pose proof (pow2_pos emin) as Hp.
  assert (Hk1 : (1 <= k)%Z).
  { destruct (Z_lt_le_dec 0 k) as [|Hle]; [lia|].
    rewrite Zle_Qle in Hle. change (inject_Z 0) with 0 in Hle. nra. }
  rewrite Zle_Qle in Hk1. change (inject_Z 1) with 1 in Hk1.
  assert (Hge : pow2 emin <= x) by nra.
  apply fl_mono in Hge.
  assert (E : fl (pow2 emin) == pow2 emin).
  { rewrite <- (Qmult_1_l (pow2 emin)). change 1 with (inject_Z 1).
    apply fl_fix; [lia | reflexivity]. }
  lra.
Qed.

(** The sign of a rounded difference of two binary64 values is the sign of
    the difference: a comparator [a - b] orders as [<] does. *)
Lemma jsub_pos_iff a b : on_grid a -> on_grid b -> (0 < jsub a b <-> b < a).
Proof.
  intros Ha Hb. unfold jsub. split.
  - intros H. destruct (Qlt_le_dec b a) as [|Hle]; [assumption|].
    assert (a - b <= 0) by lra. apply fl_mono in H0. rewrite fl_0 in H0. lra.
  - intros H. apply fl_pos_on_grid; [apply on_grid_sub; assumption | lra].
Qed.

(** ** [Math.max], [Math.round] *)

Lemma Math_max_spec a b : Math_max a b == Qmax a b.
Proof.
  unfold Math_max. destruct (Qle_bool a b) eqn:E.
  - apply Qle_bool_iff in E. symmetry. apply Q.max_r. exact E.
  - assert (~ a <= b) by (rewrite <- Qle_bool_iff; congruence).
    symmetry. apply Q.max_l. lra.
Qed.

Lemma Math_max_mono a x y : x <= y -> Math_max a x <= Math_max a y.
Proof.
  intros H. rewrite !Math_max_spec. apply Q.max_le_compat_l. exact H.
Qed.

Lemma Math_round_mono x y : x <= y -> (Math_round x <= Math_round y)%Z.
Proof. intros H. apply Qfloor_resp_le. lra. Qed.

Lemma jdiv_mono_l x y d : 0 < d -> x <= y -> jdiv x d <= jdiv y d.
Proof.
  intros Hd H. apply fl_mono. apply Qle_shift_div_l; [exact Hd|].
  assert (E : x / d * d == x) by (field; lra). rewrite E. exact H.
Qed.

(** ** calculateScore *)

(** The kernel-independent IEEE-754 specification of the Standard Library
    computes the same product as [fl] does. *)
Lemma percent_23_of_40_ieee :
  SF2Q (b64_mul (b64_div (b64_of_Z 23) (b64_of_Z 40)) (b64_of_Z 100))
  == jmul (jdiv 23 40) 100.
Proof. vm_compute. reflexivity. Qed.

Lemma percent_23_of_40 :
  jmul (jdiv 23 40) 100 == 8092405580431359 # 140737488355328.
Proof. vm_compute. reflexivity. Qed.

(** On every pair of counters up to 64 the model of the arithmetic agrees
    with the IEEE-754 specification. *)
Lemma fl_agrees_with_ieee : forallb ieee_agrees (count_pairs 64) = true.
Proof. vm_compute. reflexivity. Qed.

(** C1 (the code departs from the claim): with 23 correct answers out of 40
    the percentage is the midpoint 57.5, which the claim rounds up to 58.
    The code divides first: 23/40 is not a binary64 value, the product with
    100 is 57.499999999999993, and [Math.round] returns 57.  Evaluated in
    binary64 in the order the rule is written, 100 * 23 / 40 is exactly 57.5
    and rounds to 58 as well. *)
Theorem calculateScore_23_of_40 :
  forall e,
    calculateScore 23 40 e Quiz = 57%Z
    /\ score_rule 23 40 e Quiz = 58%Z
    /\ base_score_as_written 23 40 = 58%Z.
Proof. intros e. repeat split; vm_compute; reflexivity. Qed.

(** Up to 100 questions the code departs from the rule in two places only,
    both midpoints. *)
Lemma calculateScore_departures :
  List.filter (fun ct => negb (calculateScore ct.1 ct.2 0 Quiz
                               =? score_rule ct.1 ct.2 0 Quiz)%Z)
    (count_pairs 100)
  = [(23%Z, 40%Z); (46%Z, 80%Z)].
Proof. vm_compute. reflexivity. Qed.

Lemma fl_error_below x k :
  Qabs x <= pow2 k -> (emin <= k - 52)%Z ->
  Qabs (fl x - x) <= pow2 (k - 53).
Proof.
  intros Hx Hk. destruct (Qeq_dec x 0) as [E|N].
  - rewrite (fl_zero x) by exact E.
    assert (Ez : 0 - x == 0) by lra. rewrite Ez. change (Qabs 0) with 0.
    apply Qlt_le_weak, pow2_pos.
  - eapply Qle_trans; [apply fl_error|].
    assert (Ha : 0 < Qabs x).
    { destruct (Qlt_le_dec x 0) as [Hneg|Hnn].
      - rewrite Qabs_neg by lra. lra.
      - rewrite Qabs_pos by exact Hnn. lra. }
    destruct (pos_mag_bounds (Qabs x) Ha) as [M1 _].
    assert (Hm : (mag (Qabs x) <= k)%Z).
    { assert (pow2 (mag (Qabs x)) < pow2 (k + 1)).
      { eapply Qle_lt_trans; [exact M1|]. eapply Qle_lt_trans; [exact Hx|].
        apply pow2_lt. lia. }
      apply pow2_lt_inv in H. lia. }
    assert (He : (fexp (Qabs x) <= k - 52)%Z) by (unfold fexp; lia).
    apply pow2_le in He.
    assert (E2 : pow2 (k - 52) == 2 * pow2 (k - 53)).
    { rewrite <- pow2_succ. replace (k - 53 + 1)%Z with (k - 52)%Z by lia.
      reflexivity. }
    lra.
Qed.

Lemma Qfloor_unique y k :
  inject_Z k <= y -> y < inject_Z k + 1 -> Qfloor y = k.
Proof.
  intros H1 H2. pose proof (Qfloor_le y) as F1. pose proof (Qlt_floor y) as F2.
  rewrite inject_Z_plus in F2. change (inject_Z 1) with 1 in F2.
  assert (A : inject_Z k < inject_Z (Qfloor y + 1)).
  { rewrite inject_Z_plus. change (inject_Z 1) with 1. lra. }
  assert (B : inject_Z (Qfloor y) < inject_Z (k + 1)).
  { rewrite inject_Z_plus. change (inject_Z 1) with 1. lra. }
  rewrite <- Zlt_Qlt in A, B. lia.
Qed.

(** Away from the midpoints the code does compute the rule: for up to 2^40
    questions, of which at most all are answered correctly, the score of the
    untimed modes is [round(100 * c / t)] whenever 100 * c / t is not an
    integer plus one half. *)
Lemma calculateScore_off_midpoint c t e m :
  m <> Timed -> (0 <= c <= t)%Z -> (0 < t <= 2 ^ 40)%Z ->
  ((200 * c) mod (2 * t) <> t)%Z ->
  calculateScore c t e m = score_rule c t e m.
Proof.
  intros Hm Hc Ht Hmid.
  assert (Heq : calculateScore c t e m
                = Math_round (jmul (jdiv (inject_Z c) (inject_Z t)) 100)
                /\ score_rule c t e m
                   = round_half_up (100 * inject_Z c / inject_Z t)).
  { destruct m; try contradiction; split; reflexivity. }
  destruct Heq as [-> ->]. unfold Math_round, round_half_up, jmul, jdiv.
  set (q := inject_Z c / inject_Z t).
  assert (Htq : 0 < inject_Z t) by (apply inject_Z_pos; lia).
  assert (Hcq : 0 <= inject_Z c) by (change 0 with (inject_Z 0); rewrite <- Zle_Qle; lia).
  assert (Hct : inject_Z c <= inject_Z t) by (rewrite <- Zle_Qle; lia).
  assert (Hq0 : 0 <= q) by (apply Qle_shift_div_l; lra).
  assert (Hq1 : q <= 1) by (apply Qle_shift_div_r; lra).
  (* the two roundings *)
  assert (E1 : Qabs (fl q - q) <= pow2 (-53)).
  { apply (fl_error_below q 0); [|unfold emin; lia].
    rewrite Qabs_pos by exact Hq0. exact Hq1. }
  assert (Hf0 : 0 <= fl q) by (rewrite <- fl_0; apply fl_mono; exact Hq0).
  assert (Hf1 : fl q <= 1).
  { assert (F : fl 1 == 1) by (vm_compute; reflexivity).
    rewrite <- F. apply fl_mono. exact Hq1. }
  assert (E2 : Qabs (fl (fl q * 100) - fl q * 100) <= pow2 (-46)).
  { apply (fl_error_below (fl q * 100) 7); [|unfold emin; lia].
    rewrite Qabs_pos by lra. change (pow2 7) with 128. lra. }
  apply Qabs_Qle_condition in E1 as [E1a E1b].
  apply Qabs_Qle_condition in E2 as [E2a E2b].
  assert (P53 : pow2 (-53) == 1 # 9007199254740992) by reflexivity.
  assert (P46 : pow2 (-46) == 1 # 70368744177664) by reflexivity.
  rewrite P53 in E1a, E1b. rewrite P46 in E2a, E2b.
  (* the position of 100 * c / t between two integers *)
  set (N := (200 * c + t)%Z). set (k := (N / (2 * t))%Z). set (r := (N mod (2 * t))%Z).
  assert (Hdiv : N = (2 * t * k + r)%Z) by (apply Z.div_mod; lia).
  assert (Hr : (0 <= r < 2 * t)%Z) by (apply Z.mod_pos_bound; lia).
  assert (Hr0 : r <> 0%Z).
  { intros E0. apply Hmid. unfold r, N in E0.
    rewrite <- Z.add_mod_idemp_l in E0 by lia.
    pose proof (Z.mod_pos_bound (200 * c) (2 * t)) as Hb.
    set (u := ((200 * c) mod (2 * t))%Z) in *.
    assert (Hu : (0 <= u < 2 * t)%Z) by (apply Hb; lia).
    destruct (Z_lt_le_dec (u + t) (2 * t)) as [Hlt|Hge].
    - rewrite Z.mod_small in E0 by lia. lia.
    - replace (u + t)%Z with ((u + t - 2 * t) + 1 * (2 * t))%Z in E0 by lia.
      rewrite Z.mod_add in E0 by lia. rewrite Z.mod_small in E0 by lia. lia. }
  set (rho := inject_Z r / (2 * inject_Z t)).
  assert (Hpos : 100 * inject_Z c / inject_Z t + (1 # 2) == inject_Z k + rho).
  { assert (HN : inject_Z N == 2 * inject_Z t * inject_Z k + inject_Z r).
    { rewrite Hdiv, inject_Z_plus, !inject_Z_mult. reflexivity. }
    unfold N in HN. rewrite inject_Z_plus, inject_Z_mult in HN.
    change (inject_Z 200) with 200 in HN.
    unfold rho. field_simplify_eq; [|lra]. lra. }
  assert (Ht40 : inject_Z t <= inject_Z (2 ^ 40)) by (rewrite <- Zle_Qle; lia).
  change (inject_Z (2 ^ 40)) with 1099511627776 in Ht40.
  assert (Hr1 : 1 <= inject_Z r).
  { change 1 with (inject_Z 1). rewrite <- Zle_Qle. lia. }
  assert (Hr2 : inject_Z r + 1 <= 2 * inject_Z t).
  { change 1 with (inject_Z 1). change 2 with (inject_Z 2).
    rewrite <- inject_Z_plus, <- inject_Z_mult, <- Zle_Qle. lia. }
  assert (Hrho1 : (1 # 2199023255552) <= rho).
  { unfold rho. apply Qle_shift_div_l; lra. }
  assert (Hrho2 : rho <= 1 - (1 # 2199023255552)).
  { unfold rho. apply Qle_shift_div_r; [lra|]. nra. }
  assert (Hq100 : 100 * q + (1 # 2) == inject_Z k + rho).
  { rewrite <- Hpos. unfold q. field. lra. }
  rewrite (Qfloor_unique (100 * inject_Z c / inject_Z t + (1 # 2)) k)
    by (rewrite Hpos; lra).
  apply Qfloor_unique; lra.
Qed.

(** The examples of the claim hold. *)
Lemma calculateScore_8_of_10 e : calculateScore 8 10 e Quiz = 80%Z.
Proof. vm_compute. reflexivity. Qed.

Lemma calculateScore_1_of_3 : calculateScore 1 3 10 Quiz = 33%Z.
Proof. vm_compute. reflexivity. Qed.

(** C8: for a fixed number of correct answers and a positive number of
    questions the timed score does not increase with the elapsed time, and
    [calculateScore(10, 10, 50, 'timed')] exceeds 100. *)
Theorem timed_score_antitone :
  (forall (c t : Z) (e1 e2 : Q),
      (0 < t)%Z -> e1 <= e2 ->
      (calculateScore c t e2 Timed <= calculateScore c t e1 Timed)%Z)
  /\ (100 < calculateScore 10 10 50 Timed)%Z.
Proof.
  split.
  - intros c t e1 e2 Ht He. unfold calculateScore.
    apply Math_round_mono. unfold jadd. apply fl_mono.
    apply Qplus_le_r. apply Math_max_mono.
    unfold jsub. apply fl_mono.
    pose proof (jdiv_mono_l e1 e2 (inject_Z t) (inject_Z_pos t Ht) He). lra.
  - vm_compute. reflexivity.
Qed.

(** The end-to-end example of the specification: ten correct answers of a
    timed run at 5 seconds each score 115. *)
Lemma timed_run_example :
  questionsAnswered (timed_run 10) = 10%Z
  /\ correctAnswers (timed_run 10) = 10%Z
  /\ timeElapsed (timed_run 10) == 50
  /\ score (timed_run 10) = 115%Z.
Proof. vm_compute. repeat split. Qed.

Lemma timed_score_antitone_witness :
  (calculateScore 10 10 100 Timed <= calculateScore 10 10 30 Timed)%Z.
Proof.
  apply (proj1 timed_score_antitone 10%Z 10%Z 30 100).
  - lia.
  - vm_compute. discriminate.
Defined.

(** ** calculateMastery *)

Lemma literal_0_8 : literal (8 # 10) == inject_Z 7205759403792794 * pow2 (-53).
Proof. vm_compute. reflexivity. Qed.

(** For counters up to 2^53 the comparison of the rounded quotient with the
    literal [0.8] decides whether the exact quotient reaches 4/5. *)
Lemma accuracy_test_exact (c a : Z) :
  (0 < a <= 2 ^ 53)%Z ->
  Qle_bool (literal (8 # 10)) (jdiv (inject_Z c) (inject_Z a))
  = Qle_bool (8 # 10) (inject_Z c / inject_Z a).
Proof.
  intros Ha. pose proof (inject_Z_pos a (proj1 Ha)) as Haq.
  destruct (Qle_bool (8 # 10) (inject_Z c / inject_Z a)) eqn:E.
  - apply Qle_bool_iff in E. apply Qle_bool_iff.
    unfold literal, jdiv. apply fl_mono. exact E.
  - assert (Hlt : ~ 8 # 10 <= inject_Z c / inject_Z a)
      by (rewrite <- Qle_bool_iff; congruence).
    apply not_true_iff_false. rewrite Qle_bool_iff. intros Hle.
    assert (Hz : (5 * c < 4 * a)%Z).
    { destruct (Z_lt_le_dec (5 * c) (4 * a)) as [|Hge]; [assumption|].
      exfalso. apply Hlt. apply Qle_shift_div_l; [exact Haq|].
      rewrite Zle_Qle, !inject_Z_mult in Hge.
      change (inject_Z 5) with 5 in Hge. change (inject_Z 4) with 4 in Hge.
      lra. }
    assert (Hz' : (5 * c + 1 <= 4 * a)%Z) by lia.
    rewrite Zle_Qle, inject_Z_plus, !inject_Z_mult in Hz'.
    change (inject_Z 5) with 5 in Hz'. change (inject_Z 4) with 4 in Hz'.
    change (inject_Z 1) with 1 in Hz'.
    assert (Hb : inject_Z a <= inject_Z (2 ^ 53)) by (rewrite <- Zle_Qle; lia).
    change (inject_Z (2 ^ 53)) with 9007199254740992 in Hb.
    assert (Hp : pow2 (-53) == 1 # 9007199254740992) by reflexivity.
    assert (Hmid : inject_Z c / inject_Z a
                   < (inject_Z 7205759403792793 + (1 # 2)) * pow2 (-53)).
    { apply Qlt_shift_div_r; [exact Haq|]. rewrite Hp.
      change (inject_Z 7205759403792793) with 7205759403792793. lra. }
    apply fl_le_mid in Hmid; [|lia|unfold emin; lia].
    unfold jdiv in Hle. rewrite literal_0_8 in Hle. rewrite Hp in Hle, Hmid.
    change (inject_Z 7205759403792793) with 7205759403792793 in Hmid.
    change (inject_Z 7205759403792794) with 7205759403792794 in Hle.
    lra.
Qed.

Lemma calculateMastery_exact (p : UserProgress) :
  (attempts p <= 2 ^ 53)%Z ->
  calculateMastery p = mastery_rule (attempts p) (correctCount p).
Proof.
  intros Ha. unfold calculateMastery, mastery_rule.
  destruct (attempts p <? 3)%Z eqn:E3; [reflexivity|].
  apply Z.ltb_ge in E3.
  rewrite accuracy_test_exact by lia.
  destruct (attempts p <? 5)%Z eqn:E5.
  - apply Z.ltb_lt in E5.
    assert ((attempts p >=? 5)%Z = false) as -> by lia. reflexivity.
  - apply Z.ltb_ge in E5.
    assert ((attempts p >=? 5)%Z = true) as -> by lia. simpl.
    destruct (Qle_bool _ _); reflexivity.
Qed.

(** C2: the classification depends on [attempts] and [correctCount] only and
    is the rule of the specification, for every counter up to 2^53; the four
    examples of the claim follow. *)
Theorem calculateMastery_rule :
  (forall p : UserProgress,
      (attempts p <= 2 ^ 53)%Z ->
      calculateMastery p = mastery_rule (attempts p) (correctCount p))
  /\ (forall p, attempts p = 2%Z -> calculateMastery p = New)
  /\ (forall p, attempts p = 5%Z -> correctCount p = 4%Z ->
        calculateMastery p = Mastered)
  /\ (forall p, attempts p = 4%Z -> correctCount p = 4%Z ->
        calculateMastery p = Learning)
  /\ (forall p, attempts p = 5%Z -> correctCount p = 3%Z ->
        calculateMastery p = Learning).
Proof.
  split; [exact calculateMastery_exact | repeat split].
  - intros p Ha. unfold calculateMastery. rewrite Ha. reflexivity.
  - intros p Ha Hc. unfold calculateMastery. rewrite Ha, Hc.
    vm_compute. reflexivity.
  - intros p Ha Hc. unfold calculateMastery. rewrite Ha, Hc.
    vm_compute. reflexivity.
  - intros p Ha Hc. unfold calculateMastery. rewrite Ha, Hc.
    vm_compute. reflexivity.
Qed.

Lemma calculateMastery_rule_witness :
  calculateMastery (updateProgress (createProgress "q1" 0%Z) true 1%Z)
  = mastery_rule 1 1.
Proof.
  apply (proj1 calculateMastery_rule
           (updateProgress (createProgress "q1" 0%Z) true 1%Z)).
  vm_compute. discriminate.
Defined.

(** ** createProgress, updateProgress, resetProgress *)

Lemma calculateMastery_set_mastery p m :
  calculateMastery (set_mastery p m) = calculateMastery p.
Proof. reflexivity. Qed.

Lemma produced_consistent p :
  produced p ->
  attempts p = (correctCount p + incorrectCount p)%Z
  /\ mastery p = calculateMastery p.
Proof.
  induction 1 as [questionId now | p isCorrect now Hp [IHa IHm] | p now].
  - split; reflexivity.
  - split.
    + simpl. destruct isCorrect; lia.
    + unfold updateProgress. rewrite calculateMastery_set_mastery. reflexivity.
  - split; reflexivity.
Qed.

(** C4: every record the tracker produces keeps
    [attempts = correctCount + incorrectCount], and its stored mastery is the
    classification rule applied to its [attempts] and [correctCount]
    (counters up to 2^53). *)
Theorem progress_invariant p :
  produced p -> (attempts p <= 2 ^ 53)%Z ->
  attempts p = (correctCount p + incorrectCount p)%Z
  /\ mastery p = mastery_rule (attempts p) (correctCount p).
Proof.
  intros Hp Ha. destruct (produced_consistent p Hp) as [H1 H2].
  split; [exact H1|]. rewrite H2. apply calculateMastery_exact. exact Ha.
Qed.

Lemma progress_invariant_witness :
  attempts five_correct = (correctCount five_correct + incorrectCount five_correct)%Z
  /\ mastery five_correct = mastery_rule 5 4.
Proof.
  apply (progress_invariant five_correct).
  - unfold five_correct. repeat apply produced_update. apply produced_create.
  - vm_compute. discriminate.
Defined.

(** ** getNextQuestion, isQuizComplete *)

Lemma array_get_in_range {A} (l : list A) (i : Z) :
  (0 <= i < Z.of_nat (length l))%Z -> exists x, array_get l i = Some x.
Proof.
  intros H. unfold array_get.
  assert ((i <? 0)%Z = false) as -> by lia.
  apply lookup_lt_is_Some. lia.
Qed.

Lemma getNextQuestion_in_range qs i :
  (0 <= i < Z.of_nat (length qs))%Z ->
  exists q, array_get qs i = Some q /\ getNextQuestion qs i = Value q.
Proof.
  intros H. destruct (array_get_in_range qs i H) as [q Hq].
  exists q. split; [exact Hq|]. unfold getNextQuestion.
  assert ((i >=? Z.of_nat (length qs))%Z = false) as -> by lia.
  rewrite Hq. reflexivity.
Qed.

Lemma getNextQuestion_past_end qs i :
  (Z.of_nat (length qs) <= i)%Z -> getNextQuestion qs i = Null.
Proof.
  intros H. unfold getNextQuestion.
  assert ((i >=? Z.of_nat (length qs))%Z = true) as -> by lia. reflexivity.
Qed.

(** C9 (the code departs from the claim): a negative index is out of range,
    and the claim promises the explicit none result ([null]) for it.  The
    guard of the code tests the upper bound only, and the array read that
    follows yields [undefined]. *)
Theorem getNextQuestion_negative_index :
  forall qs, getNextQuestion qs (-1) = Undefined.
Proof.
  intros qs. unfold getNextQuestion.
  assert ((-1 >=? Z.of_nat (length qs))%Z = false) as ->.
  { rewrite Z.geb_leb. apply Z.leb_gt. lia. }
  reflexivity.
Qed.

(** C10: from index 0 on, [isQuizComplete] holds exactly where
    [getNextQuestion] answers [null]. *)
Theorem complete_iff_no_next qs i :
  (0 <= i)%Z ->
  isQuizComplete i (Z.of_nat (length qs)) = true <-> getNextQuestion qs i = Null.
Proof.
  intros Hi. unfold isQuizComplete. split.
  - intros H. apply getNextQuestion_past_end. lia.
  - intros H. destruct (Z_lt_le_dec i (Z.of_nat (length qs))) as [Hlt|Hge].
    + destruct (getNextQuestion_in_range qs i) as [q [_ Hq]]; [lia|].
      congruence.
    + lia.
Qed.

Lemma complete_iff_no_next_witness :
  isQuizComplete 1 (Z.of_nat (length [sample_question "q1" None])) = true
  <-> getNextQuestion [sample_question "q1" None] 1 = Null.
Proof.
  apply (complete_iff_no_next [sample_question "q1" None] 1). lia.
Defined.

(** ** updateSession and updateProgress on objects *)

Lemma fresh_loc_unused (h : gmap Imp.loc Imp.obj) : h !! fresh (dom h) = None.
Proof. apply not_elem_of_dom. apply is_fresh. Qed.

Lemma insert_twice_keeps (h : gmap Imp.loc Imp.obj) l o1 o2 k o :
  h !! l = None -> h !! k = Some o ->
  <[l := o2]> (<[l := o1]> h) !! k = Some o.
Proof.
  intros Hl Hk. assert (l <> k) by congruence.
  rewrite !lookup_insert_ne by assumption. exact Hk.
Qed.

Lemma Imp_updateSession_run w l s isCorrect timeTaken :
  Imp.heap w !! l = Some (Imp.ObjSession s) ->
  let l' := fresh (dom (Imp.heap w)) in
  Imp.updateSession l isCorrect timeTaken w
  = Some (l', {| Imp.heap :=
                   <[l' := Imp.ObjSession (updateSession s isCorrect timeTaken)]>
                     (<[l' := Imp.ObjSession (answered s isCorrect timeTaken)]>
                        (Imp.heap w));
                 Imp.clock := Imp.clock w |}).
Proof.
  intros Hl l'. unfold Imp.updateSession, mbind, Imp.M_bind, mret, Imp.M_ret.
  unfold Imp.read_session at 1. rewrite Hl.
  unfold Imp.alloc. fold l'.
  unfold Imp.read_session, Imp.assign_score. simpl.
  rewrite lookup_insert_eq. simpl. rewrite lookup_insert_eq. reflexivity.
Qed.

Lemma Imp_updateProgress_run w l p isCorrect :
  Imp.heap w !! l = Some (Imp.ObjProgress p) ->
  let l' := fresh (dom (Imp.heap w)) in
  Imp.updateProgress l isCorrect w
  = Some (l', {| Imp.heap :=
                   <[l' := Imp.ObjProgress
                             (updateProgress p isCorrect (Imp.clock w))]>
                     (<[l' := Imp.ObjProgress
                                (attempted p isCorrect (Imp.clock w))]>
                        (Imp.heap w));
                 Imp.clock := Imp.clock w |}).
Proof.
  intros Hl l'. unfold Imp.updateProgress, mbind, Imp.M_bind, mret, Imp.M_ret.
  unfold Imp.read_progress at 1. rewrite Hl.
  unfold Imp.new_Date, Imp.alloc. fold l'.
  unfold Imp.read_progress, Imp.assign_mastery. simpl.
  rewrite lookup_insert_eq. simpl. rewrite lookup_insert_eq. reflexivity.
Qed.

(** C6: [updateSession] and [updateProgress] return a new object and leave
    their argument as it was: the call succeeds, the reference it returns was
    unused before, every object of the heap before the call (the argument
    among them) holds the same field values after it, and the new object
    holds the updated values. *)
Theorem updates_do_not_mutate (w : Imp.world) :
  (forall l s isCorrect timeTaken,
      Imp.heap w !! l = Some (Imp.ObjSession s) ->
      exists l' w',
        Imp.updateSession l isCorrect timeTaken w = Some (l', w')
        /\ Imp.heap w !! l' = None
        /\ (forall k o, Imp.heap w !! k = Some o -> Imp.heap w' !! k = Some o)
        /\ Imp.heap w' !! l'
           = Some (Imp.ObjSession (updateSession s isCorrect timeTaken)))
  /\ (forall l p isCorrect,
        Imp.heap w !! l = Some (Imp.ObjProgress p) ->
        exists l' w',
          Imp.updateProgress l isCorrect w = Some (l', w')
          /\ Imp.heap w !! l' = None
          /\ (forall k o, Imp.heap w !! k = Some o -> Imp.heap w' !! k = Some o)
          /\ Imp.heap w' !! l'
             = Some (Imp.ObjProgress (updateProgress p isCorrect (Imp.clock w)))).
Proof.
  split.
  - intros l s isCorrect timeTaken Hl.
    eexists _, _. split; [apply Imp_updateSession_run; exact Hl|].
    split; [apply fresh_loc_unused|]. split.
    + intros k o Hk. simpl. apply insert_twice_keeps;
        [apply fresh_loc_unused | exact Hk].
    + simpl. apply lookup_insert_eq.
  - intros l p isCorrect Hl.
    eexists _, _. split; [apply Imp_updateProgress_run; exact Hl|].
    split; [apply fresh_loc_unused|]. split.
    + intros k o Hk. simpl. apply insert_twice_keeps;
        [apply fresh_loc_unused | exact Hk].
    + simpl. apply lookup_insert_eq.
Qed.

Lemma updates_do_not_mutate_witness :
  exists l' w',
    Imp.updateSession 1%positive true 5 one_session = Some (l', w')
    /\ Imp.heap one_session !! l' = None
    /\ (forall k o, Imp.heap one_session !! k = Some o ->
                    Imp.heap w' !! k = Some o)
    /\ Imp.heap w' !! l'
       = Some (Imp.ObjSession (updateSession (createSession Quiz 0%Z) true 5)).
Proof.
  apply (proj1 (updates_do_not_mutate one_session)).
  reflexivity.
Defined.

(** ** shuffleArray, selectQuestions *)

Lemma insert_head_swap {A} (l : list A) j y a :
  l !! j = Some y -> y :: <[j := a]> l ≡ₚ a :: l.
Proof.
  revert j. induction l as [|b l IH]; intros [|j] H; simplify_eq/=.
  - apply Permutation_swap.
  - rewrite (Permutation_swap b y), (IH j H). apply Permutation_swap.
Qed.

Lemma swap_Permutation {A} (i j : nat) (l : list A) : swap i j l ≡ₚ l.
Proof.
  unfold swap. destruct (l !! i) as [x|] eqn:Hi; [|reflexivity].
  destruct (l !! j) as [y|] eqn:Hj; [|reflexivity].
  revert i j Hi Hj. induction l as [|a l IH]; intros [|i] [|j] Hi Hj;
    simplify_eq/=.
  - reflexivity.
  - apply insert_head_swap. exact Hj.
  - apply insert_head_swap. exact Hi.
  - f_equiv. apply IH; assumption.
Qed.

Lemma shuffle_loop_Permutation {T} rand call i (l : list T) :
  shuffle_loop rand call i l ≡ₚ l.
Proof.
  revert call l. induction i as [|i IH]; intros call l; simpl.
  - reflexivity.
  - rewrite IH. apply swap_Permutation.
Qed.

Lemma shuffleArray_Permutation {T} rand (l : list T) : shuffleArray rand l ≡ₚ l.
Proof. apply shuffle_loop_Permutation. Qed.

Lemma slice0_submseteq {A} (l : list A) stop : slice0 l stop ⊆+ l.
Proof. apply submseteq_take. Qed.

Lemma slice0_length_nonneg {A} (l : list A) stop :
  (0 <= stop)%Z ->
  Z.of_nat (length (slice0 l stop)) = Z.min stop (Z.of_nat (length l)).
Proof.
  intros H. unfold slice0.
  assert ((stop <? 0)%Z = false) as -> by lia.
  rewrite length_take. lia.
Qed.

Lemma filter_all {A} (P : A -> Prop) `{!forall x, Decision (P x)} (l : list A) :
  (forall x, P x) -> filter P l = l.
Proof.
  intros HP. induction l as [|a l IH]; [reflexivity|].
  rewrite filter_cons_True by apply HP. f_equal. exact IH.
Qed.

Lemma grade_filtered_spec catalog config :
  grade_filtered catalog config
  = filter (fun q => grade_matches config q = true) catalog.
Proof.
  unfold grade_filtered, grade_matches.
  destruct (cfg_gradeLevel config) as [[| | |]|].
  - apply list_filter_iff. intros q. rewrite bool_decide_eq_true.
    destruct (gradeLevel q); simpl; split; congruence.
  - apply list_filter_iff. intros q. rewrite bool_decide_eq_true.
    destruct (gradeLevel q); simpl; split; congruence.
  - apply list_filter_iff. intros q. destruct (gradeLevel q); simpl; tauto.
  - symmetry. apply filter_all. reflexivity.
  - symmetry. apply filter_all. reflexivity.
Qed.

Lemma topic_filtered_spec questions config :
  topic_filtered questions config
  = filter (fun q => topic_matches config q = true) questions.
Proof.
  unfold topic_filtered, topic_matches, truthy_string.
  destruct (cfg_topic config) as [[|ch t]|]; simpl.
  - symmetry. apply filter_all. reflexivity.
  - apply list_filter_iff. intros q. rewrite bool_decide_eq_true. tauto.
  - symmetry. apply filter_all. reflexivity.
Qed.

(** The filters of the code select what the filters of the specification
    select. *)
Lemma filtered_spec catalog config :
  topic_filtered (grade_filtered catalog config) config
  = spec_filtered catalog config.
Proof.
  rewrite topic_filtered_spec, grade_filtered_spec, list_filter_filter.
  apply list_filter_iff. intros q. rewrite andb_true_iff. tauto.
Qed.

(** C3 as stated fails: a requested count of 0 is supplied, and the output
    has the size of the filtered catalog (1), not min(0, 1). *)
Lemma selectQuestions_count_zero :
  let catalog := [sample_question "q1" None] in
  let config := unfiltered (Some 0%Z) in
  Z.of_nat (length (selectQuestions (fun _ => 0) catalog config))
  <> Z.min 0 (Z.of_nat (length (spec_filtered catalog config))).
Proof. vm_compute. discriminate. Qed.

(** C3, amended: for every random source the output is a multiset subset of
    the catalog filtered by the grade-level and topic filters; its length is
    min(requestedCount, filteredSize) when a positive count is supplied, and
    filteredSize when the count is absent or 0. *)
Theorem selectQuestions_subset_and_length rand catalog config :
  let filtered := spec_filtered catalog config in
  let out := selectQuestions rand catalog config in
  out ⊆+ filtered
  /\ (forall n, cfg_questionCount config = Some n -> (0 < n)%Z ->
        Z.of_nat (length out) = Z.min n (Z.of_nat (length filtered)))
  /\ (cfg_questionCount config = None \/ cfg_questionCount config = Some 0%Z ->
        length out = length filtered).
Proof.
  intros filtered out. unfold out, selectQuestions.
  rewrite filtered_spec. fold filtered.
  pose proof (shuffleArray_Permutation rand filtered) as Hperm.
  pose proof (Permutation_length Hperm) as Hlen.
  split; [|split].
  - etrans; [apply slice0_submseteq|]. apply Permutation_submseteq. exact Hperm.
  - intros n Hn Hpos. rewrite Hn. simpl.
    assert ((n =? 0)%Z = false) as -> by lia. simpl.
    rewrite slice0_length_nonneg by lia. rewrite Hlen. reflexivity.
  - intros Hc.
    assert (truthy_number (cfg_questionCount config) = false) as ->
      by (destruct Hc as [-> | ->]; reflexivity).
    apply Nat2Z.inj. rewrite slice0_length_nonneg by lia. lia.
Qed.

Lemma selectQuestions_subset_and_length_witness :
  Z.of_nat (length (selectQuestions (fun _ => 1 # 2)
                      [sample_question "q1" None; sample_question "q2" None;
                       sample_question "q3" None]
                      (unfiltered (Some 2%Z))))
  = Z.min 2 (Z.of_nat (length (spec_filtered
                      [sample_question "q1" None; sample_question "q2" None;
                       sample_question "q3" None]
                      (unfiltered (Some 2%Z))))).
Proof.
  apply (proj1 (proj2 (selectQuestions_subset_and_length (fun _ => 1 # 2)
                         [sample_question "q1" None; sample_question "q2" None;
                          sample_question "q3" None]
                         (unfiltered (Some 2%Z)))) 2%Z).
  - reflexivity.
  - lia.
Defined.

(** The index [Math.floor(Math.random() * (i + 1))] lies in [0, i]: the
    rounded product of a binary64 value below 1 with an integer [n] stays
    below [n].  So [swap] is only ever applied inside the array. *)
Lemma random_product_below r n :
  0 <= r -> r <= below_one -> (1 <= n < 2 ^ 53)%Z ->
  jmul r (inject_Z n) < inject_Z n.
Proof.
  intros Hr0 Hr1 Hn. unfold jmul, below_one in *.
  set (k := Z.log2 n).
  destruct (Z.log2_spec n) as [Hk1 Hk2]; [lia|]. fold k in Hk1, Hk2.
  pose proof (Z.log2_nonneg n) as Hk0. fold k in Hk0.
  assert (Hk52 : (k <= 52)%Z).
  { destruct (Z_le_gt_dec k 52) as [|Hgt]; [assumption|].
    assert (2 ^ 53 <= 2 ^ k)%Z by (apply Z.pow_le_mono_r; lia). lia. }
  assert (Hnq : 0 < inject_Z n) by (apply inject_Z_pos; lia).
  pose proof (pow2_pos (-53)) as Hp53. pose proof (pow2_pos (k - 53)) as Hpk53.
  assert (Ek : pow2 (k - 53) == pow2 k * pow2 (-53)).
  { rewrite <- pow2_add. replace (k + -53)%Z with (k - 53)%Z by lia. reflexivity. }
  assert (Ekq : pow2 k == inject_Z (2 ^ k)) by (apply pow2_inject; lia).
  assert (Hx : r * inject_Z n <= inject_Z n - inject_Z n * pow2 (-53)) by nra.
  destruct (Z.eq_dec n (2 ^ k)%Z) as [En|Nn].
  - (* n is a power of two: its predecessor is (2^53 - 1) * 2^(k - 53) *)
    assert (E53 : pow2 k == inject_Z (2 ^ 53) * pow2 (k - 53)).
    { rewrite <- (pow2_inject 53), <- pow2_add by lia.
      replace (53 + (k - 53))%Z with k by lia. reflexivity. }
    change (inject_Z (2 ^ 53)) with 9007199254740992 in E53.
    assert (Hnk : inject_Z n == pow2 k) by (rewrite En at 1; symmetry; exact Ekq).
    assert (Hmid : r * inject_Z n
                   < (inject_Z (2 ^ 53 - 1) + (1 # 2)) * pow2 (k - 53)).
    { change (inject_Z (2 ^ 53 - 1)) with 9007199254740991. nra. }
    apply fl_le_mid in Hmid; [|lia|unfold emin; lia].
    change (inject_Z (2 ^ 53 - 1)) with 9007199254740991 in Hmid. nra.
  - (* otherwise it is n - 2^(k - 52) *)
    assert (Hgt : (2 ^ k + 1 <= n)%Z) by lia.
    set (s := (2 ^ (52 - k))%Z).
    assert (Hs : (0 < s)%Z) by (apply Z.pow_pos_nonneg; lia).
    assert (Hs2 : (2 ^ k * s = 2 ^ 52)%Z).
    { unfold s. rewrite <- Z.pow_add_r by lia. f_equal. lia. }
    assert (Hm : (2 ^ 52 <= n * s - 1 < 2 ^ 53)%Z).
    { assert (2 ^ Z.succ k * s = 2 ^ 53)%Z.
      { unfold s. rewrite <- Z.pow_add_r by lia. f_equal. lia. }
      nia. }
    assert (En : inject_Z n == inject_Z (n * s) * pow2 (k - 52)).
    { rewrite <- (Qmult_1_r (inject_Z n)) at 1. change 1 with (pow2 0).
      rewrite (pow2_rescale n 0 (k - 52)) by lia.
      replace (0 - (k - 52))%Z with (52 - k)%Z by lia. reflexivity. }
    assert (E52 : pow2 (k - 52) == 2 * pow2 (k - 53)).
    { rewrite <- pow2_succ. replace (k - 53 + 1)%Z with (k - 52)%Z by lia.
      reflexivity. }
    assert (Hgtq : inject_Z (2 ^ k) + 1 <= inject_Z n).
    { change 1 with (inject_Z 1). rewrite <- inject_Z_plus, <- Zle_Qle. lia. }
    assert (Em : inject_Z (n * s - 1) == inject_Z (n * s) - 1).
    { unfold Z.sub. rewrite inject_Z_plus. reflexivity. }
    assert (Hmid : r * inject_Z n
                   < (inject_Z (n * s - 1) + (1 # 2)) * pow2 (k - 52)).
    { rewrite Em. nra. }
    apply fl_le_mid in Hmid; [|exact Hm|unfold emin; lia].
    rewrite Em in Hmid. pose proof (pow2_pos (k - 52)). nra.
Qed.

Lemma random_index_in_range r (i : nat) :
  0 <= r -> r <= below_one -> (Z.of_nat i + 1 < 2 ^ 53)%Z ->
  (0 <= Math_floor (jmul r (inject_Z (Z.of_nat i + 1))) <= Z.of_nat i)%Z.
Proof.
  intros Hr0 Hr1 Hi. unfold Math_floor. split.
  - change 0%Z with (Qfloor 0). apply Qfloor_resp_le.
    unfold jmul. rewrite <- fl_0. apply fl_mono.
    assert (0 < inject_Z (Z.of_nat i + 1)) by (apply inject_Z_pos; lia). nra.
  - pose proof (random_product_below r (Z.of_nat i + 1) Hr0 Hr1) as H.
    pose proof (Qfloor_le (jmul r (inject_Z (Z.of_nat i + 1)))) as Hf.
    assert (Hlt : inject_Z (Qfloor (jmul r (inject_Z (Z.of_nat i + 1))))
                  < inject_Z (Z.of_nat i + 1)).
    { eapply Qle_lt_trans; [exact Hf|]. apply H. lia. }
    rewrite <- Zlt_Qlt in Hlt. lia.
Qed.

Lemma swap_length {A} (i j : nat) (l : list A) : length (swap i j l) = length l.
Proof. apply Permutation_length, swap_Permutation. Qed.

(** Each iteration of the shuffle swaps two elements of the array: with
    [Math.random()] in [0, 1) the index [j] is at most [i]. *)
Lemma shuffle_step_inside {T} (rand : RandomSource) (call i : nat) (l : list T) :
  unit_interval rand -> (S i < length l)%nat ->
  (Z.of_nat (length l) < 2 ^ 53)%Z ->
  let j := Z.to_nat (Math_floor (jmul (rand call)
                                   (inject_Z (Z.of_nat (S i) + 1)))) in
  (j <= S i)%nat /\ is_Some (l !! S i) /\ is_Some (l !! j).
Proof.
  intros Hrand Hi Hlen j. destruct (Hrand call) as [Hr0 Hr1].
  pose proof (random_index_in_range (rand call) (S i) Hr0 Hr1) as Hj.
  assert (Hle : (j <= S i)%nat) by (unfold j; lia).
  split; [exact Hle|]. split; apply lookup_lt_is_Some; lia.
Qed.

(** ** Maps *)

Section JsMapFacts.
Context {K V : Type} `{EqDecision K}.
Implicit Types (m : JsMap K V) (k : K) (v : V).

Lemma map_get_set_eq m k v : map_get (map_set m k v) k = Some v.
Proof.
  induction m as [|[k' v'] m IH]; simpl.
  - rewrite decide_True by reflexivity. reflexivity.
  - destruct (decide (k = k')) as [->|Hne]; simpl.
    + rewrite decide_True by reflexivity. reflexivity.
    + rewrite decide_False by exact Hne. exact IH.
Qed.

Lemma map_get_set_ne m k k' v :
  k <> k' -> map_get (map_set m k v) k' = map_get m k'.
Proof.
  intros Hne. induction m as [|[k0 v0] m IH]; simpl.
  - rewrite decide_False by congruence. reflexivity.
  - destruct (decide (k = k0)) as [->|Hne0]; simpl.
    + rewrite !decide_False by congruence. reflexivity.
    + destruct (decide (k' = k0)); [reflexivity | exact IH].
Qed.

Lemma map_of_entries_snoc (es : list (K * V)) k v :
  map_of_entries (es ++ [(k, v)]) = map_set (map_of_entries es) k v.
Proof. unfold map_of_entries. rewrite foldl_snoc. reflexivity. Qed.

End JsMapFacts.

(** ** calculateStats *)

(** [progressMap.get(question.id)] is the record of the question. *)
Lemma progressMap_get progressList q :
  map_get (map_of_entries (map (fun p => (questionId p, p)) progressList)) (qid q)
  = record_of progressList q.
Proof.
  unfold record_of.
  induction progressList as [|p l IH] using rev_ind; [reflexivity|].
  rewrite map_app. simpl. rewrite map_of_entries_snoc, filter_app.
  destruct (decide (questionId p = qid q)) as [E|N].
  - rewrite E, map_get_set_eq.
    rewrite (filter_cons_True _ p []) by exact E.
    rewrite filter_nil, last_snoc. reflexivity.
  - rewrite map_get_set_ne by exact N.
    rewrite (filter_cons_False _ p []) by exact N.
    rewrite filter_nil, app_nil_r. exact IH.
Qed.

Lemma recorded_snoc_Some progressList catalog q p :
  record_of progressList q = Some p ->
  recorded progressList (catalog ++ [q]) = recorded progressList catalog ++ [(q, p)].
Proof. intros H. unfold recorded. rewrite omap_app. simpl. rewrite H. reflexivity. Qed.

Lemma recorded_snoc_None progressList catalog q :
  record_of progressList q = None ->
  recorded progressList (catalog ++ [q]) = recorded progressList catalog.
Proof.
  intros H. unfold recorded. rewrite omap_app. simpl. rewrite H.
  apply app_nil_r.
Qed.

Lemma unrecorded_snoc progressList catalog q :
  unrecorded progressList (catalog ++ [q])
  = (unrecorded progressList catalog
     + match record_of progressList q with None => 1 | Some _ => 0 end)%Z.
Proof.
  unfold unrecorded. rewrite filter_app, length_app.
  destruct (record_of progressList q) eqn:E.
  - rewrite (filter_cons_False _ q []) by congruence. simpl. lia.
  - rewrite (filter_cons_True _ q []) by exact E. simpl. lia.
Qed.

Lemma with_mastery_snoc m rs r :
  with_mastery m (rs ++ [r])
  = (with_mastery m rs + if decide (mastery r.2 = m) then 1 else 0)%Z.
Proof.
  unfold with_mastery. rewrite filter_app, length_app.
  destruct (decide (mastery r.2 = m)) as [E|N].
  - rewrite (filter_cons_True _ r []) by exact E. simpl. lia.
  - rewrite (filter_cons_False _ r []) by exact N. simpl. lia.
Qed.

Lemma sum_correct_snoc rs r :
  sum_correct (rs ++ [r]) = (sum_correct rs + correctCount r.2)%Z.
Proof. unfold sum_correct. induction rs as [|a rs IH]; simpl; lia. Qed.

Lemma sum_attempts_snoc rs r :
  sum_attempts (rs ++ [r]) = (sum_attempts rs + attempts r.2)%Z.
Proof. unfold sum_attempts. induction rs as [|a rs IH]; simpl; lia. Qed.

Lemma topic_totals_snoc_other t rs r :
  topic r.1 <> Some t -> topic_totals t (rs ++ [r]) = topic_totals t rs.
Proof.
  intros N. unfold topic_totals. rewrite filter_app.
  rewrite (filter_cons_False _ r []) by exact N.
  rewrite filter_nil, app_nil_r. reflexivity.
Qed.

Lemma topic_totals_snoc_same t rs r :
  topic r.1 = Some t ->
  topic_totals t (rs ++ [r])
  = let current := default {| correct := 0; total := 0 |} (topic_totals t rs) in
    Some {| correct := correct current + correctCount r.2;
            total := total current + attempts r.2 |}.
Proof.
  intros E. unfold topic_totals. rewrite filter_app.
  rewrite (filter_cons_True _ r []) by exact E. rewrite filter_nil.
  destruct (filter (fun r0 => topic r0.1 = Some t) rs) as [|a l]; simpl.
  - do 2 f_equal; lia.
  - change (a :: l ++ [r]) with ((a :: l) ++ [r]).
    rewrite sum_correct_snoc, sum_attempts_snoc. simpl. do 2 f_equal; lia.
Qed.

Lemma truthy_string_true o :
  truthy_string o = true -> exists s, o = Some s /\ s <> ""%string.
Proof.
  destruct o as [s|]; simpl; [|discriminate].
  intros H. exists s. split; [reflexivity|].
  apply String.eqb_neq. apply negb_true_iff. exact H.
Qed.

Lemma truthy_string_false o t :
  truthy_string o = false -> t <> ""%string -> o <> Some t.
Proof.
  destruct o as [s|]; simpl; [|discriminate].
  intros H Ht E. injection E as ->.
  apply negb_false_iff, String.eqb_eq in H. contradiction.
Qed.

Lemma stats_step_agree progressList catalog acc q :
  stats_agree progressList catalog acc ->
  stats_agree progressList (catalog ++ [q])
    (stats_step (map_of_entries (map (fun p => (questionId p, p)) progressList))
       acc q).
Proof.
  intros (Hn & Hl & Hm & Hc & Ha & Ht & He).
  unfold stats_agree, stats_step. rewrite progressMap_get, unrecorded_snoc.
  destruct (record_of progressList q) as [p|] eqn:Hr.
  - rewrite (recorded_snoc_Some _ _ _ _ Hr). cbn [newCount learningCount
      masteredCount totalCorrect totalAttempts breakdown].
    rewrite !with_mastery_snoc, sum_correct_snoc, sum_attempts_snoc.
    cbn [snd fst]. rewrite Hn, Hl, Hm, Hc, Ha.
    repeat split.
    + destruct (mastery p); simpl; lia.
    + destruct (mastery p); simpl; lia.
    + destruct (mastery p); simpl; lia.
    + intros t Hne. destruct (truthy_string (topic q)) eqn:Etq.
      * destruct (truthy_string_true _ Etq) as (t0 & Eq0 & Hne0).
        rewrite Eq0. cbn [default from_option id].
        destruct (decide (t0 = t)) as [Ed|Hd].
        -- subst t0. rewrite map_get_set_eq, (Ht t Hne).
           rewrite topic_totals_snoc_same by exact Eq0. reflexivity.
        -- rewrite map_get_set_ne by exact Hd.
           rewrite topic_totals_snoc_other by (cbn; congruence).
           apply Ht. exact Hne.
      * rewrite topic_totals_snoc_other
          by (cbn; apply truthy_string_false; assumption).
        apply Ht. exact Hne.
    + destruct (truthy_string (topic q)) eqn:Etq; [|exact He].
      destruct (truthy_string_true _ Etq) as (t0 & Eq0 & Hne0).
      rewrite Eq0. cbn [default from_option id]. rewrite map_get_set_ne by exact Hne0. exact He.
  - rewrite (recorded_snoc_None _ _ _ Hr). cbn [newCount learningCount
      masteredCount totalCorrect totalAttempts breakdown].
    repeat split; try assumption. lia.
Qed.

Lemma stats_fold_agree progressList catalog :
  stats_agree progressList catalog
    (foldl (stats_step
              (map_of_entries (map (fun p => (questionId p, p)) progressList)))
       stats_init catalog).
Proof.
  induction catalog as [|q catalog IH] using rev_ind.
  - repeat split.
  - rewrite foldl_snoc. apply stats_step_agree. exact IH.
Qed.

(** C5: [calculateStats] counts a catalog question without a record as new
    and buckets a recorded one by its stored mastery tag; the overall accuracy
    is totalCorrect/totalAttempts over the recorded questions (0 without
    attempts); the breakdown of a topic holds the sums of correctCount and
    attempts over the recorded catalog questions with that topic, and has no
    entry for a topic no recorded question carries; a question whose topic is
    absent or the empty string contributes to no topic.  Two [wind] questions
    with (4, 5) and (3, 5) give (7, 10). *)
Theorem calculateStats_spec progressList catalog :
  let stats := calculateStats progressList catalog in
  let rs := recorded progressList catalog in
  totalQuestions stats = Z.of_nat (length catalog)
  /\ newQuestions stats
     = (unrecorded progressList catalog + with_mastery New rs)%Z
  /\ learningQuestions stats = with_mastery Learning rs
  /\ masteredQuestions stats = with_mastery Mastered rs
  /\ overallAccuracy stats
     = (if (sum_attempts rs >? 0)%Z
        then jdiv (inject_Z (sum_correct rs)) (inject_Z (sum_attempts rs))
        else 0)
  /\ (forall t, t <> ""%string ->
        map_get (topicBreakdown stats) t = topic_totals t rs)
  /\ map_get (topicBreakdown stats) ""%string = None
  /\ map_get (topicBreakdown (calculateStats wind_progress wind_catalog))
       "wind"%string
     = Some {| correct := 7; total := 10 |}.
Proof.
  intros stats rs.
  destruct (stats_fold_agree progressList catalog)
    as (Hn & Hl & Hm & Hc & Ha & Ht & He).
  unfold stats, calculateStats. cbn [totalQuestions newQuestions
    learningQuestions masteredQuestions overallAccuracy topicBreakdown].
  split; [reflexivity|]. split; [exact Hn|]. split; [exact Hl|].
  split; [exact Hm|]. split; [rewrite Hc, Ha; reflexivity|].
  split; [exact Ht|]. split; [exact He|]. vm_compute. reflexivity.
Qed.

(** ** Array.prototype.sort *)

Section SortFacts.
Context {A : Type} (key : A -> Q) (cmp : A -> A -> Q) (P : A -> Prop).
Hypothesis cmp_sign :
  forall x y, P x -> P y -> (0 < cmp x y <-> key y < key x).

Lemma sort_insert_Permutation x l : sort_insert cmp x l ≡ₚ x :: l.
Proof.
  induction l as [|y l IH]; simpl; [reflexivity|].
  destruct (Qlt_le_dec 0 (cmp x y)); [|reflexivity].
  rewrite IH. apply Permutation_swap.
Qed.

Lemma array_sort_Permutation l : array_sort cmp l ≡ₚ l.
Proof.
  induction l as [|x l IH]; simpl; [reflexivity|].
  rewrite sort_insert_Permutation, IH. reflexivity.
Qed.

Lemma sort_insert_sorted x l :
  P x -> Forall P l -> StronglySorted (fun a b => key a <= key b) l ->
  StronglySorted (fun a b => key a <= key b) (sort_insert cmp x l).
Proof.
  intros Hx HP Hs. induction Hs as [|y l Hs IH Hy]; simpl.
  - repeat constructor.
  - apply Forall_cons in HP as [HPy HPl].
    destruct (Qlt_le_dec 0 (cmp x y)) as [Hgt|Hle].
    + constructor; [apply IH; exact HPl|].
      rewrite sort_insert_Permutation. constructor; [|exact Hy].
      apply cmp_sign in Hgt; [|assumption..]. lra.
    + assert (Hxy : key x <= key y).
      { destruct (Qlt_le_dec (key y) (key x)) as [Hlt|]; [|assumption].
        apply cmp_sign in Hlt; [|assumption..]. lra. }
      constructor; [constructor; assumption|].
      constructor; [exact Hxy|].
      eapply Forall_impl; [exact Hy|]. intros z Hz. simpl in Hz. lra.
Qed.

Lemma array_sort_sorted l :
  Forall P l -> StronglySorted (fun a b => key a <= key b) (array_sort cmp l).
Proof.
  induction l as [|x l IH]; intros HP; simpl; [constructor|].
  apply Forall_cons in HP as [Hx Hl].
  apply sort_insert_sorted; [exact Hx | | apply IH; exact Hl].
  rewrite array_sort_Permutation. exact Hl.
Qed.

(** Stability: elements with the same key keep their order. *)
Lemma sort_insert_stable v x l :
  P x -> Forall P l ->
  filter (fun a => key a == v) (sort_insert cmp x l)
  = filter (fun a => key a == v) (x :: l).
Proof.
  intros Hx HP. induction l as [|y l IH]; simpl; [reflexivity|].
  apply Forall_cons in HP as [HPy HPl].
  destruct (Qlt_le_dec 0 (cmp x y)) as [Hgt|Hle]; [|reflexivity].
  apply cmp_sign in Hgt; [|assumption..].
  rewrite (filter_cons _ y), (IH HPl), (filter_cons _ x (y :: l)),
    (filter_cons _ x l), (filter_cons _ y l).
  destruct (decide (key y == v)) as [Ey|Ny];
    destruct (decide (key x == v)) as [Ex|Nx]; try reflexivity.
  exfalso. lra.
Qed.

Lemma array_sort_stable v l :
  Forall P l ->
  filter (fun a => key a == v) (array_sort cmp l)
  = filter (fun a => key a == v) l.
Proof.
  induction l as [|x l IH]; intros HP; simpl; [reflexivity|].
  apply Forall_cons in HP as [Hx Hl].
  rewrite sort_insert_stable;
    [|exact Hx | rewrite array_sort_Permutation; exact Hl].
  rewrite !(filter_cons _ x), (IH Hl). reflexivity.
Qed.

End SortFacts.

(** ** getWeakestTopics *)

Lemma topic_accuracy_on_grid entry : on_grid (ta_accuracy (topic_accuracy entry)).
Proof.
  unfold topic_accuracy. simpl. destruct (total entry.2 >? 0)%Z.
  - apply fl_on_grid.
  - apply on_grid_0.
Qed.

Lemma by_accuracy_sign x y :
  on_grid (ta_accuracy x) -> on_grid (ta_accuracy y) ->
  (0 < by_accuracy x y <-> ta_accuracy y < ta_accuracy x).
Proof. intros Hx Hy. apply jsub_pos_iff; assumption. Qed.

Lemma eligible_on_grid (entries : list (string * TopicStat)) :
  Forall (fun t => on_grid (ta_accuracy t))
    (filter (fun t => (0 < ta_total t)%Z) (map topic_accuracy entries)).
Proof.
  apply Forall_forall. intros t Ht.
  apply list_elem_of_filter in Ht as [_ Ht].
  apply list_elem_of_In, in_map_iff in Ht as (e & <- & _).
  apply topic_accuracy_on_grid.
Qed.

Lemma slice0_nonneg {A} (l : list A) stop :
  (0 <= stop)%Z -> slice0 l stop = take (Z.to_nat stop) l.
Proof.
  intros H. unfold slice0. assert ((stop <? 0)%Z = false) as -> by lia.
  destruct (Z_le_gt_dec stop (Z.of_nat (length l))) as [Hle|Hgt].
  - rewrite Z.min_l by lia. reflexivity.
  - rewrite Z.min_r by lia. rewrite Nat2Z.id.
    rewrite !take_ge by lia. reflexivity.
Qed.

Lemma quotient_lt_cross c1 t1 c2 t2 :
  (0 < t1)%Z -> (0 < t2)%Z ->
  (inject_Z c1 / inject_Z t1 < inject_Z c2 / inject_Z t2
   <-> (c1 * t2 < c2 * t1)%Z).
Proof.
  intros H1 H2.
  assert (Q1 : 0 < inject_Z t1) by (apply inject_Z_pos; exact H1).
  assert (Q2 : 0 < inject_Z t2) by (apply inject_Z_pos; exact H2).
  rewrite Zlt_Qlt, !inject_Z_mult.
  assert (E1 : inject_Z c1 / inject_Z t1 * inject_Z t1 == inject_Z c1)
    by (field; lra).
  assert (E2 : inject_Z c2 / inject_Z t2 * inject_Z t2 == inject_Z c2)
    by (field; lra).
  set (a := inject_Z c1 / inject_Z t1) in *.
  set (b := inject_Z c2 / inject_Z t2) in *.
  assert (Hz : 0 < inject_Z t1 * inject_Z t2) by nra.
  rewrite <- (Qmult_lt_r a b _ Hz).
  assert (Ea : a * (inject_Z t1 * inject_Z t2) == inject_Z c1 * inject_Z t2)
    by (rewrite <- E1; ring).
  assert (Eb : b * (inject_Z t1 * inject_Z t2) == inject_Z c2 * inject_Z t1)
    by (rewrite <- E2; ring).
  rewrite Ea, Eb. reflexivity.
Qed.

(** Below 2^26 attempts two accuracies that differ are at least 2^-52 apart,
    more than the two roundings can bridge: the binary64 quotients are in
    the order of the exact ones. *)
Lemma jdiv_lt_exact c1 t1 c2 t2 :
  (0 <= c1 <= t1)%Z -> (0 < t1 < 2 ^ 26)%Z ->
  (0 <= c2 <= t2)%Z -> (0 < t2 < 2 ^ 26)%Z ->
  (jdiv (inject_Z c1) (inject_Z t1) < jdiv (inject_Z c2) (inject_Z t2)
   <-> inject_Z c1 / inject_Z t1 < inject_Z c2 / inject_Z t2).
Proof.
  intros Hc1 Ht1 Hc2 Ht2. unfold jdiv.
  set (a := inject_Z c1 / inject_Z t1). set (b := inject_Z c2 / inject_Z t2).
  split.
  - intros H. destruct (Qlt_le_dec a b) as [|Hle]; [assumption|].
    apply fl_mono in Hle. lra.
  - intros Hab.
    destruct (Qlt_le_dec (fl a) (fl b)) as [|Hle]; [assumption|]. exfalso.
    assert (Hcross : (c1 * t2 < c2 * t1)%Z)
      by (apply quotient_lt_cross; [lia | lia | exact Hab]).
    assert (Q1 : 0 < inject_Z t1) by (apply inject_Z_pos; lia).
    assert (Q2 : 0 < inject_Z t2) by (apply inject_Z_pos; lia).
    assert (Ha : 0 <= a /\ a <= 1).
    { unfold a. split; [apply Qle_shift_div_l | apply Qle_shift_div_r];
        try exact Q1.
      - rewrite Qmult_0_l. change 0 with (inject_Z 0). rewrite <- Zle_Qle. lia.
      - rewrite Qmult_1_l, <- Zle_Qle. lia. }
    assert (Hb : 0 <= b /\ b <= 1).
    { unfold b. split; [apply Qle_shift_div_l | apply Qle_shift_div_r];
        try exact Q2.
      - rewrite Qmult_0_l. change 0 with (inject_Z 0). rewrite <- Zle_Qle. lia.
      - rewrite Qmult_1_l, <- Zle_Qle. lia. }
    assert (Ep : pow2 0 == 1) by reflexivity.
    assert (Ee : pow2 (0 - 53) == 1 # 9007199254740992) by reflexivity.
    assert (Ea : Qabs (fl a - a) <= 1 # 9007199254740992).
    { rewrite <- Ee. apply fl_error_below; [|unfold emin; lia].
      rewrite Qabs_pos, Ep by apply Ha. apply Ha. }
    assert (Eb : Qabs (fl b - b) <= 1 # 9007199254740992).
    { rewrite <- Ee. apply fl_error_below; [|unfold emin; lia].
      rewrite Qabs_pos, Ep by apply Hb. apply Hb. }
    assert (Ha' : fl a - a <= 1 # 9007199254740992).
    { eapply Qle_trans; [|exact Ea]. apply Qle_Qabs. }
    assert (Hb' : b - fl b <= 1 # 9007199254740992).
    { eapply Qle_trans; [|exact Eb]. rewrite <- Qabs_opp.
      assert (E : - (fl b - b) == b - fl b) by ring. rewrite E. apply Qle_Qabs. }
    assert (Hgap : b - a <= 1 # 4503599627370496) by lra.
    (* the exact gap *)
    assert (E1 : a * inject_Z t1 == inject_Z c1) by (unfold a; field; lra).
    assert (E2 : b * inject_Z t2 == inject_Z c2) by (unfold b; field; lra).
    assert (Hnum : 1 <= inject_Z c2 * inject_Z t1 - inject_Z c1 * inject_Z t2).
    { rewrite <- !inject_Z_mult. change 1 with (inject_Z 1).
      assert (E : inject_Z (c2 * t1) - inject_Z (c1 * t2)
                  == inject_Z (c2 * t1 - c1 * t2)).
      { unfold Z.sub. rewrite inject_Z_plus, inject_Z_opp. ring. }
      rewrite E, <- Zle_Qle. lia. }
    assert (Hprod : inject_Z t1 * inject_Z t2 <= 4503599627370496 - 1).
    { rewrite <- inject_Z_mult.
      change (4503599627370496 - 1) with (inject_Z (2 ^ 52 - 1)).
      rewrite <- Zle_Qle. nia. }
    assert (Egap : (b - a) * (inject_Z t1 * inject_Z t2)
                   == inject_Z c2 * inject_Z t1 - inject_Z c1 * inject_Z t2).
    { rewrite <- E1, <- E2. ring. }
    assert (Hba : 0 < b - a) by lra.
    nra.
Qed.

Lemma sort_insert_map {A B} (f : A -> B) (cmp : B -> B -> Q) x (l : list A) :
  sort_insert cmp (f x) (map f l)
  = map f (sort_insert (fun a b => cmp (f a) (f b)) x l).
Proof.
  induction l as [|y l IH]; [reflexivity|]. cbn [map sort_insert].
  destruct (Qlt_le_dec 0 (cmp (f x) (f y))); [|reflexivity].
  rewrite IH. reflexivity.
Qed.

Lemma array_sort_map {A B} (f : A -> B) (cmp : B -> B -> Q) (l : list A) :
  array_sort cmp (map f l)
  = map f (array_sort (fun a b => cmp (f a) (f b)) l).
Proof.
  induction l as [|x l IH]; [reflexivity|]. cbn [map array_sort].
  rewrite IH. apply sort_insert_map.
Qed.

Lemma filter_map_comm {A B} (f : A -> B) (P : B -> Prop)
    `{!forall y, Decision (P y)} (l : list A) :
  filter P (map f l) = map f (filter (fun a => P (f a)) l).
Proof.
  induction l as [|x l IH]; [reflexivity|]. cbn [map].
  rewrite !filter_cons, IH. destruct (decide (P (f x))); reflexivity.
Qed.

Lemma entry_sign (x y : string * TopicStat) :
  (countable x /\ (0 < total x.2)%Z) -> (countable y /\ (0 < total y.2)%Z) ->
  (0 < by_accuracy (topic_accuracy x) (topic_accuracy y)
   <-> exact_accuracy y.2 < exact_accuracy x.2).
Proof.
  intros [[Hcx Htx] Hpx] [[Hcy Hty] Hpy].
  rewrite (by_accuracy_sign _ _ (topic_accuracy_on_grid x) (topic_accuracy_on_grid y)).
  unfold topic_accuracy, exact_accuracy. cbn [ta_accuracy].
  assert ((total x.2 >? 0)%Z = true) as -> by lia.
  assert ((total y.2 >? 0)%Z = true) as -> by lia.
  apply jdiv_lt_exact; lia.
Qed.

(** C7 as stated fails: the topics are ranked by the binary64 quotient
    correct/total, and two accuracies that differ can round to one quotient.
    [A] has the lower accuracy, (2^27 - 1) / 2^27 against 2^27 / (2^27 + 1),
    both quotients are 1 - 2^-27, and [B], first in the mapping, is returned
    as the weakest topic. *)
Lemma getWeakestTopics_rounded_tie :
  getWeakestTopics close_topics (Some 1%Z) = ["B"%string]
  /\ map_get (topicBreakdown close_topics) "A"%string
     = Some {| correct := 134217727; total := 134217728 |}
  /\ map_get (topicBreakdown close_topics) "B"%string
     = Some {| correct := 134217728; total := 134217729 |}
  /\ exact_accuracy {| correct := 134217727; total := 134217728 |}
     < exact_accuracy {| correct := 134217728; total := 134217729 |}.
Proof. split; [vm_compute; reflexivity | repeat split]. Qed.

(** C7, amended: for every statistics value and every limit that is not
    negative, [getWeakestTopics] returns the first [limit] names (at most
    [limit] of them) of a ranking that holds exactly the topics with a
    positive total, in ascending order of the binary64 quotient
    correct/total, topics of equal quotient in the order of the mapping.
    When every topic has [0 <= correct <= total < 2^26], this is the
    ascending order of the accuracy correct/total itself, and the topics of
    equal accuracy are in the order of the mapping. *)
Theorem getWeakestTopics_spec stats limit :
  (0 <= limit)%Z ->
  let entries := map_entries (topicBreakdown stats) in
  let attempted_topics :=
    filter (fun t => (0 < ta_total t)%Z) (map topic_accuracy entries) in
  let ranked := ranked_topics stats in
  getWeakestTopics stats (Some limit)
  = map ta_topic (take (Z.to_nat limit) ranked)
  /\ (Z.of_nat (length (getWeakestTopics stats (Some limit))) <= limit)%Z
  /\ ranked ≡ₚ attempted_topics
  /\ (forall t, t ∈ ranked ->
        exists st, (ta_topic t, st) ∈ entries /\ (0 < total st)%Z
                   /\ ta_accuracy t
                      = jdiv (inject_Z (correct st)) (inject_Z (total st)))
  /\ StronglySorted (fun a b => ta_accuracy a <= ta_accuracy b) ranked
  /\ (forall v, filter (fun t => ta_accuracy t == v) ranked
                = filter (fun t => ta_accuracy t == v) attempted_topics)
  /\ (Forall countable entries ->
      let attempted := filter (fun e => (0 < total e.2)%Z) entries in
      exists ordered,
        ranked = map topic_accuracy ordered
        /\ getWeakestTopics stats (Some limit)
           = map fst (take (Z.to_nat limit) ordered)
        /\ ordered ≡ₚ attempted
        /\ StronglySorted
             (fun a b => exact_accuracy a.2 <= exact_accuracy b.2) ordered
        /\ (forall v, filter (fun e => exact_accuracy e.2 == v) ordered
                      = filter (fun e => exact_accuracy e.2 == v) attempted)).
Proof.
  intros Hlimit entries attempted_topics ranked.
  assert (Hperm : ranked ≡ₚ attempted_topics)
    by apply array_sort_Permutation.
  assert (Hget : getWeakestTopics stats (Some limit)
                 = map ta_topic (take (Z.to_nat limit) ranked)).
  { unfold getWeakestTopics. simpl. fold ranked.
    rewrite slice0_nonneg by exact Hlimit. reflexivity. }
  split; [exact Hget|].
  split; [|split; [exact Hperm|split; [|split; [|split]]]].
  - rewrite Hget, length_map, length_take. lia.
  - intros t Ht. rewrite Hperm in Ht.
    apply list_elem_of_filter in Ht as [Hpos Ht].
    apply list_elem_of_In, in_map_iff in Ht as ([name st] & <- & Hin).
    exists st. split; [apply list_elem_of_In; exact Hin|].
    simpl in Hpos. split; [exact Hpos|]. simpl.
    assert ((total st >? 0)%Z = true) as -> by lia. reflexivity.
  - apply (array_sort_sorted ta_accuracy by_accuracy
             (fun t => on_grid (ta_accuracy t)) by_accuracy_sign).
    apply eligible_on_grid.
  - intros v.
    apply (array_sort_stable ta_accuracy by_accuracy
             (fun t => on_grid (ta_accuracy t)) by_accuracy_sign).
    apply eligible_on_grid.
  - intros Hcount attempted.
    set (cmp := fun a b : string * TopicStat =>
                  by_accuracy (topic_accuracy a) (topic_accuracy b)).
    assert (Hranked : ranked = map topic_accuracy (array_sort cmp attempted)).
    { unfold ranked, ranked_topics. fold entries.
      rewrite (filter_map_comm topic_accuracy (fun t => (0 < ta_total t)%Z)).
      rewrite (array_sort_map topic_accuracy by_accuracy). reflexivity. }
    assert (HP : Forall (fun e => countable e /\ (0 < total e.2)%Z) attempted).
    { apply Forall_forall. intros e He.
      apply list_elem_of_filter in He as [Hpos He].
      rewrite Forall_forall in Hcount. split; [apply Hcount; exact He | exact Hpos]. }
    exists (array_sort cmp attempted).
    split; [exact Hranked|]. split.
    { rewrite Hget, Hranked, firstn_map, map_map. reflexivity. }
    split; [apply array_sort_Permutation|]. split.
    + apply (array_sort_sorted (fun e => exact_accuracy e.2) cmp _ entry_sign).
      exact HP.
    + intros v.
      apply (array_sort_stable (fun e => exact_accuracy e.2) cmp _ entry_sign).
      exact HP.
Qed.

Lemma getWeakestTopics_spec_witness :
  getWeakestTopics two_topics (Some 1%Z)
  = map ta_topic (take (Z.to_nat 1) (ranked_topics two_topics)).
Proof.
  apply (getWeakestTopics_spec two_topics 1%Z). lia.
Defined.

(** The test of the repository: the weakest two of wind (80%), solar (30%)
    and energy (50%) are solar and energy. *)
Lemma getWeakestTopics_example :
  getWeakestTopics
    {| totalQuestions := 10; newQuestions := 2; learningQuestions := 3;
       masteredQuestions := 5; overallAccuracy := 3 # 4;
       topicBreakdown :=
         [("wind"%string, {| correct := 8; total := 10 |});
          ("solar"%string, {| correct := 3; total := 10 |});
          ("energy"%string, {| correct := 5; total := 10 |})] |}
    (Some 2%Z)
  = ["solar"%string; "energy"%string].
Proof. vm_compute. reflexivity. Qed.

(* ===================================================================== *)
(** * Part III: further properties of the code *)
(* ===================================================================== *)

(** ** More on binary64 rounding: integers, and the range of a score *)

(** An integer below 2^53 in absolute value is a binary64 value. *)
Lemma fl_Z z : (Z.abs z < 2 ^ 53)%Z -> fl (inject_Z z) == inject_Z z.
Proof.
  intros Hz.
  assert (Hpos : forall m, (0 < m < 2 ^ 53)%Z -> fl (inject_Z m) == inject_Z m).
  { intros m Hm. rewrite <- (Qmult_1_r (inject_Z m)) at 1. change 1 with (pow2 0).
    rewrite fl_fix by (unfold emin; lia). change (pow2 0) with 1. ring. }
  destruct (Z.lt_trichotomy z 0) as [Hn|[->|Hp]].
  - assert (E : inject_Z z == - inject_Z (- z)) by (rewrite inject_Z_opp; ring).
    rewrite E, fl_opp, Hpos by lia. reflexivity.
  - reflexivity.
  - apply Hpos. lia.
Qed.

Lemma Math_round_proper x y : x == y -> Math_round x = Math_round y.
Proof. intros E. unfold Math_round. rewrite E. reflexivity. Qed.

Lemma Math_round_Z z : Math_round (inject_Z z) = z.
Proof.
  unfold Math_round. apply Qfloor_unique.
  - lra.
  - lra.
Qed.

Lemma Math_round_between x a b :
  inject_Z a <= x -> x <= inject_Z b -> (a <= Math_round x <= b)%Z.
Proof.
  intros Ha Hb. rewrite <- (Math_round_Z a), <- (Math_round_Z b).
  split; apply Math_round_mono; assumption.
Qed.

(** The quotient of the correct answers by the questions, rounded, lies in
    [0, 1], and the base score in [0, 100]. *)
Lemma base_score_range c t :
  (0 <= c <= t)%Z -> (0 < t)%Z ->
  0 <= jmul (jdiv (inject_Z c) (inject_Z t)) 100
  /\ jmul (jdiv (inject_Z c) (inject_Z t)) 100 <= 100.
Proof.
  intros Hc Ht. unfold jmul, jdiv.
  assert (Htq : 0 < inject_Z t) by (apply inject_Z_pos; lia).
  assert (Hcq : 0 <= inject_Z c)
    by (change 0 with (inject_Z 0); rewrite <- Zle_Qle; lia).
  assert (Hct : inject_Z c <= inject_Z t) by (rewrite <- Zle_Qle; lia).
  assert (Hq0 : 0 <= inject_Z c / inject_Z t) by (apply Qle_shift_div_l; lra).
  assert (Hq1 : inject_Z c / inject_Z t <= 1) by (apply Qle_shift_div_r; lra).
  assert (F1 : fl 1 == 1) by (apply (fl_Z 1); reflexivity).
  assert (F100 : fl 100 == 100) by (apply (fl_Z 100); reflexivity).
  pose proof (fl_mono _ _ Hq0) as G0. rewrite fl_0 in G0.
  pose proof (fl_mono _ _ Hq1) as G1. rewrite F1 in G1.
  split.
  - rewrite <- fl_0. apply fl_mono. lra.
  - rewrite <- F100 at 2. apply fl_mono. lra.
Qed.

Lemma untimed_score_range_aux c t e m :
  m <> Timed -> (0 <= c <= t)%Z -> (0 < t)%Z ->
  (0 <= calculateScore c t e m <= 100)%Z.
Proof.
  intros Hm Hc Ht.
  assert (Heq : calculateScore c t e m
                = Math_round (jmul (jdiv (inject_Z c) (inject_Z t)) 100)).
  { destruct m; try contradiction; reflexivity. }
  rewrite Heq. destruct (base_score_range c t Hc Ht) as [H0 H100].
  apply Math_round_between; assumption.
Qed.

(** X1: in the untimed modes the score of [c] correct answers out of [t]
    lies between 0 and 100; it is 100 when every answer is correct and 0 when
    none is. *)
Theorem untimed_score_range c t e m :
  m <> Timed -> (0 <= c <= t)%Z -> (0 < t)%Z ->
  (0 <= calculateScore c t e m <= 100)%Z
  /\ calculateScore t t e m = 100%Z
  /\ calculateScore 0 t e m = 0%Z.
Proof.
  intros Hm Hc Ht.
  assert (Heq : forall c', calculateScore c' t e m
                = Math_round (jmul (jdiv (inject_Z c') (inject_Z t)) 100)).
  { intros c'. destruct m; try contradiction; reflexivity. }
  rewrite !Heq.
  assert (Htq : 0 < inject_Z t) by (apply inject_Z_pos; lia).
  split; [|split].
  - rewrite <- Heq. apply untimed_score_range_aux; assumption.
  - unfold jmul, jdiv.
    assert (E : inject_Z t / inject_Z t == 1) by (field; lra).
    rewrite (Math_round_proper _ 100); [apply (Math_round_Z 100)|].
    rewrite E, (fl_Z 1) by reflexivity.
    assert (E100 : 1 * 100 == 100) by ring. rewrite E100.
    apply (fl_Z 100). reflexivity.
  - unfold jmul, jdiv.
    assert (E : inject_Z 0 / inject_Z t == 0) by (field; lra).
    rewrite (Math_round_proper _ 0); [apply (Math_round_Z 0)|].
    rewrite E, fl_0. assert (E0 : 0 * 100 == 0) by ring. rewrite E0.
    reflexivity.
Qed.

Lemma untimed_score_range_witness :
  (0 <= calculateScore 7 9 0 Quiz <= 100)%Z.
Proof.
  apply (untimed_score_range 7 9 0 Quiz); [discriminate | lia | lia].
Defined.

Lemma Math_max_ge_l a b : a <= Math_max a b.
Proof. rewrite Math_max_spec. apply Q.le_max_l. Qed.

Lemma Math_max_lub a b c : a <= c -> b <= c -> Math_max a b <= c.
Proof. intros Ha Hb. rewrite Math_max_spec. apply Q.max_lub; assumption. Qed.

(** X2: the time bonus never lowers the score, and with a non-negative
    elapsed time the timed score stays within 0 and 120. *)
Theorem timed_score_bounds c t e :
  (0 < t)%Z ->
  (calculateScore c t e Quiz <= calculateScore c t e Timed)%Z
  /\ ((0 <= c <= t)%Z -> 0 <= e ->
      (0 <= calculateScore c t e Timed <= 120)%Z).
Proof.
  intros Ht. unfold calculateScore.
  set (base := jmul (jdiv (inject_Z c) (inject_Z t)) 100).
  set (bonus := Math_max 0 (jsub 20 (jdiv e (inject_Z t)))).
  assert (Hb0 : 0 <= bonus) by apply Math_max_ge_l.
  assert (Hbase : fl base == base) by apply fl_idempotent.
  split.
  - apply Math_round_mono. rewrite <- Hbase at 1. unfold jadd.
    apply fl_mono. lra.
  - intros Hc He. destruct (base_score_range c t Hc Ht) as [B0 B100].
    fold base in B0, B100.
    assert (Htq : 0 < inject_Z t) by (apply inject_Z_pos; lia).
    assert (Havg : 0 <= jdiv e (inject_Z t)).
    { unfold jdiv. rewrite <- fl_0. apply fl_mono.
      apply Qle_shift_div_l; lra. }
    assert (Hb20 : bonus <= 20).
    { apply Math_max_lub; [lra|]. unfold jsub.
      assert (F20 : fl 20 == 20) by (apply (fl_Z 20); reflexivity).
      rewrite <- F20 at 2. apply fl_mono. lra. }
    apply Math_round_between; unfold jadd.
    + change (inject_Z 0) with 0. rewrite <- fl_0. apply fl_mono. lra.
    + assert (F120 : fl 120 == 120) by (apply (fl_Z 120); reflexivity).
      change (inject_Z 120) with 120. rewrite <- F120. apply fl_mono. lra.
Qed.

Lemma timed_score_bounds_witness :
  (calculateScore 7 9 30 Quiz <= calculateScore 7 9 30 Timed)%Z.
Proof. refine (proj1 (timed_score_bounds 7 9 30 _)). lia. Defined.

(** X3: once the average time per question reaches 20 seconds the bonus is
    gone: the timed score is the untimed score. *)
Theorem timed_bonus_expires c t e :
  (0 < t)%Z -> 20 * inject_Z t <= e ->
  calculateScore c t e Timed = calculateScore c t e Quiz.
Proof.
  intros Ht He. unfold calculateScore.
  set (base := jmul (jdiv (inject_Z c) (inject_Z t)) 100).
  assert (Htq : 0 < inject_Z t) by (apply inject_Z_pos; lia).
  assert (Havg : 20 <= jdiv e (inject_Z t)).
  { unfold jdiv. assert (F20 : fl 20 == 20) by (apply (fl_Z 20); reflexivity).
    rewrite <- F20 at 1. apply fl_mono. apply Qle_shift_div_l; lra. }
  assert (Hsub : jsub 20 (jdiv e (inject_Z t)) <= 0).
  { unfold jsub. rewrite <- fl_0. apply fl_mono. lra. }
  assert (Hbonus : Math_max 0 (jsub 20 (jdiv e (inject_Z t))) == 0).
  { apply Qle_antisym; [apply Math_max_lub; lra | apply Math_max_ge_l]. }
  apply Math_round_proper. unfold jadd. rewrite Hbonus.
  assert (E : base + 0 == base) by ring. rewrite E. apply fl_idempotent.
Qed.

Lemma timed_bonus_expires_witness :
  calculateScore 7 10 200 Timed = calculateScore 7 10 200 Quiz.
Proof.
  apply (timed_bonus_expires 7 10 200); [lia | vm_compute; discriminate].
Defined.

(** ** Sessions *)

Lemma count_correct_snoc {T} (answers : list (bool * T)) a :
  count_correct (answers ++ [a])
  = (count_correct answers + if a.1 then 1 else 0)%Z.
Proof.
  unfold count_correct. rewrite filter_app, length_app.
  destruct a as [[|] x]; simpl; lia.
Qed.

Lemma count_wrong_snoc {T} (answers : list (bool * T)) a :
  count_wrong (answers ++ [a])
  = (count_wrong answers + if a.1 then 0 else 1)%Z.
Proof.
  unfold count_wrong. rewrite filter_app, length_app.
  destruct a as [[|] x]; simpl; lia.
Qed.

Lemma count_correct_range {T} (answers : list (bool * T)) :
  (0 <= count_correct answers <= Z.of_nat (length answers))%Z.
Proof.
  unfold count_correct.
  pose proof (length_filter (fun a : bool * T => a.1 = true) answers). lia.
Qed.

Lemma play_snoc s answers a :
  play s (answers ++ [a]) = updateSession (play s answers) a.1 a.2.
Proof. unfold play. rewrite foldl_snoc. reflexivity. Qed.

Lemma play_counters m now answers :
  let s := play (createSession m now) answers in
  mode s = m /\ startTime s = now
  /\ questionsAnswered s = Z.of_nat (length answers)
  /\ correctAnswers s = count_correct answers.
Proof.
  induction answers as [|a answers IH] using rev_ind.
  - repeat split.
  - destruct IH as (Hm & Hs & Hq & Hc).
    rewrite play_snoc. cbn [updateSession set_score answered mode startTime
      questionsAnswered correctAnswers].
    rewrite Hm, Hs, Hq, Hc, count_correct_snoc, length_app. simpl.
    repeat split; try lia.
Qed.

Lemma Zsum_snoc l z : Zsum (l ++ [z]) = (Zsum l + z)%Z.
Proof. unfold Zsum. induction l as [|a l IH]; simpl; lia. Qed.

Lemma Zsum_nonneg l : Forall (fun z => (0 <= z)%Z) l -> (0 <= Zsum l)%Z.
Proof. induction 1; simpl; lia. Qed.

(** Whole seconds add up exactly. *)
Lemma play_whole_seconds m now (answers : list (bool * Q)) (seconds : list Z) :
  map snd answers = map inject_Z seconds ->
  Forall (fun z => (0 <= z)%Z) seconds -> (Zsum seconds < 2 ^ 53)%Z ->
  timeElapsed (play (createSession m now) answers) == inject_Z (Zsum seconds).
Proof.
  revert seconds. induction answers as [|a answers IH] using rev_ind;
    intros seconds Hmap Hpos Hsum.
  - destruct seconds; [reflexivity | discriminate].
  - destruct seconds as [|z seconds _] using rev_ind.
    { rewrite map_app in Hmap. destruct (map snd answers); discriminate. }
    rewrite !map_app in Hmap. simpl in Hmap.
    apply app_inj_tail in Hmap as [Hmap Ha].
    apply Forall_app in Hpos as [Hpos Hz]. apply Forall_cons in Hz as [Hz _].
    rewrite Zsum_snoc in *. pose proof (Zsum_nonneg _ Hpos) as Hs0.
    rewrite play_snoc. cbn [updateSession set_score answered timeElapsed].
    unfold jadd. rewrite (IH seconds Hmap Hpos) by lia. rewrite Ha.
    rewrite <- inject_Z_plus. apply fl_Z. lia.
Qed.

(** X4: a session started by [createSession] and updated once per answer
    keeps its mode and start time, counts the answers and the correct ones,
    carries the score of its own totals, and adds whole seconds up exactly;
    in the untimed modes its score stays within 0 and 100. *)
Theorem session_after_answers m now answers :
  let s := play (createSession m now) answers in
  mode s = m /\ startTime s = now
  /\ questionsAnswered s = Z.of_nat (length answers)
  /\ correctAnswers s = count_correct answers
  /\ (0 <= correctAnswers s <= questionsAnswered s)%Z
  /\ score s
     = (if decide (answers = []) then 0%Z
        else calculateScore (correctAnswers s) (questionsAnswered s)
               (timeElapsed s) m)
  /\ (m <> Timed -> (0 <= score s <= 100)%Z)
  /\ (forall seconds,
        map snd answers = map inject_Z seconds ->
        Forall (fun z => (0 <= z)%Z) seconds -> (Zsum seconds < 2 ^ 53)%Z ->
        timeElapsed s == inject_Z (Zsum seconds)).
Proof.
  intros s. destruct (play_counters m now answers) as (Hm & Hs & Hq & Hc).
  fold s in Hm, Hs, Hq, Hc. pose proof (count_correct_range answers) as Hr.
  assert (Hscore : score s
     = (if decide (answers = []) then 0%Z
        else calculateScore (correctAnswers s) (questionsAnswered s)
               (timeElapsed s) m)).
  { unfold s. destruct answers as [|a answers _] using rev_ind.
    - reflexivity.
    - rewrite decide_False by (destruct answers; discriminate).
      rewrite play_snoc. cbn [updateSession set_score answered score
        correctAnswers questionsAnswered timeElapsed mode].
      destruct (play_counters m now answers) as (Hm' & _). simpl in Hm'.
      rewrite Hm'. reflexivity. }
  split; [exact Hm|]. split; [exact Hs|]. split; [exact Hq|].
  split; [exact Hc|]. split; [lia|]. split; [exact Hscore|]. split.
  - intros Hne. rewrite Hscore. destruct (decide (answers = [])) as [|Hn]; [lia|].
    apply untimed_score_range_aux; [exact Hne | lia |].
    rewrite Hq. destruct answers; [contradiction | simpl; lia].
  - apply play_whole_seconds.
Qed.

(** ** Progress records over time *)

Lemma replay_snoc p outcomes o :
  replay p (outcomes ++ [o]) = updateProgress (replay p outcomes) o.1 o.2.
Proof. unfold replay. rewrite foldl_snoc. reflexivity. Qed.

Lemma replay_counters id now (outcomes : list (bool * Date)) :
  let p := replay (createProgress id now) outcomes in
  questionId p = id
  /\ attempts p = Z.of_nat (length outcomes)
  /\ correctCount p = count_correct outcomes
  /\ incorrectCount p = count_wrong outcomes
  /\ lastAttempted p = default now (last (map snd outcomes))
  /\ mastery p = calculateMastery p.
Proof.
  induction outcomes as [|o outcomes IH] using rev_ind.
  - repeat split.
  - destruct IH as (Hi & Ha & Hc & Hw & Hl & Hm).
    rewrite replay_snoc. cbn [updateProgress set_mastery attempted
      questionId attempts correctCount incorrectCount lastAttempted mastery].
    rewrite Hi, Ha, Hc, Hw, count_correct_snoc, count_wrong_snoc, length_app,
      map_app. cbn [map]. rewrite last_snoc. simpl.
    repeat split; try lia.
Qed.

(** X5: a record created for a question and updated once per outcome keeps
    the question id, counts the outcomes, the correct and the wrong ones,
    carries the time of the last update, and stores the classification of
    its own counters. *)
Theorem progress_after_outcomes id now (outcomes : list (bool * Date)) :
  let p := replay (createProgress id now) outcomes in
  questionId p = id
  /\ attempts p = Z.of_nat (length outcomes)
  /\ correctCount p = count_correct outcomes
  /\ incorrectCount p = count_wrong outcomes
  /\ lastAttempted p = default now (last (map snd outcomes))
  /\ mastery p = calculateMastery p.
Proof. apply replay_counters. Qed.

Lemma count_all_correct {T} (outcomes : list (bool * T)) :
  Forall (fun o => o.1 = true) outcomes ->
  count_correct outcomes = Z.of_nat (length outcomes)
  /\ count_wrong outcomes = 0%Z.
Proof.
  unfold count_correct, count_wrong.
  induction 1 as [|[b x] l Hb _ [IH1 IH2]]; [split; reflexivity|].
  simpl in Hb. subst b.
  rewrite filter_cons_True by reflexivity.
  rewrite filter_cons_False by discriminate. simpl. split; lia.
Qed.

Lemma count_all_wrong {T} (outcomes : list (bool * T)) :
  Forall (fun o => o.1 = false) outcomes ->
  count_correct outcomes = 0%Z
  /\ count_wrong outcomes = Z.of_nat (length outcomes).
Proof.
  unfold count_correct, count_wrong.
  induction 1 as [|[b x] l Hb _ [IH1 IH2]]; [split; reflexivity|].
  simpl in Hb. subst b.
  rewrite filter_cons_False by discriminate.
  rewrite filter_cons_True by reflexivity. simpl. split; lia.
Qed.

(** X6: starting from a fresh record, a run of correct answers is classified
    by its length alone: new below three answers, learning for three and
    four, mastered from five on; a run of wrong answers never goes beyond
    learning. *)
Theorem answer_streaks id now (outcomes : list (bool * Date)) :
  (Z.of_nat (length outcomes) <= 2 ^ 53)%Z ->
  let n := length outcomes in
  let p := replay (createProgress id now) outcomes in
  (Forall (fun o => o.1 = true) outcomes ->
     mastery p = if decide (n < 3)%nat then New
                 else if decide (n < 5)%nat then Learning else Mastered)
  /\ (Forall (fun o => o.1 = false) outcomes ->
       mastery p = if decide (n < 3)%nat then New else Learning).
Proof.
  intros Hn n p.
  destruct (replay_counters id now outcomes)
    as (_ & Ha & Hc & _ & _ & Hm). fold p in Ha, Hc, Hm.
  assert (Hrule : mastery p = mastery_rule (attempts p) (correctCount p)).
  { rewrite Hm. apply calculateMastery_exact. rewrite Ha. exact Hn. }
  rewrite Hrule, Ha, Hc. fold n. unfold mastery_rule. split; intros Hall.
  - rewrite (proj1 (count_all_correct outcomes Hall)). fold n.
    destruct (decide (n < 3)%nat) as [H3|H3].
    { assert ((Z.of_nat n <? 3)%Z = true) as -> by lia. reflexivity. }
    assert ((Z.of_nat n <? 3)%Z = false) as -> by lia.
    destruct (decide (n < 5)%nat) as [H5|H5].
    { assert ((Z.of_nat n <? 5)%Z = true) as -> by lia. reflexivity. }
    assert ((Z.of_nat n <? 5)%Z = false) as -> by lia. simpl.
    assert (Hq : Qle_bool (8 # 10) (inject_Z (Z.of_nat n) / inject_Z (Z.of_nat n))
                 = true).
    { apply Qle_bool_iff.
      assert (0 < inject_Z (Z.of_nat n)) by (apply inject_Z_pos; lia).
      apply Qle_shift_div_l; lra. }
    rewrite Hq. reflexivity.
  - rewrite (proj1 (count_all_wrong outcomes Hall)).
    destruct (decide (n < 3)%nat) as [H3|H3].
    { assert ((Z.of_nat n <? 3)%Z = true) as -> by lia. reflexivity. }
    assert ((Z.of_nat n <? 3)%Z = false) as -> by lia.
    assert (Hq : Qle_bool (8 # 10) (inject_Z 0 / inject_Z (Z.of_nat n)) = false).
    { apply not_true_iff_false. rewrite Qle_bool_iff.
      assert (E : inject_Z 0 / inject_Z (Z.of_nat n) == 0).
      { unfold Qdiv. change (inject_Z 0) with 0. ring. }
      rewrite E. intros H. vm_compute in H. apply H. reflexivity. }
    rewrite Hq. rewrite orb_true_r. reflexivity.
Qed.

Lemma answer_streaks_witness :
  mastery (replay (createProgress "q1" 0)
             [(true, 1%Z); (true, 2%Z); (true, 3%Z); (true, 4%Z); (true, 5%Z)])
  = Mastered.
Proof.
  refine (proj1 (answer_streaks "q1" 0
            [(true, 1%Z); (true, 2%Z); (true, 3%Z); (true, 4%Z); (true, 5%Z)] _) _).
  - vm_compute. discriminate.
  - repeat constructor.
Defined.

(** X7: a correct answer never demotes a mastered question. *)
Theorem correct_answer_keeps_mastered p now :
  (attempts p < 2 ^ 53)%Z ->
  calculateMastery p = Mastered ->
  mastery (updateProgress p true now) = Mastered.
Proof.
  intros Ha Hm. cbn [updateProgress set_mastery mastery].
  rewrite calculateMastery_exact in Hm by lia.
  rewrite calculateMastery_exact by (simpl; lia).
  cbn [attempted attempts correctCount]. unfold mastery_rule in *.
  destruct (attempts p <? 3)%Z eqn:E3; [discriminate|].
  destruct (attempts p <? 5)%Z eqn:E5; [discriminate|]. simpl in Hm.
  destruct (Qle_bool (8 # 10) (inject_Z (correctCount p) / inject_Z (attempts p)))
    eqn:Eq; [|discriminate].
  assert ((attempts p + 1 <? 3)%Z = false) as -> by lia.
  assert ((attempts p + 1 <? 5)%Z = false) as -> by lia. simpl.
  apply Qle_bool_iff in Eq.
  assert (Hq : Qle_bool (8 # 10)
                 (inject_Z (correctCount p + 1) / inject_Z (attempts p + 1)) = true).
  { apply Qle_bool_iff.
    assert (Hap : 0 < inject_Z (attempts p)) by (apply inject_Z_pos; lia).
    assert (Hc : (8 # 10) * inject_Z (attempts p) <= inject_Z (correctCount p)).
    { assert (Ediv : inject_Z (correctCount p) / inject_Z (attempts p)
                     * inject_Z (attempts p) == inject_Z (correctCount p))
        by (field; lra).
      rewrite <- Ediv. apply Qmult_le_compat_r; lra. }
    apply Qle_shift_div_l.
    - apply inject_Z_pos. lia.
    - rewrite !inject_Z_plus. change (inject_Z 1) with 1. lra. }
  rewrite Hq. reflexivity.
Qed.

Lemma correct_answer_keeps_mastered_witness :
  mastery (updateProgress five_correct true 6) = Mastered.
Proof.
  apply (correct_answer_keeps_mastered five_correct 6).
  - vm_compute. reflexivity.
  - vm_compute. reflexivity.
Defined.

(** The rule in integers: mastered means at least five attempts, four fifths
    of them correct. *)
Lemma mastery_rule_Mastered a c :
  mastery_rule a c = Mastered <-> (5 <= a /\ 4 * a <= 5 * c)%Z.
Proof.
  unfold mastery_rule.
  destruct (a <? 3)%Z eqn:E3; [split; [discriminate | lia]|].
  destruct (a <? 5)%Z eqn:E5; [split; [discriminate | lia]|]. simpl.
  assert (Haq : 0 < inject_Z a) by (apply inject_Z_pos; lia).
  assert (Hiff : 8 # 10 <= inject_Z c / inject_Z a <-> (4 * a <= 5 * c)%Z).
  { rewrite Zle_Qle, !inject_Z_mult.
    change (inject_Z 4) with 4. change (inject_Z 5) with 5.
    assert (Ediv : inject_Z c / inject_Z a * inject_Z a == inject_Z c)
      by (field; lra).
    split; intros H.
    - assert ((8 # 10) * inject_Z a <= inject_Z c).
      { rewrite <- Ediv. apply Qmult_le_compat_r; lra. }
      lra.
    - apply Qle_shift_div_l; lra. }
  destruct (Qle_bool (8 # 10) (inject_Z c / inject_Z a)) eqn:Eq; simpl.
  - apply Qle_bool_iff in Eq. split; [intros _; split; [lia | tauto] | reflexivity].
  - split; [discriminate|]. intros [_ H]. apply Hiff, Qle_bool_iff in H. congruence.
Qed.

(** X8: a wrong answer can complete the fifth attempt of a question answered
    correctly four times out of four, and this is the only way a wrong answer
    makes a question mastered. *)
Theorem wrong_answer_masters_iff p now :
  (0 <= correctCount p <= attempts p)%Z -> (attempts p < 2 ^ 53)%Z ->
  calculateMastery p <> Mastered ->
  (mastery (updateProgress p false now) = Mastered
   <-> attempts p = 4%Z /\ correctCount p = 4%Z).
Proof.
  intros Hc Ha Hm. cbn [updateProgress set_mastery mastery].
  rewrite calculateMastery_exact in Hm by lia.
  rewrite calculateMastery_exact by (simpl; lia).
  cbn [attempted attempts correctCount].
  rewrite mastery_rule_Mastered in Hm. rewrite mastery_rule_Mastered. lia.
Qed.

Lemma wrong_answer_masters_iff_witness :
  mastery (updateProgress
             (replay (createProgress "q1" 0)
                [(true, 1%Z); (true, 2%Z); (true, 3%Z); (true, 4%Z)])
             false 5) = Mastered.
Proof.
  apply (wrong_answer_masters_iff
           (replay (createProgress "q1" 0)
              [(true, 1%Z); (true, 2%Z); (true, 3%Z); (true, 4%Z)]) 5).
  - vm_compute. split; discriminate.
  - vm_compute. reflexivity.
  - vm_compute. discriminate.
  - vm_compute. split; reflexivity.
Defined.

(** ** Maps: keys and entries *)

Section JsMapEntries.
Context {K V : Type} `{EqDecision K}.
Implicit Types (m : JsMap K V) (k : K) (v : V).

Lemma map_get_Some_elem m k v : map_get m k = Some v -> (k, v) ∈ m.
Proof.
  induction m as [|[k' v'] m IH]; simpl; [discriminate|].
  destruct (decide (k = k')) as [->|Hne].
  - intros [= ->]. left.
  - intros H. right. apply IH. exact H.
Qed.

Lemma map_get_None_keys m k : map_get m k = None <-> k ∉ map_keys m.
Proof.
  unfold map_keys. induction m as [|[k' v'] m IH]; simpl.
  - split; [intros _; apply not_elem_of_nil | reflexivity].
  - rewrite not_elem_of_cons. destruct (decide (k = k')) as [->|Hne].
    + split; [discriminate | intros [H _]; contradiction].
    + rewrite IH. tauto.
Qed.

Lemma map_keys_set m k v :
  map_keys (map_set m k v)
  = if decide (k ∈ map_keys m) then map_keys m else map_keys m ++ [k].
Proof.
  unfold map_keys. induction m as [|[k' v'] m IH].
  - cbn [map_set map]. destruct (decide (k ∈ [])) as [Hin|_]; [|reflexivity].
    apply elem_of_nil in Hin. contradiction.
  - cbn [map_set map fst]. destruct (decide (k = k')) as [->|Hne].
    + cbn [map fst]. destruct (decide (k' ∈ k' :: map fst m)) as [|Hn];
        [reflexivity|]. exfalso. apply Hn. left.
    + cbn [map fst]. rewrite IH.
      destruct (decide (k ∈ map fst m)) as [Hin|Hnin];
        destruct (decide (k ∈ k' :: map fst m)) as [Hin'|Hnin'];
        try reflexivity.
      * exfalso. apply Hnin'. right. exact Hin.
      * exfalso. apply elem_of_cons in Hin' as [|]; contradiction.
Qed.

Lemma map_set_NoDup m k v : NoDup (map_keys m) -> NoDup (map_keys (map_set m k v)).
Proof.
  intros H. rewrite map_keys_set. destruct (decide (k ∈ map_keys m)) as [|Hn].
  - exact H.
  - apply NoDup_app. split; [exact H|]. split.
    + intros x Hx Hx'. apply list_elem_of_singleton in Hx'. subst x. contradiction.
    + apply NoDup_singleton.
Qed.

Lemma elem_map_get m k v : NoDup (map_keys m) -> (k, v) ∈ m -> map_get m k = Some v.
Proof.
  unfold map_keys. induction m as [|[k' v'] m IH]; simpl; intros Hnd Hin.
  - apply elem_of_nil in Hin. contradiction.
  - apply NoDup_cons in Hnd as [Hk' Hnd].
    apply elem_of_cons in Hin as [[= -> ->]|Hin].
    + rewrite decide_True by reflexivity. reflexivity.
    + destruct (decide (k = k')) as [->|Hne].
      * exfalso. apply Hk'. apply list_elem_of_In, in_map_iff.
        exists (k', v). split; [reflexivity | apply list_elem_of_In; exact Hin].
      * apply IH; assumption.
Qed.

Lemma map_of_entries_NoDup (es : list (K * V)) : NoDup (map_keys (map_of_entries es)).
Proof.
  induction es as [|[k v] es IH] using rev_ind.
  - apply NoDup_nil_2.
  - rewrite map_of_entries_snoc. apply map_set_NoDup. exact IH.
Qed.

End JsMapEntries.

(** ** getQuestionsNeedingReview, resetAllProgress *)

Lemma needs_review_record progressList q :
  needs_review (map_of_entries (map (fun p => (questionId p, p)) progressList)) q
  = match record_of progressList q with
    | None => true
    | Some p => negb (bool_decide (mastery p = Mastered))
    end.
Proof. unfold needs_review. rewrite progressMap_get. reflexivity. Qed.

(** X9: the questions needing review are the catalog questions without a
    record or with a record that is not mastered, in catalog order; without
    any record the whole catalog needs review. *)
Theorem getQuestionsNeedingReview_spec catalog progressList :
  getQuestionsNeedingReview catalog progressList `sublist_of` catalog
  /\ (forall q, q ∈ getQuestionsNeedingReview catalog progressList
                <-> q ∈ catalog
                    /\ (forall p, record_of progressList q = Some p ->
                                  mastery p <> Mastered))
  /\ getQuestionsNeedingReview catalog [] = catalog.
Proof.
  unfold getQuestionsNeedingReview. split; [apply sublist_filter|]. split.
  - intros q. rewrite list_elem_of_filter, needs_review_record.
    destruct (record_of progressList q) as [p|].
    + rewrite negb_true_iff, bool_decide_eq_false. split.
      * intros [Hm Hq]. split; [exact Hq|]. intros p' [= <-]. exact Hm.
      * intros [Hq Hm]. split; [apply Hm; reflexivity | exact Hq].
    + split; [intros [_ Hq]; split; [exact Hq | discriminate] | tauto].
  - apply filter_all. intros q. reflexivity.
Qed.

Lemma recorded_cons progressList q catalog :
  recorded progressList (q :: catalog)
  = match record_of progressList q with
    | Some p => (q, p) :: recorded progressList catalog
    | None => recorded progressList catalog
    end.
Proof. unfold recorded. simpl. destruct (record_of progressList q); reflexivity. Qed.

Lemma catalog_partition progressList catalog :
  let rs := recorded progressList catalog in
  (unrecorded progressList catalog + with_mastery New rs
   + with_mastery Learning rs + with_mastery Mastered rs
   = Z.of_nat (length catalog))%Z
  /\ Z.of_nat (length (getQuestionsNeedingReview catalog progressList))
     = (unrecorded progressList catalog + with_mastery New rs
        + with_mastery Learning rs)%Z.
Proof.
  unfold getQuestionsNeedingReview, unrecorded, with_mastery.
  induction catalog as [|q catalog [IH1 IH2]]; [split; reflexivity|].
  rewrite recorded_cons. rewrite !(filter_cons _ q), needs_review_record.
  destruct (record_of progressList q) as [p|] eqn:Hr.
  - rewrite decide_False by discriminate.
    rewrite !(filter_cons _ (q, p)). cbn [snd].
    destruct (mastery p) eqn:Hm;
      repeat (first [rewrite decide_True by reflexivity
                    | rewrite decide_False by discriminate]);
      simpl in *; split; lia.
  - rewrite !decide_True by reflexivity. simpl in *. split; lia.
Qed.

(** X10: the three mastery counts of the statistics add up to the size of the
    catalog, and the questions needing review are as many as the new and the
    learning ones together. *)
Theorem stats_partition progressList catalog :
  let stats := calculateStats progressList catalog in
  (newQuestions stats + learningQuestions stats + masteredQuestions stats
   = totalQuestions stats)%Z
  /\ Z.of_nat (length (getQuestionsNeedingReview catalog progressList))
     = (newQuestions stats + learningQuestions stats)%Z.
Proof.
  intros stats.
  destruct (stats_fold_agree progressList catalog) as (Hn & Hl & Hm & _).
  destruct (catalog_partition progressList catalog) as [P1 P2].
  unfold stats, calculateStats. cbn [totalQuestions newQuestions
    learningQuestions masteredQuestions].
  rewrite Hn, Hl, Hm. split; lia.
Qed.

Lemma record_of_elem progressList q p :
  record_of progressList q = Some p -> p ∈ progressList /\ questionId p = qid q.
Proof.
  unfold record_of. intros H. apply last_Some in H as [l' Hl'].
  assert (Hin : p ∈ filter (fun p => questionId p = qid q) progressList).
  { rewrite Hl'. apply elem_of_app. right. left. }
  apply list_elem_of_filter in Hin as [Hid Hin]. split; assumption.
Qed.

Lemma recorded_elem progressList catalog r :
  r ∈ recorded progressList catalog ->
  r.1 ∈ catalog /\ record_of progressList r.1 = Some r.2.
Proof.
  unfold recorded. intros H. apply list_elem_of_omap in H as (q & Hq & Hr).
  destruct (record_of progressList q) as [p|] eqn:E; [|discriminate].
  injection Hr as <-. split; assumption.
Qed.

Section JsMapValues.
Context {K V : Type} `{EqDecision K}.
Implicit Types (m : JsMap K V) (k : K) (v : V).

Lemma map_set_Forall_entries (P : K * V -> Prop) m k v :
  Forall P m -> P (k, v) -> Forall P (map_set m k v).
Proof.
  intros Hm Hv. induction m as [|[k' v'] m IH]; simpl.
  - constructor; [exact Hv | constructor].
  - apply Forall_cons in Hm as [Hv' Hm].
    destruct (decide (k = k')) as [->|Hne].
    + constructor; [exact Hv | exact Hm].
    + constructor; [exact Hv' | apply IH; exact Hm].
Qed.

Lemma map_set_Forall (P : V -> Prop) m k v :
  Forall (fun e => P e.2) m -> P v -> Forall (fun e => P e.2) (map_set m k v).
Proof. intros Hm Hv. apply map_set_Forall_entries; assumption. Qed.

Lemma map_set_fresh m k v : k ∉ map_keys m -> map_set m k v = m ++ [(k, v)].
Proof.
  unfold map_keys. induction m as [|[k' v'] m IH]; intros Hk; [reflexivity|].
  cbn [map fst] in Hk. apply not_elem_of_cons in Hk as [Hne Hk].
  cbn [map_set]. rewrite decide_False by exact Hne.
  cbn [app]. f_equal. apply IH. exact Hk.
Qed.

(** A map built from its own entries is the map again. *)
Lemma map_of_entries_id m : NoDup (map_keys m) -> map_of_entries m = m.
Proof.
  unfold map_keys. induction m as [|[k v] m IH] using rev_ind; intros Hnd;
    [reflexivity|].
  rewrite map_app in Hnd. apply NoDup_app in Hnd as (Hm & Hk & _).
  rewrite map_of_entries_snoc, (IH Hm). apply map_set_fresh.
  intros Hin. apply (Hk k Hin). left.
Qed.

Lemma map_get_Forall (P : V -> Prop) m k v :
  Forall (fun e => P e.2) m -> map_get m k = Some v -> P v.
Proof.
  intros Hm Hg. apply map_get_Some_elem in Hg.
  rewrite Forall_forall in Hm. apply (Hm (k, v)). exact Hg.
Qed.

End JsMapValues.

(** An invariant of the topic breakdown along the loop of [calculateStats]:
    the topics stay distinct, and a property of the entries that the empty
    entry has and that adding a record keeps holds of every entry. *)
Lemma stats_fold_breakdown progressMap
    (R : UserProgress -> Prop) (P : TopicStat -> Prop) :
  P {| correct := 0; total := 0 |} ->
  (forall s p, P s -> R p ->
     P {| correct := correct s + correctCount p; total := total s + attempts p |}) ->
  (forall q p, map_get progressMap (qid q) = Some p -> R p) ->
  forall catalog acc,
    Forall (fun e => P e.2) (breakdown acc) ->
    NoDup (map_keys (breakdown acc)) ->
    Forall (fun e => P e.2) (breakdown (foldl (stats_step progressMap) acc catalog))
    /\ NoDup (map_keys (breakdown (foldl (stats_step progressMap) acc catalog))).
Proof.
  intros P0 Padd HR catalog.
  induction catalog as [|q catalog IH] using rev_ind; intros acc HP Hnd;
    [split; assumption|].
  rewrite foldl_snoc. destruct (IH acc HP Hnd) as [HP' Hnd']. clear IH.
  set (acc' := foldl (stats_step progressMap) acc catalog) in *.
  unfold stats_step. destruct (map_get progressMap (qid q)) as [p|] eqn:Hp;
    cbn [breakdown]; [|split; assumption].
  destruct (truthy_string (topic q)); [|split; assumption].
  split; [|apply map_set_NoDup; exact Hnd'].
  apply map_set_Forall; [exact HP'|]. apply Padd; [|apply (HR q); exact Hp].
  destruct (map_get (breakdown acc') (default ""%string (topic q))) as [s|] eqn:Hs;
    cbn [default from_option id].
  - apply (map_get_Forall P _ _ _ HP' Hs).
  - exact P0.
Qed.

Lemma calculateStats_breakdown progressList catalog
    (R : UserProgress -> Prop) (P : TopicStat -> Prop) :
  P {| correct := 0; total := 0 |} ->
  (forall s p, P s -> R p ->
     P {| correct := correct s + correctCount p; total := total s + attempts p |}) ->
  Forall R progressList ->
  Forall (fun e => P e.2) (topicBreakdown (calculateStats progressList catalog))
  /\ NoDup (map_keys (topicBreakdown (calculateStats progressList catalog))).
Proof.
  intros P0 Padd HR. unfold calculateStats. cbn [topicBreakdown].
  apply (stats_fold_breakdown _ R P P0 Padd).
  - intros q p Hp. rewrite progressMap_get in Hp.
    apply record_of_elem in Hp as [Hin _].
    rewrite Forall_forall in HR. apply HR. exact Hin.
  - constructor.
  - apply NoDup_nil_2.
Qed.

Lemma jdiv_unit_range a b :
  (0 <= a <= b)%Z -> (0 < b)%Z ->
  0 <= jdiv (inject_Z a) (inject_Z b) <= 1.
Proof.
  intros Ha Hb. unfold jdiv.
  assert (Hb' : 0 < inject_Z b) by (apply inject_Z_pos; exact Hb).
  assert (Ha0 : 0 <= inject_Z a) by (change 0 with (inject_Z 0); rewrite <- Zle_Qle; lia).
  assert (Hab : inject_Z a <= inject_Z b) by (rewrite <- Zle_Qle; lia).
  split.
  - rewrite <- fl_0. apply fl_mono. apply Qle_shift_div_l; [exact Hb'|]. lra.
  - assert (E1 : fl 1 == 1) by (apply (fl_Z 1); reflexivity).
    rewrite <- E1. apply fl_mono. apply Qle_shift_div_r; [exact Hb'|]. lra.
Qed.

Lemma sums_range progressList catalog :
  Forall (fun p => (0 <= correctCount p <= attempts p)%Z) progressList ->
  (0 <= sum_correct (recorded progressList catalog)
     <= sum_attempts (recorded progressList catalog))%Z.
Proof.
  intros HR.
  assert (Hrs : Forall (fun r => (0 <= correctCount r.2 <= attempts r.2)%Z)
                  (recorded progressList catalog)).
  { apply Forall_forall. intros r Hr. apply recorded_elem in Hr as [_ Hr].
    apply record_of_elem in Hr as [Hin _].
    rewrite Forall_forall in HR. apply HR. exact Hin. }
  induction Hrs as [|r rs Hr _ IH]; simpl; lia.
Qed.

(** X11: when every record has [0 <= correctCount <= attempts], the overall
    accuracy of the statistics lies between 0 and 1, and every entry of the
    topic breakdown has [0 <= correct <= total]. *)
Theorem calculateStats_ranges progressList catalog :
  Forall (fun p => (0 <= correctCount p <= attempts p)%Z) progressList ->
  let stats := calculateStats progressList catalog in
  0 <= overallAccuracy stats <= 1
  /\ (forall t st, map_get (topicBreakdown stats) t = Some st ->
        (0 <= correct st <= total st)%Z).
Proof.
  intros HR stats. split.
  - destruct (stats_fold_agree progressList catalog) as (_ & _ & _ & Hc & Ha & _).
    pose proof (sums_range progressList catalog HR) as Hs.
    unfold stats, calculateStats. cbn [overallAccuracy].
    rewrite Hc, Ha.
    destruct (sum_attempts (recorded progressList catalog) >? 0)%Z eqn:E.
    + apply jdiv_unit_range; [exact Hs | lia].
    + split; [apply Qle_refl | discriminate].
  - intros t st Hg.
    destruct (calculateStats_breakdown progressList catalog
                (fun p => (0 <= correctCount p <= attempts p)%Z)
                (fun s => (0 <= correct s <= total s)%Z)) as [HP _].
    + simpl. lia.
    + intros s p Hs Hp. simpl. lia.
    + exact HR.
    + apply (map_get_Forall (fun s => (0 <= correct s <= total s)%Z) _ _ _ HP Hg).
Qed.

Lemma calculateStats_ranges_witness :
  0 <= overallAccuracy (calculateStats wind_progress wind_catalog) <= 1
  /\ (forall t st,
        map_get (topicBreakdown (calculateStats wind_progress wind_catalog)) t
        = Some st -> (0 <= correct st <= total st)%Z).
Proof.
  apply (calculateStats_ranges wind_progress wind_catalog).
  unfold wind_progress. repeat constructor; simpl; lia.
Defined.

Lemma NoDup_map_submseteq {A B} (f : A -> B) (l l' : list A) :
  l' ⊆+ l -> NoDup (map f l) -> NoDup (map f l').
Proof.
  intros Hsub Hnd. apply submseteq_Permutation in Hsub as [k Hk].
  assert (Hp : map f l ≡ₚ map f l' ++ map f k).
  { rewrite <- map_app. apply Permutation_map. exact Hk. }
  rewrite Hp in Hnd. apply NoDup_app in Hnd as [Hnd _]. exact Hnd.
Qed.

Lemma weakest_candidates stats limit :
  slice0 (ranked_topics stats) limit
  ⊆+ map topic_accuracy (map_entries (topicBreakdown stats)).
Proof.
  etrans; [apply slice0_submseteq|]. unfold ranked_topics.
  rewrite array_sort_Permutation. apply sublist_submseteq, sublist_filter.
Qed.

Lemma topic_names (m : JsMap string TopicStat) :
  map ta_topic (map topic_accuracy (map_entries m)) = map_keys m.
Proof. unfold map_entries, map_keys. rewrite map_map. reflexivity. Qed.

(** X12: the names [getWeakestTopics] returns for the statistics of a progress
    list are pairwise distinct, none is the empty string, and each is the
    topic of a catalog question that has a record. *)
Theorem weakest_topics_of_stats progressList catalog limit :
  let names := getWeakestTopics (calculateStats progressList catalog) limit in
  NoDup names
  /\ (forall t, t ∈ names ->
        t <> ""%string
        /\ exists q p, q ∈ catalog /\ topic q = Some t
                       /\ record_of progressList q = Some p).
Proof.
  intros names. unfold names, getWeakestTopics.
  set (stats := calculateStats progressList catalog).
  pose proof (weakest_candidates stats (default 3%Z limit)) as Hsub.
  destruct (calculateStats_breakdown progressList catalog
              (fun _ => True) (fun _ => True) I (fun _ _ _ _ => I)) as [_ Hnd].
  { apply Forall_forall. intros; exact I. }
  fold stats in Hnd. split.
  - apply (NoDup_map_submseteq _ _ _ Hsub). rewrite topic_names. exact Hnd.
  - intros t Ht. apply list_elem_of_In, in_map_iff in Ht as (ta & <- & Hta).
    apply list_elem_of_In in Hta.
    apply (elem_of_submseteq _ _ _ Hta) in Hsub.
    apply list_elem_of_In, in_map_iff in Hsub as ([name st] & <- & Hin).
    apply list_elem_of_In in Hin. cbn [topic_accuracy ta_topic fst].
    apply (elem_map_get _ _ _ Hnd) in Hin.
    destruct (stats_fold_agree progressList catalog)
      as (_ & _ & _ & _ & _ & Htopics & Hempty).
    unfold stats, calculateStats in Hin. cbn [topicBreakdown] in Hin.
    assert (Hne : name <> ""%string).
    { intros ->. rewrite Hempty in Hin. discriminate. }
    split; [exact Hne|].
    rewrite (Htopics name Hne) in Hin. unfold topic_totals in Hin.
    destruct (filter (fun r => topic r.1 = Some name)
                (recorded progressList catalog)) as [|r rs'] eqn:Hf;
      [discriminate|].
    assert (Hr : r ∈ filter (fun r => topic r.1 = Some name)
                     (recorded progressList catalog)) by (rewrite Hf; left).
    apply list_elem_of_filter in Hr as [Htopic Hr].
    apply recorded_elem in Hr as [Hq Hrec].
    exists r.1, r.2. repeat split; assumption.
Qed.

Lemma resetAllProgress_zeroed progressList now :
  Forall zeroed (resetAllProgress progressList now).
Proof.
  unfold resetAllProgress. revert now.
  induction progressList as [|p l IH]; intros now; [constructor|].
  cbn [imap]. constructor; [repeat split | apply IH].
Qed.

Lemma zeroed_stats progressList catalog limit :
  Forall zeroed progressList ->
  let stats := calculateStats progressList catalog in
  newQuestions stats = Z.of_nat (length catalog)
  /\ learningQuestions stats = 0%Z
  /\ masteredQuestions stats = 0%Z
  /\ overallAccuracy stats = 0
  /\ getWeakestTopics stats limit = []
  /\ getQuestionsNeedingReview catalog progressList = catalog.
Proof.
  intros Hz stats.
  assert (Hrec : forall q p, record_of progressList q = Some p -> zeroed p).
  { intros q p Hp. apply record_of_elem in Hp as [Hin _].
    rewrite Forall_forall in Hz. apply Hz. exact Hin. }
  assert (Hreview : getQuestionsNeedingReview catalog progressList = catalog).
  { unfold getQuestionsNeedingReview. apply filter_all. intros q.
    rewrite needs_review_record.
    destruct (record_of progressList q) as [p|] eqn:Hp; [|reflexivity].
    destruct (Hrec q p Hp) as (_ & _ & _ & Hm). rewrite Hm. reflexivity. }
  destruct (catalog_partition progressList catalog) as [P1 _].
  destruct (stats_fold_agree progressList catalog)
    as (Hn & Hl & Hm & _ & Ha & _).
  set (rs := recorded progressList catalog) in *.
  assert (Hrs : Forall (fun r => zeroed r.2) rs).
  { apply Forall_forall. intros r Hr. apply recorded_elem in Hr as [_ Hr].
    apply (Hrec _ _ Hr). }
  assert (HL : with_mastery Learning rs = 0%Z).
  { unfold with_mastery. clear -Hrs. induction Hrs as [|r l Hr _ IH]; [reflexivity|].
    destruct Hr as (_ & _ & _ & Hr). rewrite filter_cons_False by congruence.
    exact IH. }
  assert (HM : with_mastery Mastered rs = 0%Z).
  { unfold with_mastery. clear -Hrs. induction Hrs as [|r l Hr _ IH]; [reflexivity|].
    destruct Hr as (_ & _ & _ & Hr). rewrite filter_cons_False by congruence.
    exact IH. }
  assert (HA : sum_attempts rs = 0%Z).
  { clear -Hrs. induction Hrs as [|r l Hr _ IH]; [reflexivity|].
    destruct Hr as (Hr & _). simpl. lia. }
  assert (Hlearn : learningQuestions stats = 0%Z).
  { unfold stats, calculateStats. cbn [learningQuestions]. rewrite Hl. exact HL. }
  assert (Hmast : masteredQuestions stats = 0%Z).
  { unfold stats, calculateStats. cbn [masteredQuestions]. rewrite Hm. exact HM. }
  split; [|split; [exact Hlearn|split; [exact Hmast|split; [|split; [|exact Hreview]]]]].
  - unfold stats, calculateStats. cbn [newQuestions]. rewrite Hn. lia.
  - unfold stats, calculateStats. cbn [overallAccuracy]. rewrite Ha, HA.
    reflexivity.
  - destruct (calculateStats_breakdown progressList catalog zeroed
                (fun s => total s = 0%Z)) as [HP _].
    + reflexivity.
    + intros s p Hs (Hp & _). simpl. lia.
    + exact Hz.
    + fold stats in HP. unfold getWeakestTopics, ranked_topics.
      assert (Hnone : filter (fun t => (0 < ta_total t)%Z)
                        (map topic_accuracy (map_entries (topicBreakdown stats))) = []).
      { unfold map_entries. induction HP as [|e l He _ IH]; [reflexivity|].
        cbn [map]. rewrite filter_cons_False; [exact IH|].
        cbn [topic_accuracy ta_total]. lia. }
      rewrite Hnone. cbn [array_sort]. unfold slice0. rewrite take_nil.
      reflexivity.
Qed.

(** X13: [resetAllProgress] keeps the number and the question ids of the
    records and zeroes every record; afterwards the statistics count every
    catalog question as new, the overall accuracy is 0, no topic is reported
    as weakest, and every catalog question needs review. *)
Theorem reset_all_then_stats progressList now catalog limit :
  let fresh := resetAllProgress progressList now in
  let stats := calculateStats fresh catalog in
  length fresh = length progressList
  /\ map questionId fresh = map questionId progressList
  /\ Forall zeroed fresh
  /\ newQuestions stats = totalQuestions stats
  /\ learningQuestions stats = 0%Z
  /\ masteredQuestions stats = 0%Z
  /\ overallAccuracy stats = 0
  /\ getWeakestTopics stats limit = []
  /\ getQuestionsNeedingReview catalog fresh = catalog.
Proof.
  intros fresh stats.
  split; [apply length_imap|]. split.
  { unfold fresh, resetAllProgress. clear. revert now.
    induction progressList as [|p l IH]; intros now; [reflexivity|].
    cbn [imap map]. f_equal. apply IH. }
  split; [apply resetAllProgress_zeroed|].
  apply (zeroed_stats fresh catalog limit), resetAllProgress_zeroed.
Qed.

(** ** sortByMasteryPriority *)

Lemma on_grid_Z z : (Z.abs z < 2 ^ 53)%Z -> on_grid (inject_Z z).
Proof.
  intros Hz. destruct (fl_on_grid (inject_Z z)) as [k Hk]. exists k.
  rewrite <- Hk. symmetry. apply fl_Z. exact Hz.
Qed.

Lemma priority_on_grid m : on_grid (priority m).
Proof.
  destruct m; [apply (on_grid_Z 0) | apply (on_grid_Z 1) | apply (on_grid_Z 2)];
    reflexivity.
Qed.

Lemma by_priority_sign progressMap a b :
  0 < by_priority progressMap a b
  <-> priority (mastery_or_new progressMap b) < priority (mastery_or_new progressMap a).
Proof. apply jsub_pos_iff; apply priority_on_grid. Qed.

Lemma priority_inj m v : priority m == priority v <-> m = v.
Proof.
  split; [|intros ->; reflexivity].
  destruct m, v; intros H; try reflexivity; exfalso; revert H; unfold priority; lra.
Qed.

(** A list in ascending order of priority is the new elements, then the
    learning ones, then the mastered ones. *)
Lemma sorted_by_priority {A} (level : A -> MasteryLevel) (l : list A) :
  StronglySorted (fun a b => priority (level a) <= priority (level b)) l ->
  l = filter (fun a => level a = New) l
      ++ filter (fun a => level a = Learning) l
      ++ filter (fun a => level a = Mastered) l.
Proof.
  intros Hs. induction Hs as [|x l Hs IH Hx]; [reflexivity|].
  rewrite !(filter_cons _ x).
  destruct (level x) eqn:Ex.
  - repeat case_decide; try congruence.
    cbn [app]. f_equal. exact IH.
  - assert (Hn : filter (fun a => level a = New) l = []).
    { clear -Hx. induction Hx as [|y l Hy _ IH]; [reflexivity|].
      rewrite filter_cons_False; [exact IH|].
      intros E. rewrite E in Hy. unfold priority in Hy. lra. }
    repeat case_decide; try congruence.
    rewrite Hn in IH |- *. cbn [app] in IH |- *. f_equal. exact IH.
  - assert (Hn : filter (fun a => level a = New) l = []).
    { clear -Hx. induction Hx as [|y l Hy _ IH]; [reflexivity|].
      rewrite filter_cons_False; [exact IH|].
      intros E. rewrite E in Hy. unfold priority in Hy. lra. }
    assert (Hl : filter (fun a => level a = Learning) l = []).
    { clear -Hx. induction Hx as [|y l Hy _ IH]; [reflexivity|].
      rewrite filter_cons_False; [exact IH|].
      intros E. rewrite E in Hy. unfold priority in Hy. lra. }
    repeat case_decide; try congruence.
    rewrite Hn, Hl in IH |- *. cbn [app] in IH |- *. f_equal. exact IH.
Qed.

Lemma filter_priority_level {A} (level : A -> MasteryLevel) v (l : list A) :
  filter (fun a => priority (level a) == priority v) l
  = filter (fun a => level a = v) l.
Proof.
  induction l as [|x l IH]; [reflexivity|].
  rewrite !(filter_cons _ x), IH.
  destruct (decide (priority (level x) == priority v)) as [E|N];
    destruct (decide (level x = v)) as [E'|N']; try reflexivity.
  - apply priority_inj in E. contradiction.
  - exfalso. apply N. rewrite E'. reflexivity.
Qed.

(** X14: [sortByMasteryPriority] returns the questions that are new (or have
    no entry in the map), then the learning ones, then the mastered ones,
    each group in the order of the input. *)
Theorem sortByMasteryPriority_groups questions progressMap :
  sortByMasteryPriority questions progressMap
  = filter (fun q => mastery_or_new progressMap q = New) questions
    ++ filter (fun q => mastery_or_new progressMap q = Learning) questions
    ++ filter (fun q => mastery_or_new progressMap q = Mastered) questions.
Proof.
  unfold sortByMasteryPriority.
  set (key := fun q => priority (mastery_or_new progressMap q)).
  assert (Hsign : forall x y : Question, True -> True ->
            (0 < by_priority progressMap x y <-> key y < key x)).
  { intros x y _ _. apply by_priority_sign. }
  assert (Hall : Forall (fun _ : Question => True) questions)
    by (apply Forall_forall; intros; exact I).
  pose proof (array_sort_sorted key (by_priority progressMap) _ Hsign
                questions Hall) as Hsorted.
  rewrite (sorted_by_priority (mastery_or_new progressMap) _ Hsorted) at 1.
  rewrite <- !(filter_priority_level (mastery_or_new progressMap)).
  rewrite !(array_sort_stable key (by_priority progressMap) _ Hsign _ questions Hall).
  reflexivity.
Qed.

(** ** getTopics *)

Section SortOrder.
Context {A : Type} (cmp : A -> A -> Q) (le : A -> A -> Prop).
Hypothesis le_trans : forall x y z, le x y -> le y z -> le x z.
Hypothesis cmp_pos : forall x y, 0 < cmp x y -> le y x.
Hypothesis cmp_nonpos : forall x y, cmp x y <= 0 -> le x y.

Lemma sort_insert_ordered x l :
  StronglySorted le l -> StronglySorted le (sort_insert cmp x l).
Proof.
  intros Hs. induction Hs as [|y l Hs IH Hy]; simpl.
  - repeat constructor.
  - destruct (Qlt_le_dec 0 (cmp x y)) as [Hgt|Hle].
    + constructor; [exact IH|].
      rewrite sort_insert_Permutation. constructor; [|exact Hy].
      apply cmp_pos. exact Hgt.
    + pose proof (cmp_nonpos _ _ Hle) as Hxy.
      constructor; [constructor; assumption|].
      constructor; [exact Hxy|].
      eapply Forall_impl; [exact Hy|]. intros z Hz. simpl in Hz.
      apply (le_trans _ _ _ Hxy Hz).
Qed.

Lemma array_sort_ordered l : StronglySorted le (array_sort cmp l).
Proof.
  induction l as [|x l IH]; simpl; [constructor|].
  apply sort_insert_ordered. exact IH.
Qed.

End SortOrder.

Lemma string_compare_refl s : String.compare s s = Eq.
Proof.
  pose proof (String.compare_antisym s s) as H.
  destruct (String.compare s s); [reflexivity | discriminate..].
Qed.

Lemma string_lt_trans a b c :
  String.compare a b = Lt -> String.compare b c = Lt -> String.compare a c = Lt.
Proof.
  intros Hab Hbc.
  apply OrderedTypeEx.String_as_OT.cmp_lt.
  apply (OrderedTypeEx.String_as_OT.lt_trans a b c);
    apply OrderedTypeEx.String_as_OT.cmp_lt; assumption.
Qed.

Lemma string_le_trans a b c :
  String.compare a b <> Gt -> String.compare b c <> Gt -> String.compare a c <> Gt.
Proof.
  intros Hab Hbc.
  destruct (String.compare a b) eqn:Eab; [| |contradiction].
  - apply String.compare_eq_iff in Eab. subst b. exact Hbc.
  - destruct (String.compare b c) eqn:Ebc; [| |contradiction].
    + apply String.compare_eq_iff in Ebc. subst c. rewrite Eab. discriminate.
    + rewrite (string_lt_trans a b c Eab Ebc). discriminate.
Qed.

Lemma default_compare_pos a b : 0 < default_compare a b -> String.compare b a <> Gt.
Proof.
  unfold default_compare. rewrite (String.compare_antisym b a).
  destruct (String.compare a b); simpl; intros H; try discriminate; exfalso; lra.
Qed.

Lemma default_compare_nonpos a b :
  default_compare a b <= 0 -> String.compare a b <> Gt.
Proof.
  unfold default_compare.
  destruct (String.compare a b); intros H; try discriminate. exfalso. lra.
Qed.

Lemma set_add_NoDup {K} `{EqDecision K} (s : JsSet K) k :
  NoDup s -> NoDup (set_add s k).
Proof.
  intros Hs. unfold set_add. destruct (decide (k ∈ s)) as [|Hn]; [exact Hs|].
  apply NoDup_app. split; [exact Hs|]. split; [|apply NoDup_singleton].
  intros x Hx Hx'. apply list_elem_of_singleton in Hx'. subst x. contradiction.
Qed.

Lemma set_add_elem {K} `{EqDecision K} (s : JsSet K) k x :
  x ∈ set_add s k <-> x ∈ s \/ x = k.
Proof.
  unfold set_add. destruct (decide (k ∈ s)) as [Hin|Hn].
  - split; [left; assumption | intros [Hx|Hx]; [|subst x]; assumption].
  - rewrite elem_of_app, list_elem_of_singleton. reflexivity.
Qed.

Lemma topic_set_spec questions :
  let topics :=
    foldl (fun (topics : JsSet string) q =>
             if truthy_string (topic q)
             then set_add topics (default ""%string (topic q))
             else topics)
      [] questions in
  NoDup topics
  /\ forall t, t ∈ topics
               <-> t <> ""%string /\ exists q, q ∈ questions /\ topic q = Some t.
Proof.
  induction questions as [|q questions [IHnd IH]] using rev_ind.
  - split; [apply NoDup_nil_2|]. intros t. split.
    + intros H. apply elem_of_nil in H. contradiction.
    + intros (_ & q & Hq & _). apply elem_of_nil in Hq. contradiction.
  - cbn zeta in *. rewrite foldl_snoc.
    destruct (truthy_string (topic q)) eqn:Et.
    + apply truthy_string_true in Et as (s & Es & Hs). rewrite Es.
      cbn [default from_option id].
      split; [apply set_add_NoDup; exact IHnd|].
      intros t. rewrite set_add_elem, IH. split.
      * intros [(Ht & q' & Hq' & Htq)| ->].
        -- split; [exact Ht|]. exists q'. split; [|exact Htq].
           apply elem_of_app. left. exact Hq'.
        -- split; [exact Hs|]. exists q. split; [|exact Es].
           apply elem_of_app. right. left.
      * intros (Ht & q' & Hq' & Htq).
        apply elem_of_app in Hq' as [Hq'|Hq'].
        -- left. split; [exact Ht|]. exists q'. split; assumption.
        -- apply list_elem_of_singleton in Hq'. subst q'. right. congruence.
    + split; [exact IHnd|]. intros t. rewrite IH. split.
      * intros (Ht & q' & Hq' & Htq). split; [exact Ht|]. exists q'.
        split; [|exact Htq]. apply elem_of_app. left. exact Hq'.
      * intros (Ht & q' & Hq' & Htq). split; [exact Ht|].
        apply elem_of_app in Hq' as [Hq'|Hq'].
        -- exists q'. split; assumption.
        -- apply list_elem_of_singleton in Hq'. subst q'.
           exfalso. apply (truthy_string_false _ t Et Ht). exact Htq.
Qed.

Lemma strictly_sorted (l : list string) :
  NoDup l -> StronglySorted (fun a b => String.compare a b <> Gt) l ->
  StronglySorted (fun a b => String.compare a b = Lt) l.
Proof.
  intros Hnd Hs. induction Hs as [|x l Hs IH Hx]; [constructor|].
  apply NoDup_cons in Hnd as [Hx' Hnd]. constructor; [apply IH; exact Hnd|].
  apply Forall_forall. intros y Hy. rewrite Forall_forall in Hx.
  specialize (Hx y Hy). simpl in Hx.
  destruct (String.compare x y) eqn:E; [|reflexivity|contradiction].
  apply String.compare_eq_iff in E. subst y. contradiction.
Qed.

(** X15: [getTopics] returns exactly the non-empty topics of the questions,
    each once, in strictly ascending order of their code units. *)
Theorem getTopics_spec questions :
  NoDup (getTopics questions)
  /\ (forall t, t ∈ getTopics questions
                <-> t <> ""%string /\ exists q, q ∈ questions /\ topic q = Some t)
  /\ StronglySorted (fun a b => String.compare a b = Lt) (getTopics questions).
Proof.
  destruct (topic_set_spec questions) as [Hnd Hin]. cbn zeta in Hnd, Hin.
  unfold getTopics. cbn zeta.
  match goal with
  | |- NoDup (array_sort _ ?s) /\ _ => set (topics := s) in *
  end.
  assert (Hp : array_sort default_compare topics ≡ₚ topics)
    by apply array_sort_Permutation.
  assert (Hnd' : NoDup (array_sort default_compare topics))
    by (rewrite Hp; exact Hnd).
  split; [exact Hnd'|]. split.
  - intros t. rewrite Hp. apply Hin.
  - apply strictly_sorted; [exact Hnd'|].
    apply (array_sort_ordered default_compare).
    + apply string_le_trans.
    + apply default_compare_pos.
    + apply default_compare_nonpos.
Qed.

(** ** selectQuestions and the shuffle *)

Lemma slice0_all {A} (l : list A) stop :
  (Z.of_nat (length l) <= stop)%Z -> slice0 l stop = l.
Proof.
  intros H. unfold slice0.
  assert ((stop <? 0)%Z = false) as -> by lia.
  rewrite Z.min_r by lia. rewrite Nat2Z.id. apply firstn_all.
Qed.

(** X16: when no count is requested, or the count is 0 or at least the number
    of questions that pass the filters, [selectQuestions] returns every
    question that passes the filters exactly once, in some order. *)
Theorem selectQuestions_whole rand catalog config :
  let filtered := topic_filtered (grade_filtered catalog config) config in
  (forall n, cfg_questionCount config = Some n ->
     n = 0%Z \/ (Z.of_nat (length filtered) <= n)%Z) ->
  selectQuestions rand catalog config ≡ₚ filtered.
Proof.
  intros filtered Hcount. unfold selectQuestions. fold filtered.
  pose proof (shuffleArray_Permutation rand filtered) as Hperm.
  pose proof (Permutation_length Hperm) as Hlen.
  rewrite slice0_all; [exact Hperm|].
  destruct (cfg_questionCount config) as [n|] eqn:En; simpl; [|lia].
  destruct (Hcount n eq_refl) as [->|Hn]; simpl; [lia|].
  destruct (n =? 0)%Z; simpl; lia.
Qed.

Lemma selectQuestions_whole_witness :
  selectQuestions (fun _ => 0) wind_catalog (unfiltered None)
  ≡ₚ topic_filtered (grade_filtered wind_catalog (unfiltered None)) (unfiltered None).
Proof.
  apply (selectQuestions_whole (fun _ => 0) wind_catalog (unfiltered None)).
  intros n Hn. discriminate Hn.
Defined.

(** X17: a catalog whose questions have pairwise distinct ids yields a
    selection with pairwise distinct ids: no question is asked twice. *)
Theorem selectQuestions_distinct rand catalog config :
  NoDup (map qid catalog) ->
  NoDup (map qid (selectQuestions rand catalog config)).
Proof.
  intros Hnd. apply (NoDup_map_submseteq qid catalog); [|exact Hnd].
  unfold selectQuestions.
  etrans; [apply slice0_submseteq|].
  rewrite shuffleArray_Permutation, filtered_spec.
  apply sublist_submseteq, sublist_filter.
Qed.

Lemma selectQuestions_distinct_witness :
  NoDup (map qid (selectQuestions (fun _ => 1 # 2) wind_catalog (unfiltered (Some 2%Z)))).
Proof.
  apply (selectQuestions_distinct (fun _ => 1 # 2) wind_catalog (unfiltered (Some 2%Z))).
  apply (bool_decide_unpack _). vm_compute. exact I.
Defined.

Lemma shuffle_loop_swaps {T} rand call i (l : list T) :
  shuffle_loop rand call i l
  = foldl (fun a s => swap s.1 (Z.to_nat s.2) a) l (shuffle_swaps rand call i).
Proof.
  revert call l. induction i as [|i IH]; intros call l; [reflexivity|].
  cbn [shuffle_loop shuffle_swaps foldl fst snd]. apply IH.
Qed.

Lemma shuffle_swaps_range rand call i n :
  unit_interval rand -> (i < n)%nat -> (Z.of_nat n < 2 ^ 53)%Z ->
  Forall (fun s => (1 <= s.1 < n)%nat /\ (0 <= s.2 <= Z.of_nat s.1)%Z)
    (shuffle_swaps rand call i).
Proof.
  intros Hrand Hi Hn. revert call.
  induction i as [|i IH]; intros call; [constructor|].
  cbn [shuffle_swaps]. constructor; [|apply IH; lia].
  cbn [fst snd]. split; [lia|].
  destruct (Hrand call) as [H0 H1].
  apply random_index_in_range; [assumption..|lia].
Qed.

(** X18: for random numbers in [0, 1) and an array of fewer than 2^53
    elements, [shuffleArray] performs swaps of two positions inside the
    array only, the second not beyond the first, and returns a rearrangement
    of the array. *)
Theorem shuffleArray_in_bounds {T} rand (array : list T) :
  unit_interval rand -> (Z.of_nat (length array) < 2 ^ 53)%Z ->
  let swaps := shuffle_swaps rand 0 (length array - 1) in
  shuffleArray rand array
  = foldl (fun a s => swap s.1 (Z.to_nat s.2) a) array swaps
  /\ Forall (fun s => (1 <= s.1 < length array)%nat
                      /\ (0 <= s.2 <= Z.of_nat s.1)%Z) swaps
  /\ shuffleArray rand array ≡ₚ array.
Proof.
  intros Hrand Hlen swaps. split; [apply shuffle_loop_swaps|].
  split; [|apply shuffleArray_Permutation].
  destruct array as [|x array]; [constructor|].
  apply shuffle_swaps_range; [exact Hrand | simpl; lia | exact Hlen].
Qed.

Lemma shuffleArray_in_bounds_witness :
  let rand : RandomSource := fun _ => 1 # 2 in
  let swaps := shuffle_swaps rand 0 (length wind_catalog - 1) in
  shuffleArray rand wind_catalog
  = foldl (fun a s => swap s.1 (Z.to_nat s.2) a) wind_catalog swaps
  /\ Forall (fun s => (1 <= s.1 < length wind_catalog)%nat
                      /\ (0 <= s.2 <= Z.of_nat s.1)%Z) swaps
  /\ shuffleArray rand wind_catalog ≡ₚ wind_catalog.
Proof.
  apply (shuffleArray_in_bounds (fun _ => 1 # 2) wind_catalog).
  - intros k. unfold below_one. split; [discriminate|].
    vm_compute. discriminate.
  - reflexivity.
Defined.

(** ** The timer *)

Ltac zbool :=
  first [apply Z.ltb_lt | apply Z.ltb_ge | apply Z.leb_le | apply Z.leb_gt]; lia.

Lemma timer_run_app duration s a b :
  Timer.run duration s (a ++ b)
  = ((Timer.run duration (Timer.run duration s a).1 b).1,
     (Timer.run duration s a).2 ++ (Timer.run duration (Timer.run duration s a).1 b).2).
Proof.
  revert s. induction a as [|c a IH]; intros s.
  - cbn [app Timer.run fst snd]. destruct (Timer.run duration s b). reflexivity.
  - cbn [app Timer.run fst snd]. rewrite IH. cbn [fst snd].
    rewrite app_assoc. reflexivity.
Qed.

Lemma timer_ticks_S r m :
  Timer.ticks r (S m) = Timer.ticks r m ++ [Timer.onTick (r - Z.of_nat (S m))].
Proof. unfold Timer.ticks. rewrite seq_S, map_app. reflexivity. Qed.

(** A running timer with [r >= 1] seconds left, [n] seconds later. *)
Lemma timer_intervals duration r n :
  (1 <= r)%Z ->
  Timer.run duration {| Timer.remaining := r; Timer.running := true |}
    (repeat Timer.Interval n)
  = ({| Timer.remaining := r - Z.min (Z.of_nat n) r;
        Timer.running := (Z.of_nat n <? r)%Z |},
     Timer.ticks r (Z.to_nat (Z.min (Z.of_nat n) r))
     ++ (if (r <=? Z.of_nat n)%Z then [Timer.onComplete] else [])).
Proof.
  intros Hr. induction n as [|n IH].
  - cbn [repeat Timer.run]. rewrite Z.min_l by lia.
    assert ((Z.of_nat 0 <? r)%Z = true) as -> by zbool.
    assert ((r <=? Z.of_nat 0)%Z = false) as -> by zbool.
    f_equal. f_equal. lia.
  - change (repeat Timer.Interval (S n))
      with (Timer.Interval :: repeat Timer.Interval n).
    rewrite repeat_cons, timer_run_app, IH. cbn [fst snd].
    cbn [Timer.run Timer.call Timer.running fst snd].
    destruct (Z.ltb_spec (Z.of_nat n) r) as [En|En].
    + assert ((r <=? Z.of_nat n)%Z = false) as -> by zbool.
      rewrite (Z.min_l (Z.of_nat n)) by lia.
      unfold Timer.tick. cbn [Timer.remaining Timer.running].
      destruct (Z.leb_spec (r - Z.of_nat n - 1) 0) as [Elast|Elast].
      * assert (r = Z.of_nat (S n)) as Er by lia.
        rewrite Z.min_r by lia.
        assert ((Z.of_nat (S n) <? r)%Z = false) as -> by zbool.
        assert ((r <=? Z.of_nat (S n))%Z = true) as -> by zbool.
        unfold Timer.stop. cbn [Timer.running Timer.remaining fst snd].
        replace (Z.to_nat r) with (S n) by lia.
        rewrite Nat2Z.id, timer_ticks_S, !app_nil_r, <- !app_assoc. cbn [app].
        f_equal; [f_equal; lia|]. do 2 f_equal. f_equal. lia.
      * rewrite Z.min_l by lia.
        assert ((Z.of_nat (S n) <? r)%Z = true) as -> by zbool.
        assert ((r <=? Z.of_nat (S n))%Z = false) as -> by zbool.
        cbn [fst snd]. rewrite !Nat2Z.id, timer_ticks_S, !app_nil_r.
        f_equal; [f_equal; lia|]. do 2 f_equal. f_equal. lia.
    + assert ((r <=? Z.of_nat n)%Z = true) as -> by zbool.
      rewrite !Z.min_r by lia.
      assert ((Z.of_nat (S n) <? r)%Z = false) as -> by zbool.
      assert ((r <=? Z.of_nat (S n))%Z = true) as -> by zbool.
      cbn [fst snd]. rewrite app_nil_r. reflexivity.
Qed.

(** X19: a timer of [duration] seconds that is started (when new, or from any
    state after [reset]) reports [duration - 1], [duration - 2], ... once a
    second, stops when it reports 0 and calls [onComplete] exactly then; the
    interval calls nothing afterwards. *)
Theorem timer_countdown duration n :
  (1 <= duration)%Z ->
  let m := Z.min (Z.of_nat n) duration in
  let final := {| Timer.remaining := duration - m;
                  Timer.running := (Z.of_nat n <? duration)%Z |} in
  let calls := Timer.ticks duration (Z.to_nat m)
               ++ (if (duration <=? Z.of_nat n)%Z then [Timer.onComplete] else []) in
  Timer.run duration (Timer.createTimer duration)
    (Timer.Start :: repeat Timer.Interval n)
  = (final, calls)
  /\ forall s,
       Timer.run duration s
         (Timer.Reset :: Timer.Start :: repeat Timer.Interval n)
       = (final, Timer.onTick duration :: calls).
Proof.
  intros Hd m final calls. split.
  - cbn [Timer.run Timer.call Timer.start Timer.createTimer Timer.running
         Timer.remaining fst snd app].
    rewrite (timer_intervals duration duration n Hd). reflexivity.
  - intros s.
    cbn [Timer.run Timer.call Timer.reset fst snd].
    assert (Hstop : Timer.running (Timer.stop s) = false).
    { unfold Timer.stop. destruct (Timer.running s) eqn:E; [reflexivity | exact E]. }
    rewrite Hstop. cbn [Timer.start Timer.running Timer.remaining fst snd app].
    rewrite (timer_intervals duration duration n Hd). reflexivity.
Qed.

Lemma timer_countdown_witness :
  Timer.run 3 (Timer.createTimer 3)
    (Timer.Start :: repeat Timer.Interval 5)
  = ({| Timer.remaining := 0; Timer.running := false |},
     [Timer.onTick 2; Timer.onTick 1; Timer.onTick 0; Timer.onComplete]).
Proof.
  refine (proj1 (timer_countdown 3 5 _)). lia.
Defined.

(** X20: a timer that has run out and is started again without [reset]
    reports -1 after one second and calls [onComplete] a second time. *)
Theorem timer_restart_without_reset duration n :
  (1 <= duration)%Z -> (duration <= Z.of_nat n)%Z ->
  Timer.run duration (Timer.createTimer duration)
    (Timer.Start :: repeat Timer.Interval n ++ [Timer.Start; Timer.Interval])
  = ({| Timer.remaining := -1; Timer.running := false |},
     Timer.ticks duration (Z.to_nat duration)
     ++ [Timer.onComplete; Timer.onTick (-1); Timer.onComplete]).
Proof.
  intros Hd Hn.
  change (Timer.Start :: repeat Timer.Interval n ++ [Timer.Start; Timer.Interval])
    with ([Timer.Start] ++ repeat Timer.Interval n ++ [Timer.Start; Timer.Interval]).
  rewrite timer_run_app.
  cbn [Timer.run Timer.call Timer.start Timer.createTimer Timer.running
       Timer.remaining fst snd app].
  rewrite timer_run_app, (timer_intervals duration duration n Hd).
  cbn [fst snd].
  rewrite Z.min_r by lia.
  assert ((Z.of_nat n <? duration)%Z = false) as -> by zbool.
  assert ((duration <=? Z.of_nat n)%Z = true) as -> by zbool.
  cbn [Timer.run Timer.call Timer.start Timer.running Timer.remaining fst snd app].
  unfold Timer.tick. cbn [Timer.remaining Timer.running].
  assert ((duration - duration - 1 <=? 0)%Z = true) as -> by zbool.
  unfold Timer.stop. cbn [Timer.running Timer.remaining fst snd app].
  rewrite <- app_assoc. cbn [app].
  f_equal; [f_equal; lia|]. do 3 f_equal. f_equal. lia.
Qed.

Lemma timer_restart_without_reset_witness :
  Timer.run 2 (Timer.createTimer 2)
    (Timer.Start :: repeat Timer.Interval 2 ++ [Timer.Start; Timer.Interval])
  = ({| Timer.remaining := -1; Timer.running := false |},
     [Timer.onTick 1; Timer.onTick 0; Timer.onComplete;
      Timer.onTick (-1); Timer.onComplete]).
Proof.
  apply (timer_restart_without_reset 2 2); lia.
Defined.

(** ** loadGradeLevels *)

Lemma as_grade_level_valid v s : as_grade_level v = Some s -> s ∈ ALL_GRADE_LEVELS.
Proof.
  destruct v as [| | |s'| |]; try discriminate. cbn [as_grade_level].
  destruct (String.eqb_spec s' "4-5") as [->|_];
    [intros [= <-]; unfold ALL_GRADE_LEVELS; set_solver|].
  destruct (String.eqb_spec s' "6-8") as [->|_];
    [intros [= <-]; unfold ALL_GRADE_LEVELS; set_solver|].
  destruct (String.eqb_spec s' "9-12") as [->|_];
    [intros [= <-]; unfold ALL_GRADE_LEVELS; set_solver|].
  discriminate.
Qed.

Lemma as_grade_level_spec v s :
  as_grade_level v = Some s <-> v = JString s /\ s ∈ ALL_GRADE_LEVELS.
Proof.
  unfold ALL_GRADE_LEVELS. split.
  - intros H. split; [|apply (as_grade_level_valid v s H)].
    destruct v as [| | |s'| |]; try discriminate. cbn [as_grade_level] in H.
    destruct (String.eqb s' "4-5" || String.eqb s' "6-8" || String.eqb s' "9-12");
      [|discriminate]. injection H as ->. reflexivity.
  - intros [-> Hs]. cbn [as_grade_level].
    assert (E : String.eqb s "4-5" || String.eqb s "6-8" || String.eqb s "9-12"
                = true).
    { apply elem_of_cons in Hs as [->|Hs]; [reflexivity|].
      apply elem_of_cons in Hs as [->|Hs]; [reflexivity|].
      apply list_elem_of_singleton in Hs as ->. reflexivity. }
    rewrite E. reflexivity.
Qed.

(** X21: whatever the storage holds, and whether or not reading or parsing it
    throws, [loadGradeLevels] succeeds with a non-empty list of valid grade
    levels.  When the stored text is not empty and parses to an array with at
    least one valid entry, the list is the valid entries of the array in
    their order, an entry being valid when it is one of the three level
    strings; in every other case it is all three levels. *)
Theorem loadGradeLevels_total getItem JSON_parse :
  let result := loadGradeLevels getItem JSON_parse in
  success result = true
  /\ error result = None
  /\ exists levels,
       data result = Some levels
       /\ levels <> []
       /\ Forall (fun l => l ∈ ALL_GRADE_LEVELS) levels
       /\ (forall serialized parsed,
             getItem GRADE_LEVELS_KEY = Some (Some serialized) ->
             serialized <> ""%string ->
             JSON_parse serialized = Some (JArray parsed) ->
             omap as_grade_level parsed <> [] ->
             levels = omap as_grade_level parsed)
       /\ (~ (exists serialized parsed,
                getItem GRADE_LEVELS_KEY = Some (Some serialized)
                /\ serialized <> ""%string
                /\ JSON_parse serialized = Some (JArray parsed)
                /\ omap as_grade_level parsed <> []) ->
           levels = ALL_GRADE_LEVELS)
       /\ (forall v s, as_grade_level v = Some s
                       <-> v = JString s /\ s ∈ ALL_GRADE_LEVELS).
Proof.
  intros result.
  assert (Hall : Forall (fun l => l ∈ ALL_GRADE_LEVELS) ALL_GRADE_LEVELS)
    by (apply Forall_forall; auto).
  (* the result when the stored levels are not used *)
  assert (Hdefault :
    (forall serialized parsed,
       getItem GRADE_LEVELS_KEY = Some (Some serialized) ->
       serialized <> ""%string ->
       JSON_parse serialized = Some (JArray parsed) ->
       omap as_grade_level parsed <> [] -> False) ->
    let all := {| success := true; data := Some ALL_GRADE_LEVELS;
                  error := @None string |} in
    success all = true /\ error all = None
    /\ exists levels,
         data all = Some levels /\ levels <> []
         /\ Forall (fun l => l ∈ ALL_GRADE_LEVELS) levels
         /\ (forall serialized parsed,
               getItem GRADE_LEVELS_KEY = Some (Some serialized) ->
               serialized <> ""%string ->
               JSON_parse serialized = Some (JArray parsed) ->
               omap as_grade_level parsed <> [] ->
               levels = omap as_grade_level parsed)
         /\ (~ (exists serialized parsed,
                  getItem GRADE_LEVELS_KEY = Some (Some serialized)
                  /\ serialized <> ""%string
                  /\ JSON_parse serialized = Some (JArray parsed)
                  /\ omap as_grade_level parsed <> []) ->
             levels = ALL_GRADE_LEVELS)
         /\ (forall v s, as_grade_level v = Some s
                         <-> v = JString s /\ s ∈ ALL_GRADE_LEVELS)).
  { intros Hnone. cbn. do 2 (split; [reflexivity|]). exists ALL_GRADE_LEVELS.
    split; [reflexivity|]. split; [discriminate|]. split; [exact Hall|].
    split; [|split; [reflexivity | apply as_grade_level_spec]].
    intros serialized parsed H1 H2 H3 H4. exfalso.
    apply (Hnone serialized parsed H1 H2 H3 H4). }
  cbn zeta in Hdefault. unfold result, loadGradeLevels.
  destruct (getItem GRADE_LEVELS_KEY) as [serialized|] eqn:Eget;
    [|apply Hdefault; intros ? ? [=]].
  destruct (truthy_string serialized) eqn:Et; cbn [negb].
  2:{ apply Hdefault. intros s parsed [= ->] Hs _ _.
      cbn [truthy_string] in Et. apply negb_false_iff, String.eqb_eq in Et.
      contradiction. }
  apply truthy_string_true in Et as (s & -> & Hs). cbn [default from_option id].
  destruct (JSON_parse s) as [[| | | |parsed|]|] eqn:Eparse;
    try (apply Hdefault; intros s' parsed' [= <-] _ Hp _; congruence).
  destruct (omap as_grade_level parsed) as [|l valid] eqn:Evalid.
  - cbn [length Z.of_nat Z.gtb Z.compare].
    apply Hdefault. intros s' parsed' [= <-] _ Hp Hv.
    rewrite Eparse in Hp. injection Hp as <-. contradiction.
  - cbn [success error data length].
    assert ((Z.of_nat (S (length valid)) >? 0)%Z = true) as ->
      by (apply Z.gtb_lt; lia).
    do 2 (split; [reflexivity|]). exists (l :: valid).
    split; [reflexivity|]. split; [discriminate|]. split.
    { rewrite <- Evalid. apply Forall_forall. intros x Hx.
      apply list_elem_of_omap in Hx as (v & _ & Hv).
      apply (as_grade_level_valid v x Hv). }
    split; [|split; [|apply as_grade_level_spec]].
    + intros s' parsed' [= <-] _ Hp _.
      rewrite Eparse in Hp. injection Hp as <-. symmetry. exact Evalid.
    + intros Hnot. exfalso. apply Hnot. exists s, parsed.
      rewrite Evalid. repeat split; try assumption. discriminate.
Qed.

(** A stored array with one valid entry among others comes back as that
    entry. *)
Lemma loadGradeLevels_example :
  data (loadGradeLevels
          (fun _ => Some (Some "levels"%string))
          (fun _ => Some (JArray [JNumber 3; JString "6-8"; JString "7-9"])))
  = Some ["6-8"%string].
Proof. reflexivity. Qed.

(** ** The application state *)

Lemma stored_by_id_set m p :
  stored_by_id m -> stored_by_id (map_set m (questionId p) p).
Proof.
  intros [Hnd Hid]. split; [apply map_set_NoDup; exact Hnd|].
  apply map_set_Forall_entries; [exact Hid | reflexivity].
Qed.

Lemma updateProgress_questionId p isCorrect now :
  questionId (updateProgress p isCorrect now) = questionId p.
Proof. reflexivity. Qed.

Lemma stored_by_id_get m k p :
  stored_by_id m -> map_get m k = Some p -> questionId p = k.
Proof.
  intros [_ Hid] Hg. apply map_get_Some_elem in Hg.
  rewrite Forall_forall in Hid. apply (Hid (k, p) Hg).
Qed.

Lemma record_answer_stored m q isCorrect created now :
  stored_by_id m -> stored_by_id (record_answer m q isCorrect created now).
Proof.
  intros Hm. unfold record_answer.
  set (progress := default _ _).
  assert (Hq : questionId progress = qid q).
  { unfold progress. destruct (map_get m (qid q)) as [p|] eqn:Hg;
      cbn [default from_option id]; [|reflexivity].
    apply (stored_by_id_get m _ _ Hm Hg). }
  rewrite <- Hq, <- (updateProgress_questionId progress isCorrect now).
  apply stored_by_id_set. exact Hm.
Qed.

Lemma loadUserProgress_stored result m :
  stored_by_id m -> stored_by_id (loadUserProgress result m).
Proof.
  intros Hm. unfold loadUserProgress.
  destruct (data result) as [l|]; [|exact Hm].
  destruct (success result); [|exact Hm].
  induction l as [|p l IH] using rev_ind; [exact Hm|].
  rewrite foldl_snoc. apply stored_by_id_set. exact IH.
Qed.

Lemma stored_by_id_entries m :
  stored_by_id m -> map (fun p => (questionId p, p)) (map_values m) = m.
Proof.
  intros [_ Hid]. unfold map_values. rewrite map_map.
  induction Hid as [|[k p] m Hk _ IH]; [reflexivity|].
  cbn [map snd]. simpl in Hk. rewrite Hk, IH. reflexivity.
Qed.

(** X22: the store of the application, loaded from the storage and updated by
    any number of recorded answers, holds every record under its own
    question id and no id twice; the map [calculateStats] builds from the
    values of the store is the store again, so the statistics read, for each
    question, the record the store holds for it. *)
Theorem store_round_trip result answers :
  let store := record_answers (loadUserProgress result []) answers in
  stored_by_id store
  /\ map_of_entries (map (fun p => (questionId p, p)) (progress_values store))
     = store
  /\ forall q, record_of (progress_values store) q = map_get store (qid q).
Proof.
  intros store.
  assert (Hs : stored_by_id store).
  { unfold store, record_answers.
    induction answers as [|a answers IH] using rev_ind.
    - apply loadUserProgress_stored. split; [apply NoDup_nil_2 | constructor].
    - rewrite foldl_snoc. apply record_answer_stored. exact IH. }
  assert (Hmap : map_of_entries
                   (map (fun p => (questionId p, p)) (progress_values store))
                 = store).
  { unfold progress_values. rewrite (stored_by_id_entries store Hs).
    apply map_of_entries_id. apply Hs. }
  split; [exact Hs|]. split; [exact Hmap|].
  intros q. rewrite <- progressMap_get, Hmap. reflexivity.
Qed.

Lemma events_snoc {E} (handle : AppState -> E -> option AppState) s es e :
  events handle s (es ++ [e])
  = match events handle s es with Some s' => handle s' e | None => None end.
Proof. unfold events. rewrite foldl_snoc. reflexivity. Qed.

Lemma array_get_Some_range {A} (l : list A) i x :
  array_get l i = Some x -> (0 <= i < Z.of_nat (length l))%Z.
Proof.
  unfold array_get. destruct (Z.ltb_spec i 0) as [|Hi]; [discriminate|].
  intros H. apply lookup_lt_Some in H. lia.
Qed.

Lemma array_get_None_range {A} (l : list A) i :
  array_get l i = None -> (i < 0 \/ Z.of_nat (length l) <= i)%Z.
Proof.
  unfold array_get. destruct (Z.ltb_spec i 0) as [|Hi]; [left; assumption|].
  intros H. apply lookup_ge_None in H. right. lia.
Qed.

Lemma record_answers_snoc store recorded r :
  record_answers store (recorded ++ [r])
  = record_answer (record_answers store recorded) r.1.1 r.1.2 r.2.1 r.2.2.
Proof. unfold record_answers. rewrite foldl_snoc. reflexivity. Qed.

Lemma array_get_lookup {A} (l : list A) i x :
  array_get l i = Some x -> l !! Z.to_nat i = Some x.
Proof. unfold array_get. destruct (i <? 0)%Z; [discriminate | tauto]. Qed.

Lemma record_answer_counts store q isCorrect created now k :
  attempts_of (record_answer store q isCorrect created now) k
  = (attempts_of store k + if decide (qid q = k) then 1 else 0)%Z
  /\ correct_of (record_answer store q isCorrect created now) k
     = (correct_of store k
        + if decide (qid q = k /\ isCorrect = true) then 1 else 0)%Z.
Proof.
  unfold attempts_of, correct_of, record_answer.
  destruct (decide (qid q = k)) as [<-|Hne].
  - rewrite map_get_set_eq.
    cbn [updateProgress set_mastery attempted attempts correctCount].
    destruct (map_get store (qid q)) as [p|]; cbn [default from_option id];
      destruct isCorrect; cbn [createProgress attempts correctCount];
      (split; [lia|]);
      repeat case_decide; try lia;
      match goal with
      | H : ~ (_ /\ _) |- _ => exfalso; apply H; split; reflexivity
      | H : _ /\ false = true |- _ => destruct H; discriminate
      end.
  - rewrite (map_get_set_ne _ _ _ _ Hne).
    rewrite decide_False by (intros [E _]; contradiction). split; lia.
Qed.

(** X23: the store counts the answers per question: after any number of
    recorded answers, the attempts it holds for a question id have grown by
    the number of answers to that question and the correct count by the
    number of correct ones; the counts of the other ids are unchanged. *)
Theorem store_counts store recorded id :
  attempts_of (record_answers store recorded) id
  = (attempts_of store id
     + Z.of_nat (length (filter (fun r => qid r.1.1 = id) recorded)))%Z
  /\ correct_of (record_answers store recorded) id
     = (correct_of store id
        + Z.of_nat (length (filter (fun r => qid r.1.1 = id /\ r.1.2 = true)
                              recorded)))%Z.
Proof.
  induction recorded as [|r recorded [IHa IHc]] using rev_ind.
  - cbn. split; lia.
  - rewrite record_answers_snoc, !filter_app, !length_app.
    destruct (record_answer_counts (record_answers store recorded)
                r.1.1 r.1.2 r.2.1 r.2.2 id) as [Ha Hc].
    rewrite Ha, Hc, IHa, IHc.
    rewrite !(filter_cons _ r), !filter_nil.
    split; repeat case_decide; cbn [length]; lia.
Qed.
















(** After a quiz is completed every click on the next button starts a new
    quiz: with the three questions of the catalog answered and the quiz
    completed, the next click leaves a fresh session and the first question
    of a new selection. *)
Lemma next_click_after_completion :
  let v0 := {| shown := initial_state; nextButton := [] |} in
  let started := startQuizMode_view (fun _ => 0%Q) wind_catalog 0%Z v0 in
  exists v,
    quiz_events wind_catalog started
      [AnswerSelected OptionA 1%Z 2%Z; NextClicked (fun _ => 0%Q) 3%Z;
       AnswerSelected OptionB 3%Z 4%Z; NextClicked (fun _ => 0%Q) 5%Z;
       AnswerSelected OptionA 5%Z 6%Z; NextClicked (fun _ => 0%Q) 7%Z;
       NextClicked (fun _ => 0%Q) 8%Z]
    = Some v
    /\ currentQuestionIndex (shown v) = 0%Z
    /\ currentSession (shown v) = Some (createSession Quiz 8%Z)
    /\ nextButton v = [OnNextQuestion; OnclickRestart; OnNextQuestion].
Proof. eexists. split; [vm_compute; reflexivity|]. repeat split. Qed.

Lemma flashcard_event_invariant deck store s recorded e :
  currentQuestions s = deck ->
  (0 <= flashcardIndex s < Z.of_nat (length deck))%Z ->
  userProgress s = record_answers store recorded ->
  Forall (fun r => r.1.1 ∈ deck) recorded ->
  exists s' recorded',
    flashcard_event s e = Some s'
    /\ currentQuestions s' = deck
    /\ (0 <= flashcardIndex s' < Z.of_nat (length deck))%Z
    /\ userProgress s' = record_answers store recorded'
    /\ Forall (fun r => r.1.1 ∈ deck) recorded'.
Proof.
  intros Hq Hi Hu Hrec.
  assert (Hanswer : forall isCorrect created now,
    exists s' recorded',
      handleFlashcardAnswer isCorrect s created now = Some s'
      /\ currentQuestions s' = deck
      /\ (0 <= flashcardIndex s' < Z.of_nat (length deck))%Z
      /\ userProgress s' = record_answers store recorded'
      /\ Forall (fun r => r.1.1 ∈ deck) recorded').
  { intros isCorrect created now. unfold handleFlashcardAnswer.
    destruct (array_get_in_range (currentQuestions s) (flashcardIndex s))
      as [question Hg]; [rewrite Hq; lia|].
    rewrite Hg.
    eexists _, (recorded ++ [(question, isCorrect, (created, now))]).
    split; [reflexivity|].
    assert (Hin : question ∈ deck).
    { apply array_get_lookup in Hg. rewrite Hq in Hg.
      apply (list_elem_of_lookup_2 _ _ _ Hg). }
    unfold handleFlashcardNext.
    cbn [currentQuestions flashcardIndex userProgress]. rewrite Hq.
    destruct (Z.ltb_spec (flashcardIndex s) (Z.of_nat (length deck) - 1));
      cbn [currentQuestions flashcardIndex userProgress];
      (split; [reflexivity|]); (split; [lia|]);
      (split; [rewrite record_answers_snoc, Hu; reflexivity|]);
      (apply Forall_app; split; [exact Hrec|]); repeat constructor; exact Hin. }
  destruct e as [created now|created now| |]; cbn [flashcard_event].
  - apply Hanswer.
  - apply Hanswer.
  - exists (handleFlashcardNext s), recorded. split; [reflexivity|].
    unfold handleFlashcardNext. rewrite Hq.
    destruct (Z.ltb_spec (flashcardIndex s) (Z.of_nat (length deck) - 1));
      cbn [currentQuestions flashcardIndex userProgress];
      repeat split; try assumption; try reflexivity; lia.
  - exists (handleFlashcardPrevious s), recorded. split; [reflexivity|].
    unfold handleFlashcardPrevious.
    destruct (Z.gtb_spec (flashcardIndex s) 0);
      cbn [currentQuestions flashcardIndex userProgress];
      repeat split; try assumption; lia.
Qed.

(** X25: in the flashcard mode over a non-empty deck no handler raises an
    exception, whatever the user clicks; the index of the card shown stays
    inside the deck, and every answer recorded in the store is an answer to a
    card of the deck. *)
Theorem flashcard_mode_run rand questionsData s0 es :
  let started := startFlashcardMode rand questionsData s0 in
  currentQuestions started <> [] ->
  exists s recorded,
    events flashcard_event started es = Some s
    /\ currentQuestions s = currentQuestions started
    /\ (0 <= flashcardIndex s < Z.of_nat (length (currentQuestions started)))%Z
    /\ userProgress s = record_answers (userProgress s0) recorded
    /\ Forall (fun r => r.1.1 ∈ currentQuestions started) recorded.
Proof.
  intros started Hne.
  induction es as [|e es IH] using rev_ind.
  - exists started, []. split; [reflexivity|]. split; [reflexivity|].
    split; [|split; [reflexivity | constructor]].
    unfold started, startFlashcardMode in *.
    cbn [currentQuestions flashcardIndex] in *.
    destruct (selectQuestions _ _ _); [contradiction|]. cbn [length]. lia.
  - destruct IH as (s & recorded & Hev & Hq & Hi & Hu & Hrec).
    rewrite events_snoc, Hev.
    apply (flashcard_event_invariant _ _ _ _ e Hq Hi Hu Hrec).
Qed.

Lemma flashcard_mode_run_witness :
  exists s recorded,
    events flashcard_event (startFlashcardMode (fun _ => 0%Q) wind_catalog initial_state)
      [KnowIt 1%Z 2%Z; Next; Next; NeedReview 3%Z 4%Z; Previous]
    = Some s
    /\ currentQuestions s
       = currentQuestions (startFlashcardMode (fun _ => 0%Q) wind_catalog initial_state)
    /\ (0 <= flashcardIndex s
        < Z.of_nat (length (currentQuestions
                     (startFlashcardMode (fun _ => 0%Q) wind_catalog initial_state))))%Z
    /\ userProgress s = record_answers (userProgress initial_state) recorded
    /\ Forall (fun r => r.1.1 ∈ currentQuestions
                 (startFlashcardMode (fun _ => 0%Q) wind_catalog initial_state))
         recorded.
Proof.
  apply (flashcard_mode_run (fun _ => 0%Q) wind_catalog initial_state).
  vm_compute. discriminate.
Defined.

(** ** The timed mode *)

Lemma timed_events_snoc w es e :
  timed_events w (es ++ [e])
  = match timed_events w es with Some w' => timed_event w' e | None => None end.
Proof. unfold timed_events. rewrite foldl_snoc. reflexivity. Qed.

Lemma zip_snoc {A B} (l : list A) (k : list B) a b :
  length l = length k -> zip (l ++ [a]) (k ++ [b]) = zip l k ++ [(a, b)].
Proof. intros H. rewrite zip_with_app by exact H. reflexivity. Qed.

(** A question that is open gets its outcome: the feedback pause begins. *)
Lemma timed_outcome questions now store s recorded seconds
    question isCorrect t created tnow timer :
  timed_invariant questions now store
    {| application := s; scheduled := 0 |} recorded seconds ->
  isAnswered s = false ->
  array_get (currentQuestions s) (currentQuestionIndex s) = Some question ->
  Timer.running timer = false ->
  timed_invariant questions now store
    {| application :=
         {| currentQuestions := currentQuestions s;
            currentQuestionIndex := currentQuestionIndex s;
            currentSession :=
              match currentSession s with
              | Some session => Some (updateSession session isCorrect t)
              | None => None
              end;
            userProgress :=
              record_answer (userProgress s) question isCorrect created tnow;
            isAnswered := true;
            flashcardIndex := flashcardIndex s;
            timedTimer := Some timer;
            timedQuestionStartTime := timedQuestionStartTime s |};
       scheduled := 1 |}
    (recorded ++ [(question, isCorrect, (created, tnow))]) (seconds ++ [t]).
Proof.
  intros (Hq & Hlen & Hs & Hu & Hrec & Hi & Hphase) Ha Hg Hrun.
  cbn [application scheduled] in *.
  assert (Hidx : Z.of_nat (length recorded) = currentQuestionIndex s).
  { destruct Hphase as [r _ _ _ _ _ H | t' H | H]; cbn [application] in *;
      [exact H | congruence | congruence]. }
  pose proof (array_get_Some_range _ _ _ Hg) as Hrange. rewrite Hq in Hrange.
  unfold timed_invariant.
  cbn [application scheduled currentQuestions currentQuestionIndex
       currentSession userProgress isAnswered timedTimer].
  split; [exact Hq|]. split; [rewrite !length_app; cbn [length]; lia|].
  split.
  { rewrite Hs, map_app. cbn [map].
    rewrite zip_snoc by (rewrite length_map; congruence).
    rewrite play_snoc. reflexivity. }
  split; [rewrite record_answers_snoc, Hu; reflexivity|].
  split.
  { rewrite map_app, Hrec, length_app. cbn [map length fst snd].
    replace (length recorded + 1)%nat with (S (length recorded)) by lia.
    symmetry. apply take_S_r.
    apply array_get_lookup in Hg. rewrite Hq in Hg.
    replace (length recorded) with (Z.to_nat (currentQuestionIndex s)) by lia.
    exact Hg. }
  split; [exact Hi|].
  apply (FeedbackPause _ _ _ timer);
    cbn [application scheduled currentQuestionIndex isAnswered timedTimer];
    try reflexivity; try assumption; try lia.
  rewrite length_app. cbn [length]. lia.
Qed.

Lemma timed_event_invariant questions now store w recorded seconds e :
  timed_invariant questions now store w recorded seconds ->
  exists w' recorded' seconds',
    timed_event w e = Some w'
    /\ timed_invariant questions now store w' recorded' seconds'.
Proof.
  intros Hinv. destruct w as [s k].
  pose proof Hinv as (Hq & Hlen & Hs & Hu & Hrec & Hi & Hphase).
  cbn [application scheduled] in *.
  destruct Hphase as [r Ha Hn Hk Ht Hr Hc | t Ha Hn Hk Ht Hr Hc | Ha Hn Hk Ht Hc];
    cbn [application scheduled] in *; subst k.
  - (* a question is open *)
    destruct (array_get_in_range (currentQuestions s) (currentQuestionIndex s))
      as [question Hg]; [rewrite Hq; lia|].
    destruct e as [answer clock created tnow|created tnow|clock];
      cbn [timed_event application scheduled].
    + unfold handleTimedAnswerSelected. rewrite Ha, Hg, Ht.
      cbn [schedule scheduled].
      eexists _, _, _. split; [reflexivity|].
      apply (timed_outcome _ _ _ _ _ _ _ _ _ _ _ _ Hinv Ha Hg). reflexivity.
    + unfold interval_fires. rewrite Ht. cbn [Timer.running].
      unfold Timer.tick. cbn [Timer.remaining Timer.running].
      destruct (Z.leb_spec (r - 1) 0) as [Hlast|Hmore].
      * cbn [fst snd foldl timer_callback].
        unfold handleTimedTimeout.
        cbn [isAnswered currentQuestions currentQuestionIndex currentSession
             userProgress flashcardIndex timedTimer timedQuestionStartTime].
        rewrite Ha, Hg. cbn [orb schedule scheduled].
        eexists _, _, _. split; [reflexivity|].
        apply (timed_outcome _ _ _ _ _ _ _ _ _ _ _ _ Hinv Ha Hg). reflexivity.
      * cbn [fst snd foldl timer_callback schedule scheduled].
        eexists _, recorded, seconds. split; [reflexivity|].
        unfold timed_invariant.
        cbn [application scheduled currentQuestions currentQuestionIndex
             currentSession userProgress isAnswered timedTimer].
        repeat (split; [assumption|]).
        apply (QuestionOpen _ _ _ (r - 1));
          cbn [application scheduled currentQuestionIndex isAnswered timedTimer];
          try reflexivity; try assumption; lia.
    + exists {| application := s; scheduled := 0 |}, recorded, seconds.
      split; [reflexivity | exact Hinv].
  - (* the feedback pause *)
    destruct e as [answer clock created tnow|created tnow|clock];
      cbn [timed_event application scheduled].
    + unfold handleTimedAnswerSelected. rewrite Ha. cbn [schedule scheduled].
      exists {| application := s; scheduled := 1 |}, recorded, seconds.
      split; [reflexivity | exact Hinv].
    + unfold interval_fires. rewrite Ht, Hr. cbn [schedule scheduled].
      exists {| application := s; scheduled := 1 |}, recorded, seconds.
      split; [reflexivity | exact Hinv].
    + unfold feedback_over, renderTimedCurrentQuestion.
      cbn [currentQuestions currentQuestionIndex].
      destruct (array_get (currentQuestions s) (currentQuestionIndex s + 1))
        as [question|] eqn:Hg.
      * apply array_get_Some_range in Hg. rewrite Hq in Hg.
        eexists _, recorded, seconds. split; [reflexivity|].
        unfold timed_invariant.
        cbn [application scheduled currentQuestions currentQuestionIndex
             currentSession userProgress isAnswered timedTimer].
        repeat (split; [first [assumption | reflexivity | lia]|]).
        apply (QuestionOpen _ _ _ TIMED_SECONDS_PER_QUESTION);
          cbn [application scheduled currentQuestionIndex isAnswered timedTimer];
          try reflexivity; try assumption; try lia.
        unfold TIMED_SECONDS_PER_QUESTION. lia.
      * apply array_get_None_range in Hg. rewrite Hq in Hg.
        unfold showTimedQuizComplete. cbn [currentSession]. rewrite Hs.
        eexists _, recorded, seconds. split; [reflexivity|].
        unfold timed_invariant.
        cbn [application scheduled currentQuestions currentQuestionIndex
             currentSession userProgress isAnswered timedTimer].
        repeat (split; [first [assumption | reflexivity | lia]|]).
        apply RunOver;
          cbn [application scheduled currentQuestionIndex isAnswered timedTimer];
          try reflexivity; try assumption; lia.
  - (* the run is over *)
    destruct e as [answer clock created tnow|created tnow|clock];
      cbn [timed_event application scheduled].
    + unfold handleTimedAnswerSelected. rewrite Ha. cbn [schedule scheduled].
      exists {| application := s; scheduled := 0 |}, recorded, seconds.
      split; [reflexivity | exact Hinv].
    + unfold interval_fires. rewrite Ht. cbn [schedule scheduled].
      exists {| application := s; scheduled := 0 |}, recorded, seconds.
      split; [reflexivity | exact Hinv].
    + exists {| application := s; scheduled := 0 |}, recorded, seconds.
      split; [reflexivity | exact Hinv].
Qed.

(** X26: the seconds charged for an answer are the elapsed milliseconds
    rounded to the nearest second, a half going up, without any error of the
    floating-point division: for clock readings below 2^53 that are at most
    2^40 milliseconds apart. *)
Theorem timeTaken_exact clock start :
  (Z.abs clock < 2 ^ 53)%Z -> (Z.abs start < 2 ^ 53)%Z ->
  (0 <= clock - start <= 2 ^ 40)%Z ->
  timeTaken clock start = ((clock - start + 500) / 1000)%Z.
Proof.
  intros Hclock Hstart Hd. unfold timeTaken.
  set (d := (clock - start)%Z) in *. set (n := ((d + 500) / 1000)%Z).
  assert (Hn : (1000 * n <= d + 500 < 1000 * n + 1000)%Z).
  { unfold n. pose proof (Z.div_mod (d + 500) 1000).
    pose proof (Z.mod_pos_bound (d + 500) 1000). lia. }
  assert (Hn0 : (0 <= n < 2 ^ 40)%Z) by lia.
  assert (Esub : jsub (inject_Z clock) (inject_Z start) == inject_Z d).
  { unfold jsub.
    assert (E : inject_Z clock - inject_Z start == inject_Z d).
    { unfold d, Z.sub. rewrite inject_Z_plus, inject_Z_opp. ring. }
    rewrite E. apply fl_Z. lia. }
  rewrite (Math_round_proper _ (jdiv (inject_Z d) 1000))
    by (unfold jdiv; rewrite Esub; reflexivity).
  unfold Math_round, jdiv. set (x := inject_Z d / 1000).
  assert (Hdq : 1000 * inject_Z n <= inject_Z d + 500
                /\ inject_Z d + 500 <= 1000 * inject_Z n + 999).
  { change 1000 with (inject_Z 1000). change 500 with (inject_Z 500).
    change 999 with (inject_Z 999).
    rewrite <- !inject_Z_mult, <- !inject_Z_plus, <- !Zle_Qle. lia. }
  assert (Hd0 : 0 <= inject_Z d)
    by (change 0 with (inject_Z 0); rewrite <- Zle_Qle; lia).
  assert (Ex : x * 1000 == inject_Z d) by (unfold x; field).
  assert (Hx0 : 0 <= x) by nra.
  assert (Hxlo : inject_Z n - (1 # 2) <= x) by nra.
  assert (Hxhi : x <= inject_Z n + (1 # 2) - (1 # 1000)) by nra.
  apply Qfloor_unique.
  - (* the lower bound is a binary64 value *)
    destruct (Z.eq_dec n 0%Z) as [E0|Hpos].
    + pose proof (fl_mono _ _ Hx0) as H. rewrite fl_0 in H.
      rewrite E0. change (inject_Z 0) with 0. lra.
    + assert (Elo : inject_Z n - (1 # 2) == inject_Z (2 * n - 1) * pow2 (-1)).
      { assert (Ep : pow2 (-1) == 1 # 2) by reflexivity. rewrite Ep.
        unfold Z.sub. rewrite inject_Z_plus, inject_Z_mult, inject_Z_opp.
        change (inject_Z 2) with 2. change (inject_Z 1) with 1. field. }
      assert (Hfix : fl (inject_Z n - (1 # 2)) == inject_Z n - (1 # 2)).
      { rewrite Elo. apply fl_fix; [lia | unfold emin; lia]. }
      pose proof (fl_mono _ _ Hxlo) as H. rewrite Hfix in H. lra.
  - (* the error of the division is below a millisecond *)
    assert (Hd40 : inject_Z d <= inject_Z (2 ^ 40)) by (rewrite <- Zle_Qle; lia).
    change (inject_Z (2 ^ 40)) with 1099511627776 in Hd40.
    assert (Ep31 : pow2 31 == 2147483648) by reflexivity.
    assert (Ep22 : pow2 (31 - 53) == 1 # 4194304) by reflexivity.
    assert (Habs : Qabs x <= pow2 31).
    { rewrite Qabs_pos by exact Hx0. rewrite Ep31. nra. }
    pose proof (fl_error_below x 31 Habs) as Herr.
    rewrite Ep22 in Herr.
    assert (Hle : fl x - x <= 1 # 4194304).
    { eapply Qle_trans; [apply Qle_Qabs | apply Herr]. unfold emin. lia. }
    lra.
Qed.

Lemma timeTaken_exact_witness :
  timeTaken 1700000003400 1700000001000 = 2%Z.
Proof.
  apply (timeTaken_exact 1700000003400 1700000001000); lia.
Defined.

(** X27: a timed run over a non-empty selection, started while no feedback
    pause is pending, never raises an exception, however clicks, ticks of the
    timer and ends of feedback pauses interleave.  Every question gets
    exactly one outcome, an answer or a timeout, in the order of the
    selection; the timer runs exactly while a question is open, with 1 to 15
    seconds left; one feedback pause is pending exactly while a question has
    its outcome and the run is not over; when the run is over the timer is
    gone. *)
Theorem timed_mode_run rand questionsData now clock s0 es :
  let started :=
    {| application := handleTimedStart rand questionsData now clock s0;
       scheduled := 0 |} in
  let questions := currentQuestions (application started) in
  questions <> [] ->
  exists w recorded seconds,
    timed_events started es = Some w
    /\ timed_invariant questions now (userProgress s0) w recorded seconds
    /\ (length recorded <= length questions)%nat.
Proof.
  intros started questions Hne.
  assert (Hstart : timed_invariant questions now (userProgress s0) started [] []).
  { unfold questions, started, handleTimedStart, renderTimedCurrentQuestion in *.
    cbn [application currentQuestions currentQuestionIndex] in *.
    set (qs := selectQuestions _ _ _) in *.
    destruct (array_get qs 0) as [q|] eqn:Hg.
    - cbn [currentQuestions] in *. apply array_get_Some_range in Hg.
      unfold timed_invariant.
      cbn [application scheduled currentQuestions currentQuestionIndex
           currentSession userProgress isAnswered timedTimer].
      repeat (split; [first [reflexivity | lia]|]).
      apply (QuestionOpen _ _ _ TIMED_SECONDS_PER_QUESTION);
        cbn [application scheduled currentQuestionIndex isAnswered timedTimer];
        try reflexivity; try lia.
      unfold TIMED_SECONDS_PER_QUESTION. lia.
    - exfalso. apply array_get_None_range in Hg.
      unfold showTimedQuizComplete in Hne.
      cbn [currentSession currentQuestions] in Hne.
      destruct qs; [contradiction|]. cbn [length] in Hg. lia. }
  assert (Hrun : exists w recorded seconds,
            timed_events started es = Some w
            /\ timed_invariant questions now (userProgress s0) w recorded seconds).
  { induction es as [|e es IH] using rev_ind.
    - exists started, [], []. split; [reflexivity | exact Hstart].
    - destruct IH as (w & recorded & seconds & Hev & Hinv).
      rewrite timed_events_snoc, Hev.
      apply (timed_event_invariant _ _ _ _ _ _ e Hinv). }
  destruct Hrun as (w & recorded & seconds & Hev & Hinv).
  exists w, recorded, seconds. split; [exact Hev|]. split; [exact Hinv|].
  destruct Hinv as (_ & _ & _ & _ & _ & Hi & Hphase).
  destruct Hphase; lia.
Qed.

Lemma timed_mode_run_witness :
  exists w recorded seconds,
    timed_events
      {| application := handleTimedStart (fun _ => 0%Q) wind_catalog 0%Z 1000%Z
                          initial_state;
         scheduled := 0 |}
      [IntervalFires 1%Z 1%Z; TimedAnswerSelected OptionA 3400%Z 2%Z 2%Z;
       IntervalFires 3%Z 3%Z; FeedbackOver 4900%Z]
    = Some w
    /\ timed_invariant
         (currentQuestions
            (handleTimedStart (fun _ => 0%Q) wind_catalog 0%Z 1000%Z initial_state))
         0%Z (userProgress initial_state) w recorded seconds
    /\ (length recorded
        <= length (currentQuestions
                     (handleTimedStart (fun _ => 0%Q) wind_catalog 0%Z 1000%Z
                        initial_state)))%nat.
Proof.
  apply (timed_mode_run (fun _ => 0%Q) wind_catalog 0%Z 1000%Z initial_state).
  vm_compute. discriminate.
Defined.

Lemma timed_events_cons w e es :
  timed_events w (e :: es)
  = match timed_event w e with
    | Some w' => timed_events w' es
    | None => None
    end.
Proof.
  unfold timed_events. cbn [foldl].
  destruct (timed_event w e) as [w'|]; [reflexivity|].
  induction es as [|e' es IH]; [reflexivity | exact IH].
Qed.

(** A timer with [S n] seconds left runs out after [S n] ticks, and
    [handleTimedTimeout] ends the question that is open. *)
Lemma timeout_after_remaining created tnow question n : forall s k,
  timedTimer s
  = Some {| Timer.remaining := Z.of_nat (S n); Timer.running := true |} ->
  isAnswered s = false ->
  array_get (currentQuestions s) (currentQuestionIndex s) = Some question ->
  timed_events {| application := s; scheduled := k |}
    (repeat (IntervalFires created tnow) (S n))
  = Some
      {| application :=
           {| currentQuestions := currentQuestions s;
              currentQuestionIndex := currentQuestionIndex s;
              currentSession :=
                match currentSession s with
                | Some session =>
                    Some (updateSession session false
                            (inject_Z TIMED_SECONDS_PER_QUESTION))
                | None => None
                end;
              userProgress :=
                record_answer (userProgress s) question false created tnow;
              isAnswered := true;
              flashcardIndex := flashcardIndex s;
              timedTimer :=
                Some {| Timer.remaining := 0; Timer.running := false |};
              timedQuestionStartTime := timedQuestionStartTime s |};
         scheduled := S k |}.
Proof.
  induction n as [|n IH]; intros s k Ht Ha Hg.
  - cbn [repeat]. rewrite timed_events_cons.
    cbn [timed_event application scheduled]. unfold interval_fires.
    rewrite Ht. cbn [Timer.running]. unfold Timer.tick.
    cbn [Timer.remaining Timer.running].
    change (Z.of_nat 1 - 1)%Z with 0%Z. change (0 <=? 0)%Z with true.
    cbn [fst snd foldl timer_callback]. unfold Timer.stop at 1.
    cbn [Timer.remaining Timer.running].
    unfold handleTimedTimeout.
    cbn [isAnswered currentQuestions currentQuestionIndex currentSession
         userProgress flashcardIndex timedTimer timedQuestionStartTime].
    rewrite Ha, Hg. reflexivity.
  - change (repeat (IntervalFires created tnow) (S (S n)))
      with (IntervalFires created tnow :: repeat (IntervalFires created tnow) (S n)).
    rewrite timed_events_cons.
    cbn [timed_event application scheduled]. unfold interval_fires.
    rewrite Ht. cbn [Timer.running]. unfold Timer.tick.
    cbn [Timer.remaining Timer.running].
    destruct (Z.leb_spec (Z.of_nat (S (S n)) - 1) 0) as [Hlast|_]; [lia|].
    cbn [fst snd foldl timer_callback schedule scheduled].
    rewrite IH;
      cbn [isAnswered currentQuestions currentQuestionIndex currentSession
           userProgress flashcardIndex timedTimer timedQuestionStartTime];
      [reflexivity | | exact Ha | exact Hg].
    do 2 f_equal. lia.
Qed.

(** X28: [startQuizMode] does not stop the timer of the timed mode.  When the
    user leaves a timed question open and starts a quiz, the timer keeps
    running; when it runs out, the quiz's first question is closed as
    answered, the quiz session is charged a wrong answer of 15 seconds, a
    wrong answer is recorded in the store for that question, and the end of
    a feedback pause of the timed mode is scheduled. *)
Theorem timer_outlives_mode_switch rand questionsData now created tnow s k r :
  timedTimer s = Some {| Timer.remaining := r; Timer.running := true |} ->
  (1 <= r)%Z ->
  let quiz := startQuizMode rand questionsData now s in
  currentQuestions quiz <> [] ->
  exists w question,
    timed_events {| application := quiz; scheduled := k |}
      (repeat (IntervalFires created tnow) (Z.to_nat r))
    = Some w
    /\ head (currentQuestions quiz) = Some question
    /\ currentQuestions (application w) = currentQuestions quiz
    /\ currentQuestionIndex (application w) = 0%Z
    /\ isAnswered (application w) = true
    /\ currentSession (application w)
       = Some (updateSession (createSession Quiz now) false 15)
    /\ userProgress (application w)
       = record_answer (userProgress s) question false created tnow
    /\ scheduled w = S k.
Proof.
  intros Ht Hr quiz Hne.
  assert (Hquiz : exists question,
            head (currentQuestions quiz) = Some question
            /\ array_get (currentQuestions quiz) (currentQuestionIndex quiz)
               = Some question
            /\ currentQuestionIndex quiz = 0%Z
            /\ isAnswered quiz = false
            /\ currentSession quiz = Some (createSession Quiz now)
            /\ userProgress quiz = userProgress s
            /\ timedTimer quiz = timedTimer s).
  { unfold quiz, startQuizMode, renderCurrentQuestion in *.
    cbn [currentQuestions currentQuestionIndex] in *.
    set (qs := selectQuestions _ _ _) in *.
    destruct qs as [|question qs]; [cbn in Hne; contradiction|].
    exists question. cbn. repeat split. }
  destruct Hquiz as (question & Hhead & Hg & Hidx & Ha & Hs & Hu & Htimer).
  rewrite Ht in Htimer.
  destruct (Z.to_nat r) as [|n] eqn:En; [lia|].
  replace r with (Z.of_nat (S n)) in Htimer by lia.
  eexists _, question.
  split; [apply (timeout_after_remaining _ _ question n _ _ Htimer Ha Hg)|].
  cbn [application scheduled currentQuestions currentQuestionIndex
       currentSession userProgress isAnswered].
  rewrite Hs, Hu. repeat split; assumption.
Qed.

Lemma timer_outlives_mode_switch_witness :
  let s := handleTimedStart (fun _ => 0%Q) wind_catalog 0%Z 1000%Z initial_state in
  let quiz := startQuizMode (fun _ => 0%Q) wind_catalog 5%Z s in
  exists w question,
    timed_events {| application := quiz; scheduled := 0 |}
      (repeat (IntervalFires 6%Z 7%Z) (Z.to_nat 15))
    = Some w
    /\ head (currentQuestions quiz) = Some question
    /\ currentQuestions (application w) = currentQuestions quiz
    /\ currentQuestionIndex (application w) = 0%Z
    /\ isAnswered (application w) = true
    /\ currentSession (application w)
       = Some (updateSession (createSession Quiz 5%Z) false 15)
    /\ userProgress (application w)
       = record_answer (userProgress s) question false 6%Z 7%Z
    /\ scheduled w = 1%nat.
Proof.
  apply (timer_outlives_mode_switch (fun _ => 0%Q) wind_catalog 5%Z 6%Z 7%Z
           (handleTimedStart (fun _ => 0%Q) wind_catalog 0%Z 1000%Z initial_state)
           0%nat 15%Z).
  - reflexivity.
  - lia.
  - vm_compute. discriminate.
Defined.
